(** * SecureSheets client SDK: request authentication and client-side protection

    A shallow embedding of the authentication / anti-abuse / caching layer
    shared by the SecureSheets client versions of this repository:

    - [securesheets_client.js]       (client 1.0.0, namespace [SecureSheets])
    - [securesheets_V1_2_0.js]       (client 1.2.0)
    - [securesheets_client_v130.js]  (client 1.3.0)
    - the 3.8.1 client               (namespace [SecureSheetsClient])

    Each JavaScript function is transcribed as a Rocq function of the same
    name, inside a module named after its component.  Where the client
    versions differ, the name carries the version ([_100], [_120], [_130],
    [_381]); a function that is the same in every version is transcribed
    once.  Mutable singletons ([SecureSheets.requestCount],
    [SecureSheets.cache], ...) become fields of an explicit state that is
    passed in and returned; [Date.now()] and [Math.random()] become
    arguments; an exception becomes the [Throw] outcome.  Console logging
    under [config.debug] has no effect on the state and is left out. *)

From Stdlib Require Import ZArith NArith String Ascii List Lia.
From stdpp Require Import base numbers list gmap strings pretty sorting.

Local Open Scope string_scope.
Local Open Scope list_scope.
Local Open Scope Z_scope.
Set Warnings "-register-all".

(** ** JavaScript values, coercions and plain objects *)

Module Js.

(** The values that reach the signer and the cache.  Numbers are the
    integer-valued ones (timestamps, counters); their string form is the
    decimal numeral. *)
Inductive JsValue : Type :=
  | JsUndefined
  | JsNull
  | JsBool (b : bool)
  | JsNumber (n : Z)
  | JsString (s : string)
  | JsObj (props : list (string * JsValue)).

(** [String(v)] and template-literal interpolation [`${v}`]. *)
Definition ToString (v : JsValue) : string :=
  match v with
  | JsUndefined => "undefined"
  | JsNull => "null"
  | JsBool true => "true"
  | JsBool false => "false"
  | JsNumber n => pretty n
  | JsString s => s
  | JsObj _ => "[object Object]"
  end.

(** Truthiness, as tested by [!v], [v || w] and [if (v)]. *)
Definition ToBoolean (v : JsValue) : bool :=
  match v with
  | JsUndefined | JsNull => false
  | JsBool b => b
  | JsNumber n => negb (n =? 0)
  | JsString s => negb (String.eqb s "")
  | JsObj _ => true
  end.

(** [v || w] *)
Definition or_else (v w : JsValue) : JsValue :=
  if ToBoolean v then v else w.

(** A plain object: its own enumerable string-keyed properties in
    insertion order.  A well-formed object holds each key once. *)
Definition JsObject : Type := list (string * JsValue).

Definition Object_keys (o : JsObject) : list string := o.*1.

Definition wf_object (o : JsObject) : Prop := NoDup (Object_keys o).

(** [o[key]]: the property's value, [undefined] when there is none. *)
Fixpoint prop_get (o : JsObject) (key : string) : JsValue :=
  match o with
  | [] => JsUndefined
  | (k, v) :: o' => if decide (k = key) then v else prop_get o' key
  end.

(** [o[key] = v]: overwrite in place, or append a new property. *)
Fixpoint prop_set (o : JsObject) (key : string) (v : JsValue) : JsObject :=
  match o with
  | [] => [(key, v)]
  | (k, w) :: o' =>
      if decide (k = key) then (k, v) :: o' else (k, w) :: prop_set o' key v
  end.

(** [{ ...o }]: a shallow copy is the same property list under a new
    identity; identities are modelled by the heap of [Orchestrator]. *)
Definition spread (o : JsObject) : JsObject := o.

(** Ordinal comparison of strings, the order of [Array.prototype.sort()]
    without a comparator.  Strings are sequences of one-byte code units,
    which covers the ASCII keys the clients use. *)
Definition str_le (s1 s2 : string) : Prop := String.leb s1 s2 = true.

#[global] Instance str_le_dec : RelDecision str_le.
Proof. intros s1 s2. unfold str_le. apply _. Defined.

(** [keys.sort()].  The result of sorting under a total antisymmetric
    order does not depend on the algorithm (see [sort_unique]). *)
Definition sort (keys : list string) : list string := merge_sort str_le keys.

(** The object with each value replaced by its image under [f]; keys and
    their order stay. *)
Definition map_values (f : JsValue → JsValue) (o : JsObject) : JsObject :=
  (λ kv, (kv.1, f kv.2)) <$> o.

(** What [JSON.stringify(v)] carries of a value: at every depth, a
    property whose value is [undefined] is left out. *)
Fixpoint JSON_value (v : JsValue) : JsValue :=
  match v with
  | JsObj props =>
      JsObj ((fix members (l : list (string * JsValue)) : list (string * JsValue) :=
                match l with
                | [] => []
                | (_, JsUndefined) :: l' => members l'
                | (k, x) :: l' => (k, JSON_value x) :: members l'
                end) props)
  | _ => v
  end.

(** The members of [JSON.stringify(o)]. *)
Definition JSON_members (o : JsObject) : JsObject :=
  match JSON_value (JsObj o) with
  | JsObj members => members
  | _ => o
  end.

(** [parts.join(sep)] *)
Definition join (sep : string) (parts : list string) : string :=
  String.concat sep parts.

End Js.
Export Js.

(** ** Outcomes of a call *)

Inductive JsError : Type :=
  | CryptoJSRequired            (* 'SecureSheets: CryptoJS required ...' *)
  | MessageAndSecretRequired    (* 3.8.1 computeHMAC *)
  | ParametersMustBeObject      (* 'Parameters must be an object' *)
  | NotConfigured               (* 'SecureSheets: Not configured. Call configure() first.' *)
  | RateLimitExceeded (resetTime : Z)
  | NonceExhausted              (* 'SecureSheets: Failed to generate unique nonce' *)
  | AbortError                  (* fetch aborted by the timeout controller *)
  | RequestTimeout              (* 'SecureSheets: Request timeout' *)
  | NetworkError                (* fetch rejected *)
  | InvalidJson                 (* response.json() rejected *)
  | HttpError (status : Z)      (* 'HTTP <status>' with no structured body *)
  | ServerError (code : JsValue)   (* parseError(errorData), carrying errorData.code *)
  | CannotCreateProperty.         (* TypeError: strict-mode write to a property of a primitive *)

Inductive outcome (A : Type) : Type :=
  | Return (a : A)
  | Throw (e : JsError).
Arguments Return {A} a.
Arguments Throw {A} e.

(** ** The signer *)

Module Signer.

Section WithCrypto.

(** [CryptoJS.HmacSHA256(message, secret)] rendered in hex; [None] when
    the CryptoJS global is undefined. *)
Variable CryptoJS : option (string → string → string).

(** [SecureSheets.computeHMAC] (1.0.0, 1.2.0 and 1.3.0). *)
Definition computeHMAC (message secret : string) : outcome string :=
  match CryptoJS with
  | None => Throw CryptoJSRequired
  | Some HmacSHA256 => Return (HmacSHA256 message secret)
  end.

(** [SecureSheetsClient.computeHMAC] (3.8.1) also rejects an empty
    message or secret. *)
Definition computeHMAC_381 (message secret : string) : outcome string :=
  match CryptoJS with
  | None => Throw CryptoJSRequired
  | Some HmacSHA256 =>
      if String.eqb message "" || String.eqb secret ""
      then Throw MessageAndSecretRequired
      else Return (HmacSHA256 message secret)
  end.

(** The canonical string of [createSignature] (1.0.0 and 3.8.1):
    [sortedKeys.map(key => `${key}=${params[key]}`).join('&')].  None of
    these definitions refers to [CryptoJS]. *)
Definition entry_template (params : JsObject) (key : string) : string :=
  key +:+ "=" +:+ ToString (prop_get params key).

Definition entries (params : JsObject) : list string :=
  entry_template params <$> sort (Object_keys params).

Definition signatureString (params : JsObject) : string :=
  join "&" (entries params).

(** [SecureSheets.createSignature(params, secret)] (1.0.0). *)
Definition createSignature (params : JsObject) (secret : string) : outcome string :=
  computeHMAC (signatureString params) secret.

(** [SecureSheetsClient.createSignature(params, secret)] (3.8.1); the
    guard [!params || typeof params !== 'object'] is the caller passing
    [None]. *)
Definition createSignature_381 (params : option JsObject) (secret : string)
  : outcome string :=
  match params with
  | None => Throw ParametersMustBeObject
  | Some p => computeHMAC_381 (signatureString p) secret
  end.

(** The canonical string of [generateSignature] (1.3.0):
    [sortedKeys.map(key => key + '=' + String(params[key] || '')).join('&')]. *)
Definition entry_or_empty (params : JsObject) (key : string) : string :=
  key +:+ "=" +:+ ToString (or_else (prop_get params key) (JsString "")).

Definition entries_130 (params : JsObject) : list string :=
  entry_or_empty params <$> sort (Object_keys params).

Definition signatureString_130 (params : JsObject) : string :=
  join "&" (entries_130 params).

(** [SecureSheets.generateSignature(params)] (1.3.0) signs with the
    configured [hmacSecret]. *)
Definition generateSignature (hmacSecret : string) (params : JsObject)
  : outcome string :=
  computeHMAC (signatureString_130 params) hmacSecret.

End WithCrypto.

End Signer.

(** ** The rate limiter

    [checkRateLimit] is the same function in every client version; only
    the wording of the error message differs. *)

Module RateLimiter.

Record Config : Type := {
  rateLimitEnabled : bool;
  maxRequests : Z
}.

(** [SecureSheets.requestCount] and [SecureSheets.requestWindow]. *)
Record Window : Type := {
  requestCount : Z;
  requestWindow : Z
}.

Definition oneHour : Z := 60 * 60 * 1000.

(** [SecureSheets.checkRateLimit()], called when [Date.now()] is [now].
    The window reset is a write that stays when the call then throws. *)
Definition checkRateLimit (cfg : Config) (now : Z) (w : Window)
  : outcome bool * Window :=
  if negb (rateLimitEnabled cfg) then (Return true, w)
  else
    let w1 :=
      if now - requestWindow w >? oneHour
      then {| requestCount := 0; requestWindow := now |}
      else w in
    if requestCount w1 >=? maxRequests cfg
    then (Throw (RateLimitExceeded (requestWindow w1 + oneHour)), w1)
    else (Return true,
          {| requestCount := requestCount w1 + 1;
             requestWindow := requestWindow w1 |}).

(** [SecureSheets.resetRateLimit()] *)
Definition resetRateLimit (now : Z) : Window :=
  {| requestCount := 0; requestWindow := now |}.

(** A run of calls at the given clock readings: the outcomes in call
    order and the final window. *)
Fixpoint calls (cfg : Config) (times : list Z) (w : Window)
  : list (outcome bool) * Window :=
  match times with
  | [] => ([], w)
  | now :: rest =>
      let '(r, w1) := checkRateLimit cfg now w in
      let '(rs, w2) := calls cfg rest w1 in
      (r :: rs, w2)
  end.

Definition succeeded (r : outcome bool) : Prop := r = Return true.

End RateLimiter.

(** ** The response cache *)

Module Cache.

Section Entries.

Variable Data : Type.

(** [{ data, expiry }] (1.2.0, 1.3.0) or [{ data, expires }] (1.0.0). *)
Record Entry : Type := {
  data : Data;
  expiry : Z
}.

(** [SecureSheets.getCached(key)] (1.2.0 and 1.3.0); [null] is [None]. *)
Definition getCached (now : Z) (key : string) (cache : gmap string Entry)
  : option Data * gmap string Entry :=
  match cache !! key with
  | None => (None, cache)
  | Some cached =>
      if now >? expiry cached
      then (None, delete key cache)
      else (Some (data cached), cache)
  end.

(** [SecureSheets.setCached(key, data)] (1.2.0 and 1.3.0): the lifetime
    is the configured [cacheTimeout], in milliseconds. *)
Definition setCached (cacheTimeout : Z) (now : Z) (key : string) (d : Data)
    (cache : gmap string Entry) : gmap string Entry :=
  <[key := {| data := d; expiry := now + cacheTimeout |}]> cache.

(** [SecureSheets.clearCache(key)]: an absent or empty key clears all. *)
Definition clearCache (key : option string) (cache : gmap string Entry)
  : gmap string Entry :=
  match key with
  | Some k => if String.eqb k "" then ∅ else delete k cache
  | None => ∅
  end.

End Entries.

Arguments data {Data} _.
Arguments expiry {Data} _.
Arguments getCached {Data} now key cache.
Arguments setCached {Data} cacheTimeout now key d cache.
Arguments clearCache {Data} key cache.

(** [SecureSheets.getCached(key)] of client 1.0.0: gated by
    [config.enableCache]; a hit is returned as
    [{ ...cached.data, fromCache: true }]. *)
Definition getCached_100 (enableCache : bool) (now : Z) (key : string)
    (cache : gmap string (Entry JsObject))
  : option JsObject * gmap string (Entry JsObject) :=
  if negb enableCache then (None, cache)
  else
    match cache !! key with
    | None => (None, cache)
    | Some cached =>
        if now >? expiry cached
        then (None, delete key cache)
        else (Some (prop_set (spread (data cached)) "fromCache" (JsBool true)),
              cache)
    end.

(** [SecureSheets.setCached(key, data, ttl = 300)] of client 1.0.0: the
    lifetime is [ttl] seconds. *)
Definition setCached_100 (enableCache : bool) (now : Z) (key : string)
    (d : JsObject) (ttl : option Z) (cache : gmap string (Entry JsObject))
  : gmap string (Entry JsObject) :=
  if negb enableCache then cache
  else <[key := {| data := d; expiry := now + default 300 ttl * 1000 |}]> cache.

(** A run of [getCached] calls (1.2.0 / 1.3.0), each with its clock
    reading and key; only the cache it leaves matters here. *)
Definition gets {Data} (reads : list (Z * string))
    (cache : gmap string (Entry Data)) : gmap string (Entry Data) :=
  foldl (λ c r, (getCached r.1 r.2 c).2) cache reads.

Definition gets_100 (enableCache : bool) (reads : list (Z * string))
    (cache : gmap string (Entry JsObject)) : gmap string (Entry JsObject) :=
  foldl (λ c r, (getCached_100 enableCache r.1 r.2 c).2) cache reads.

End Cache.

(** ** The nonce generator (1.2.0 and 1.3.0) *)

Module Nonce.

(** [SecureSheets.usedNonces]: a [Set], which iterates in insertion
    order and holds each member once. *)
Abbreviation NonceSet := (list string).

Definition has (x : string) (s : NonceSet) : bool := bool_decide (x ∈ s).

Definition add (x : string) (s : NonceSet) : NonceSet :=
  if has x s then s else s ++ [x].

Definition delete (x : string) (s : NonceSet) : NonceSet :=
  filter (λ y, y ≠ x) s.

(** [s.values().next().value] *)
Definition first (s : NonceSet) : option string := head s.

Definition maxAttempts : nat := 10.

(** The [do { ... } while (...)] loop.  [cand i] is the candidate
    [Date.now().toString(36) + Math.random().toString(36).substr(2, 9)]
    drawn by iteration [i] (counted from 0).  [fuel] bounds the number of
    iterations still allowed; [doWhile_enough_fuel] shows that
    [maxAttempts] is never used up. *)
Fixpoint doWhile (fuel : nat) (cand : nat → string) (used : NonceSet)
    (attempts : nat) : string * nat :=
  let nonce := cand attempts in
  let attempts' := S attempts in
  match fuel with
  | O => (nonce, attempts')
  | S fuel' =>
      if has nonce used && (attempts' <? maxAttempts)%nat
      then doWhile fuel' cand used attempts'
      else (nonce, attempts')
  end.

(** [if (usedNonces.size > 1000) {
       const firstNonce = usedNonces.values().next().value;
       usedNonces.delete(firstNonce); }] *)
Definition limitSize (s : NonceSet) : NonceSet :=
  if (1000 <? length s)%nat
  then match first s with
       | Some firstNonce => delete firstNonce s
       | None => s
       end
  else s.

(** [SecureSheets.generateNonce()]: [null] is [Return None]. *)
Definition generateNonce (enableNonce : bool) (cand : nat → string)
    (used : NonceSet) : outcome (option string) * NonceSet :=
  if negb enableNonce then (Return None, used)
  else
    let '(nonce, attempts) := doWhile maxAttempts cand used 0 in
    if (maxAttempts <=? attempts)%nat then (Throw NonceExhausted, used)
    else
      (Return (Some nonce), limitSize (add nonce used)).

(** [SecureSheets.clearNonces()] *)
Definition clearNonces (used : NonceSet) : NonceSet := [].

(** The set left by a run of calls of any outcome, each call with the
    [enableNonce] setting in force and its own candidate source. *)
Definition afterCalls (calls : list (bool * (nat → string))) (used : NonceSet)
  : NonceSet :=
  foldl (λ s c, (generateNonce c.1 c.2 s).2) used calls.

(** Consecutive calls, each with its own candidate source; [None] as soon
    as one call throws. *)
Fixpoint generateAll (cands : list (nat → string)) (used : NonceSet)
  : option (list string * NonceSet) :=
  match cands with
  | [] => Some ([], used)
  | cand :: rest =>
      match generateNonce true cand used with
      | (Return (Some nonce), used1) =>
          match generateAll rest used1 with
          | Some (nonces, used2) => Some (nonce :: nonces, used2)
          | None => None
          end
      | _ => None
      end
  end.

End Nonce.

(** ** The CSRF token manager (1.2.0 and 1.3.0) *)

Module Csrf.

(** [SecureSheets.csrfToken] and [SecureSheets.csrfExpiry]; [null] is
    [None]. *)
Record State : Type := {
  csrfToken : option string;
  csrfExpiry : option Z
}.

Definition lifetime : Z := 30 * 60 * 1000.

(** ['csrf_' + Date.now() + '_' + Math.random().toString(36).substr(2, 16)] *)
Definition mint (now : Z) (rnd : string) : string :=
  "csrf_" +:+ pretty now +:+ "_" +:+ rnd.

(** [csrfToken && csrfExpiry && now < csrfExpiry] *)
Definition stillValid (now : Z) (st : State) : option string :=
  match csrfToken st, csrfExpiry st with
  | Some tok, Some e =>
      if negb (String.eqb tok "") && negb (e =? 0) && (now <? e)
      then Some tok else None
  | _, _ => None
  end.

(** [SecureSheets.getCSRFToken()], a synchronous call during which the
    clock reads [now]; [rnd] is the random suffix it would draw. *)
Definition getCSRFToken (enableCSRF : bool) (now : Z) (rnd : string)
    (st : State) : option string * State :=
  if negb enableCSRF then (None, st)
  else
    match stillValid now st with
    | Some tok => (Some tok, st)
    | None =>
        let token := mint now rnd in
        (Some token,
         {| csrfToken := Some token; csrfExpiry := Some (now + lifetime) |})
    end.

(** [SecureSheets.clearCSRFToken()] *)
Definition clearCSRFToken (st : State) : State :=
  {| csrfToken := None; csrfExpiry := None |}.

(** [SecureSheetsClient.generateCSRFToken(origin, secret)] of the 3.8.1
    client, called once per POST request; it keeps no state. *)
Definition generateCSRFToken_381 (CryptoJS : option (string → string → string))
    (now : Z) (origin secret : string) : outcome string :=
  let timestamp := now in
  match Signer.computeHMAC_381 CryptoJS (pretty timestamp +:+ ":" +:+ origin) secret with
  | Return signature => Return (pretty timestamp +:+ ":" +:+ signature)
  | Throw e => Throw e
  end.

(** The state a minting call at clock reading [now] leaves. *)
Definition issued (now : Z) (rnd : string) : State :=
  {| csrfToken := Some (mint now rnd); csrfExpiry := Some (now + lifetime) |}.

(** A run of [getCSRFToken] calls with CSRF enabled, each with its clock
    reading and random suffix: the tokens returned, in call order. *)
Fixpoint tokens (reads : list (Z * string)) (st : State) : list (option string) :=
  match reads with
  | [] => []
  | (now, rnd) :: rest =>
      let '(tok, st1) := getCSRFToken true now rnd st in
      tok :: tokens rest st1
  end.

(** [c] does not occur in [s]. *)
Fixpoint free_of (c : ascii) (s : string) : Prop :=
  match s with
  | EmptyString => True
  | String a s' => a ≠ c ∧ free_of c s'
  end.

End Csrf.

(** ** Webhook signature verification (1.2.0 and 1.3.0) *)

Module Webhook.

(** [s.charCodeAt(i)]; out of range it is [NaN], which the bitwise
    operators read as 0. *)
Definition charCodeAt (s : string) (i : nat) : N :=
  match String.get i s with
  | Some c => N_of_ascii c
  | None => 0%N
  end.

(** [for (let i = 0; i < signature.length; i++)
       result |= signature.charCodeAt(i) ^ expectedSignature.charCodeAt(i);] *)
Definition xorAccumulate (signature expected : string) : N :=
  fold_left
    (λ result i,
       N.lor result (N.lxor (charCodeAt signature i) (charCodeAt expected i)))
    (seq 0 (String.length signature)) 0%N.

(** A missing ([null]/[undefined]) or empty argument is falsy. *)
Definition present (a : option string) : option string :=
  match a with
  | Some s => if String.eqb s "" then None else Some s
  | None => None
  end.

(** The body of the [try] block. *)
Definition compareSignature (CryptoJS : option (string → string → string))
    (payload signature secret : string) : outcome bool :=
  match Signer.computeHMAC CryptoJS payload secret with
  | Throw e => Throw e
  | Return expectedSignature =>
      if negb (String.length signature =? String.length expectedSignature)%nat
      then Return false
      else Return (xorAccumulate signature expectedSignature =? 0)%N
  end.

(** [SecureSheets.verifyWebhookSignature(payload, signature, secret)] *)
Definition verifyWebhookSignature (CryptoJS : option (string → string → string))
    (payload signature secret : option string) : outcome bool :=
  match present payload, present signature, present secret with
  | Some p, Some sg, Some sk =>
      match compareSignature CryptoJS p sg sk with
      | Return b => Return b
      | Throw _ => Return false        (* catch (error) { ...; return false; } *)
      end
  | _, _, _ => Return false
  end.

End Webhook.

(** ** The request orchestrator

    Objects handed to [makeRequest] / [makePostRequest] are references
    into a heap, so that a write through the callee's parameter is seen by
    the caller.  The world also records, in order, each consultation of
    the rate limiter, each cache access and each network call. *)

Module Orchestrator.

Record Config : Type := {
  scriptUrl : option string;          (* [null] is [None] *)
  apiToken : option string;
  hmacSecret : option string;
  origin : string;                    (* 1.3.0 [config.origin] *)
  enableCSRF : bool;
  enableNonce : bool;
  limiter : RateLimiter.Config;
  enableCache : bool;                 (* 1.0.0 *)
  cacheTimeout : Z                    (* 1.2.0, 1.3.0 *)
}.

(** [!config.field] *)
Definition missing (field : option string) : bool :=
  match field with
  | Some s => String.eqb s ""
  | None => true
  end.

Definition field_value (field : option string) : JsValue :=
  match field with
  | Some s => JsString s
  | None => JsNull
  end.

(** [SecureSheets.isConfigured()] (1.2.0, 1.3.0) *)
Definition isConfigured (cfg : Config) : bool :=
  negb (missing (scriptUrl cfg)) && negb (missing (apiToken cfg))
  && negb (missing (hmacSecret cfg)).

Record Request : Type := {
  method : string;
  url : option string;
  headers : JsObject;
  payload : JsObject                  (* query parameters or JSON body *)
}.

(** A response.  [rateLimitRemaining] is [Some v] when the response has an
    [X-RateLimit-Remaining] header, [v] being what [parseInt] makes of it. *)
Inductive Response : Type :=
  | Aborted                           (* the timeout controller fired *)
  | Unreachable                       (* fetch rejected *)
  | Http (ok : bool) (status : Z) (json : option JsObject)
      (rateLimitRemaining : option JsValue).

(** What the client reads from its surroundings. *)
Record Env : Type := {
  CryptoJS : option (string → string → string);
  JSON_stringify : JsObject → string;
  location_origin : string;           (* [window.location.origin] *)
  toISOString : Z → string;           (* [new Date(t).toISOString()] *)
  fetch : Request → Response
}.

Inductive Event : Type :=
  | RateLimiterConsulted
  | CacheRead (key : string)
  | CacheWrite (key : string)
  | NetworkCall (req : Request).

Record World : Type := {
  heap : gmap nat JsObject;
  window : RateLimiter.Window;
  cache : gmap string (Cache.Entry JsObject);
  csrf : Csrf.State;
  usedNonces : list string;
  trace : list Event;
  serverInfo : option nat             (* [SecureSheets.serverInfo]; [null] is [None] *)
}.

(** Per-call randomness: the nonce candidates and the CSRF suffix. *)
Record Entropy : Type := {
  nonceCandidates : nat → string;
  csrfSuffix : string
}.

Record Options : Type := {
  useCache : bool;                    (* [options.useCache !== false] *)
  cacheTTL : option Z
}.

(** *** State and exceptions *)

Definition M (A : Type) : Type := World → outcome A * World.

Definition ret {A} (a : A) : M A := λ w, (Return a, w).
Definition throw {A} (e : JsError) : M A := λ w, (Throw e, w).
Definition bind {A B} (m : M A) (k : A → M B) : M B :=
  λ w, match m w with
       | (Return a, w1) => k a w1
       | (Throw e, w1) => (Throw e, w1)
       end.
Definition lift {A} (r : outcome A) : M A := λ w, (r, w).

(** [try { body } catch (error) { throw handler(error) }] *)
Definition tryCatch {A} (body : M A) (handler : JsError → JsError) : M A :=
  λ w, match body w with
       | (Return a, w1) => (Return a, w1)
       | (Throw e, w1) => (Throw (handler e), w1)
       end.

Notation "'let*' x ':=' m 'in' k" := (bind m (λ x, k))
  (at level 10, x name, m at level 100, k at level 200).
Notation "m ';;' k" := (bind m (λ _, k))
  (at level 100, k at level 200, right associativity).

(** Writes to one field of the world. *)
Definition with_heap (h : gmap nat JsObject) (w : World) : World :=
  {| heap := h; window := window w; cache := cache w; csrf := csrf w;
     usedNonces := usedNonces w; trace := trace w;
     serverInfo := serverInfo w |}.
Definition with_window (x : RateLimiter.Window) (w : World) : World :=
  {| heap := heap w; window := x; cache := cache w; csrf := csrf w;
     usedNonces := usedNonces w; trace := trace w;
     serverInfo := serverInfo w |}.
Definition with_cache (c : gmap string (Cache.Entry JsObject)) (w : World) : World :=
  {| heap := heap w; window := window w; cache := c; csrf := csrf w;
     usedNonces := usedNonces w; trace := trace w;
     serverInfo := serverInfo w |}.
Definition with_csrf (st : Csrf.State) (w : World) : World :=
  {| heap := heap w; window := window w; cache := cache w; csrf := st;
     usedNonces := usedNonces w; trace := trace w;
     serverInfo := serverInfo w |}.
Definition with_usedNonces (u : list string) (w : World) : World :=
  {| heap := heap w; window := window w; cache := cache w; csrf := csrf w;
     usedNonces := u; trace := trace w;
     serverInfo := serverInfo w |}.
Definition with_trace (t : list Event) (w : World) : World :=
  {| heap := heap w; window := window w; cache := cache w; csrf := csrf w;
     usedNonces := usedNonces w; trace := t;
     serverInfo := serverInfo w |}.

Definition with_serverInfo (info : option nat) (w : World) : World :=
  {| heap := heap w; window := window w; cache := cache w; csrf := csrf w;
     usedNonces := usedNonces w; trace := trace w; serverInfo := info |}.

Definition log (e : Event) : M unit :=
  λ w, (Return tt, with_trace (trace w ++ [e]) w).

(** Reading an object through a reference. *)
Definition readObj (r : nat) : M JsObject :=
  λ w, (Return (default [] (heap w !! r)), w).

(** [r.key = v] *)
Definition setProp (r : nat) (key : string) (v : JsValue) : M unit :=
  λ w, (Return tt,
        with_heap (<[r := prop_set (default [] (heap w !! r)) key v]> (heap w)) w).

(** A new object (an object literal): it gets an unused reference. *)
Definition alloc (o : JsObject) : M nat :=
  λ w, let r := fresh (dom (heap w)) in
       (Return r, with_heap (<[r := o]> (heap w)) w).

Definition checkRateLimit (cfg : Config) (now : Z) : M bool :=
  log RateLimiterConsulted ;;
  λ w, let '(r, win) := RateLimiter.checkRateLimit (limiter cfg) now (window w) in
       (r, with_window win w).

Definition withCache {A}
    (f : gmap string (Cache.Entry JsObject) → A * gmap string (Cache.Entry JsObject))
  : M A :=
  λ w, let '(a, c) := f (cache w) in (Return a, with_cache c w).

Definition doFetch (env : Env) (req : Request) : M Response :=
  log (NetworkCall req) ;; ret (fetch env req).

Definition generateNonce (cfg : Config) (rnd : Entropy) : M (option string) :=
  λ w, let '(r, used) :=
         Nonce.generateNonce (enableNonce cfg) (nonceCandidates rnd) (usedNonces w) in
       (r, with_usedNonces used w).

Definition getCSRFToken (cfg : Config) (now : Z) (rnd : Entropy) : M (option string) :=
  λ w, let '(tok, st) :=
         Csrf.getCSRFToken (enableCSRF cfg) now (csrfSuffix rnd) (csrf w) in
       (Return tok, with_csrf st w).

(** [handleErrorResponse(response)] (1.2.0, 1.3.0): always throws. *)
Definition handleErrorResponse {A} (status : Z) (json : option JsObject) : M A :=
  match json with
  | None => throw (HttpError status)
  | Some errorData => throw (ServerError (prop_get errorData "code"))
  end.

(** [SecureSheets.getServerInfo()] (1.2.0, 1.3.0) hands out the stored
    reference itself: the object that [configureWithDiscovery] received
    from the server and returned to its caller. *)
Definition getServerInfo : M (option nat) :=
  λ w, (Return (serverInfo w), w).

(** [SecureSheets.serverInfo = info] *)
Definition setServerInfo (info : option nat) : M unit :=
  λ w, (Return tt, with_serverInfo info w).

(** [if (!SecureSheets.serverInfo) SecureSheets.serverInfo = {};] and
    the reference [SecureSheets.serverInfo] then read. *)
Definition serverInfoObject : M nat :=
  let* stored := getServerInfo in
  match stored with
  | Some r => ret r
  | None => let* r := alloc [] in setServerInfo (Some r) ;; ret r
  end.

(** Client 1.2.0, after a response has been read:
    [if (response.headers.has('X-RateLimit-Remaining')) {
       if (!SecureSheets.serverInfo) SecureSheets.serverInfo = {};
       if (!SecureSheets.serverInfo.limits) SecureSheets.serverInfo.limits = {};
       SecureSheets.serverInfo.limits.remaining =
         parseInt(response.headers.get('X-RateLimit-Remaining')); }]
    The file is in strict mode, so the last assignment throws a
    [TypeError] when [limits] is a truthy primitive. *)
Definition updateServerInfo (rateLimitRemaining : option JsValue) : M unit :=
  match rateLimitRemaining with
  | None => ret tt
  | Some remaining =>
      let* info := serverInfoObject in
      let* o := readObj info in
      (if negb (ToBoolean (prop_get o "limits"))
       then setProp info "limits" (JsObj [])
       else ret tt) ;;
      let* o := readObj info in
      match prop_get o "limits" with
      | JsObj limits =>
          setProp info "limits" (JsObj (prop_set limits "remaining" remaining))
      | _ => throw CannotCreateProperty
      end
  end.

(** [{ action, ...params }] *)
Definition withAction (action : string) (params : JsObject) : JsObject :=
  foldl (λ o kv, prop_set o kv.1 kv.2) [("action", JsString action)] params.

(** *** Client 1.0.0: [SecureSheets.makeRequest(params, options)]

    [params] is [None] when the caller passes no object.  [now] is the
    clock while the request is prepared, [later] when the response has
    arrived. *)
Definition makeRequest_100 (env : Env) (cfg : Config) (now later : Z)
    (params : option nat) (options : Options) : M JsObject :=
  if missing (scriptUrl cfg) || missing (apiToken cfg) || missing (hmacSecret cfg)
  then throw NotConfigured
  else
    match params with
    | None => throw ParametersMustBeObject
    | Some p =>
        tryCatch
          (checkRateLimit cfg now ;;
           let* original := readObj p in
           let* rp := alloc (spread original) in
           setProp rp "token" (field_value (apiToken cfg)) ;;
           setProp rp "timestamp" (JsString (pretty now)) ;;
           setProp rp "referrer" (JsString (location_origin env)) ;;
           setProp rp "origin" (JsString (location_origin env)) ;;
           let* requestParams := readObj rp in
           let* cached :=
             (if useCache options
                 && negb (ToBoolean (prop_get requestParams "action"))
              then
                let cacheKey := JSON_stringify env requestParams in
                log (CacheRead cacheKey) ;;
                withCache (Cache.getCached_100 (enableCache cfg) now cacheKey)
              else ret None) in
           match cached with
           | Some hit => ret hit
           | None =>
               let* signature :=
                 lift (Signer.createSignature (CryptoJS env) requestParams
                         (default "" (hmacSecret cfg))) in
               setProp rp "signature" (JsString signature) ;;
               let* requestParams := readObj rp in
               let* response :=
                 doFetch env {| method := "GET"; url := scriptUrl cfg;
                                headers := [("Accept", JsString "application/json")];
                                payload := requestParams |} in
               match response with
               | Aborted => throw AbortError
               | Unreachable => throw NetworkError
               | Http false status _ _ => throw (HttpError status)
               | Http true _ None _ => throw InvalidJson
               | Http true _ (Some data) _ =>
                   (if ToBoolean (prop_get data "success") && useCache options
                    then
                      let cacheKey := JSON_stringify env requestParams in
                      log (CacheWrite cacheKey) ;;
                      withCache (λ c, (tt, Cache.setCached_100 (enableCache cfg)
                                             later cacheKey data (cacheTTL options) c))
                    else ret tt) ;;
                   ret data
               end
           end)
          (λ error, match error with
                    | AbortError => RequestTimeout
                    | _ => error
                    end)
    end.

(** [buildUrl(params)] (1.3.0) keeps the parameters that are neither
    [null] nor [undefined]; [queryParams.append(key, params[key])] turns
    each value into its string form. *)
Definition buildUrl (params : JsObject) : JsObject :=
  map_values (λ value, JsString (ToString value))
    (List.filter
       (λ kv, match kv.2 with JsNull | JsUndefined => false | _ => true end)
       params).

(** *** Client 1.3.0: [SecureSheets.makeRequest(params = {}, options = {})]

    The body is split in two for reference: the statements that add the
    token, origin and timestamp, and the rest of the function. *)
Definition addAuth_130 (env : Env) (cfg : Config) (now : Z) (params : nat)
  : M unit :=
  setProp params "token" (field_value (apiToken cfg)) ;;
  (if negb (String.eqb (origin cfg) "")
   then setProp params "origin" (JsString (origin cfg))
   else ret tt) ;;
  setProp params "timestamp" (JsString (toISOString env now)).

Definition signAndSend_130 (env : Env) (cfg : Config) (now later : Z)
    (params : nat) (options : Options) : M JsObject :=
  let* p := readObj params in
  let* cached :=
    (if useCache options
     then
       let cacheKey := JSON_stringify env p in
       log (CacheRead cacheKey) ;;
       withCache (Cache.getCached now cacheKey)
     else ret None) in
  match cached with
  | Some hit => ret hit
  | None =>
      let* signature :=
        lift (Signer.generateSignature (CryptoJS env)
                (default "" (hmacSecret cfg)) p) in
      setProp params "signature" (JsString signature) ;;
      let* p := readObj params in
      let* response :=
        doFetch env {| method := "GET"; url := scriptUrl cfg; headers := [];
                       payload := buildUrl p |} in
      match response with
      | Aborted => throw AbortError
      | Unreachable => throw NetworkError
      | Http false status json _ => handleErrorResponse status json
      | Http true _ None _ => throw InvalidJson
      | Http true _ (Some data) _ =>
          (if useCache options
           then
             let cacheKey := JSON_stringify env p in
             log (CacheWrite cacheKey) ;;
             withCache (λ c, (tt, Cache.setCached (cacheTimeout cfg) later
                                    cacheKey data c))
           else ret tt) ;;
          ret data
      end
  end.

Definition makeRequest_130 (env : Env) (cfg : Config) (now later : Z)
    (params : nat) (options : Options) : M JsObject :=
  checkRateLimit cfg now ;;
  addAuth_130 env cfg now params ;;
  signAndSend_130 env cfg now later params options.

(** *** Client 1.2.0 *)

(** [SecureSheets.generateAuthHeaders(action, params)] *)
Definition generateAuthHeaders (env : Env) (cfg : Config) (now : Z)
    (rnd : Entropy) (action : string) : M JsObject :=
  let timestamp := now `div` 1000 in
  let* nonce := generateNonce cfg rnd in
  let token := ToString (field_value (apiToken cfg)) in
  let message :=
    token +:+ ":" +:+ pretty timestamp +:+ ":" +:+ action
    +:+ match nonce with
        | Some n => if String.eqb n "" then "" else ":" +:+ n
        | None => ""
        end in
  let* signature :=
    lift (Signer.computeHMAC (CryptoJS env) message
            (ToString (field_value (hmacSecret cfg)))) in
  let headers :=
    [("X-API-Token", field_value (apiToken cfg));
     ("X-Timestamp", JsString (pretty timestamp));
     ("X-Signature", JsString signature)] in
  ret match nonce with
      | Some n => if String.eqb n "" then headers
                  else prop_set headers "X-Nonce" (JsString n)
      | None => headers
      end.

(** [SecureSheets.makeRequest(action, params = {}, options = {})]; the
    statements after the rate-limit check are named for reference. *)
Definition cachedOrFetch_120 (env : Env) (cfg : Config) (now later : Z)
    (rnd : Entropy) (action : string) (params : nat) (options : Options)
  : M JsObject :=
  let* p := readObj params in
  let cacheKey := action +:+ ":" +:+ JSON_stringify env p in
  let* cached :=
    (if useCache options
     then log (CacheRead cacheKey) ;; withCache (Cache.getCached now cacheKey)
     else ret None) in
  match cached with
  | Some hit => ret hit
  | None =>
      let queryParams := withAction action p in
      let* headers := generateAuthHeaders env cfg now rnd action in
      let* response :=
        doFetch env {| method := "GET"; url := scriptUrl cfg;
                       headers := headers; payload := queryParams |} in
      match response with
      | Aborted => throw AbortError
      | Unreachable => throw NetworkError
      | Http false status json _ => handleErrorResponse status json
      | Http true _ None _ => throw InvalidJson
      | Http true _ (Some data) rateLimitRemaining =>
          updateServerInfo rateLimitRemaining ;;
          (if useCache options
           then log (CacheWrite cacheKey) ;;
                withCache (λ c, (tt, Cache.setCached (cacheTimeout cfg) later
                                       cacheKey data c))
           else ret tt) ;;
          ret data
      end
  end.

Definition makeRequest_120 (env : Env) (cfg : Config) (now later : Z)
    (rnd : Entropy) (action : string) (params : nat) (options : Options)
  : M JsObject :=
  checkRateLimit cfg now ;;
  cachedOrFetch_120 env cfg now later rnd action params options.

(** [SecureSheets.makePostRequest(action, body = {}, options = {})]; what
    is sent is [JSON.stringify({ action, ...body })]. *)
Definition makePostRequest_120 (env : Env) (cfg : Config) (now : Z)
    (rnd : Entropy) (action : string) (body : nat) : M JsObject :=
  checkRateLimit cfg now ;;
  let* headers := generateAuthHeaders env cfg now rnd action in
  let headers := prop_set headers "Content-Type" (JsString "application/json") in
  let* headers :=
    (if enableCSRF cfg
     then
       let* csrfToken := getCSRFToken cfg now rnd in
       let tokenValue :=
         match csrfToken with Some t => JsString t | None => JsNull end in
       setProp body "csrfToken" tokenValue ;;
       ret (prop_set headers "X-CSRF-Token" tokenValue)
     else ret headers) in
  let* b := readObj body in
  let* response :=
    doFetch env {| method := "POST"; url := scriptUrl cfg; headers := headers;
                   payload := JSON_members (withAction action b) |} in
  match response with
  | Aborted => throw AbortError
  | Unreachable => throw NetworkError
  | Http false status json _ => handleErrorResponse status json
  | Http true _ None _ => throw InvalidJson
  | Http true _ (Some data) rateLimitRemaining =>
      updateServerInfo rateLimitRemaining ;;
      ret data
  end.

(** *** Reasoning about a call

    [ensures I G m]: started in a world satisfying [I], the computation
    [m] ends in a world satisfying [I], and an error it throws satisfies
    [G]. *)
Definition ensures {A} (I : World → Prop) (G : JsError → Prop) (m : M A) : Prop :=
  ∀ w, I w → I (m w).2 ∧ ∀ e, (m w).1 = Throw e → G e.

(** The objects that existed when the call started are as they were. *)
Definition untouched (h0 : gmap nat JsObject) (w : World) : Prop :=
  dom h0 ⊆ dom (heap w) ∧ ∀ r, r ∈ dom h0 → heap w !! r = h0 !! r.


(** The object behind [params] carries the given token and timestamp. *)
Definition stamped (params : nat) (token timestamp : JsValue) (w : World) : Prop :=
  prop_get (default [] (heap w !! params)) "token" = token
  ∧ prop_get (default [] (heap w !! params)) "timestamp" = timestamp.

(** The events recorded so far start with [t]. *)
Definition trace_from (t : list Event) (w : World) : Prop :=
  ∃ rest, trace w = t ++ rest.

End Orchestrator.

(** ** Rate-limit status (every client version) *)

Module RateLimitStatus.

(** The object returned by [getRateLimitStatus()] in clients 1.0.0 and
    3.8.1, and its [client] part in 1.2.0 and 1.3.0, whose [server] part is
    a copy of [serverInfo.limits].  [resetsAt] is the instant, in
    milliseconds, that the code renders with [toISOString()]. *)
Record Status : Type := {
  enabled : bool;
  currentRequests : Z;
  maxRequests : Z;
  remaining : Z;
  resetsAt : Z;
  resetsIn : Z
}.

(** [getRateLimitStatus()], called when [Date.now()] is [now].  It reads
    the counter and the window start and writes nothing. *)
Definition getRateLimitStatus (cfg : RateLimiter.Config) (now : Z)
    (w : RateLimiter.Window) : Status :=
  let resetTime := RateLimiter.requestWindow w + RateLimiter.oneHour in
  {| enabled := RateLimiter.rateLimitEnabled cfg;
     currentRequests := RateLimiter.requestCount w;
     maxRequests := RateLimiter.maxRequests cfg;
     remaining :=
       Z.max 0 (RateLimiter.maxRequests cfg - RateLimiter.requestCount w);
     resetsAt := resetTime;
     resetsIn := Z.max 0 (resetTime - now) |}.

End RateLimitStatus.

(** ** Configuration *)

Module Configure.

(** The [options] argument of [configure].  A property that is absent is
    [None]; for the properties the code tests for truthiness, so is one
    that is [null] or [undefined].  Properties with no counterpart in
    [Orchestrator.Config] ([debug], [timeout]) are left out. *)
Record Options : Type := {
  scriptUrl : option string;
  apiToken : option string;
  hmacSecret : option string;
  origin : option string;             (* 1.3.0 *)
  enableCSRF : option bool;           (* 1.2.0, 1.3.0 *)
  enableNonce : option bool;          (* 1.2.0, 1.3.0 *)
  rateLimitEnabled : option bool;
  maxRequests : option Z;
  cacheTimeout : option Z;            (* 1.2.0, 1.3.0 *)
  enableCache : option bool;          (* 1.0.0 *)
  enforceHttps : option bool          (* 1.0.0 *)
}.

Inductive ConfigureError : Type :=
  | OptionsRequired             (* 'SecureSheets: Configuration options required' *)
  | ScriptUrlRequired           (* 'SecureSheets: scriptUrl is required' *)
  | ApiTokenRequired            (* 'SecureSheets: apiToken is required' *)
  | HmacSecretRequired          (* 'SecureSheets: hmacSecret is required' *)
  | HttpsRequired.              (* 'SecureSheets: scriptUrl must use HTTPS' *)

(** [options.enforceHttps !== false && !options.scriptUrl.startsWith('https://')] *)
Definition insecure (o : Options) : bool :=
  negb (bool_decide (enforceHttps o = Some false))
  && negb (String.prefix "https://" (default "" (scriptUrl o))).

(** [Object.assign(SecureSheets.config, options)] on the modelled
    properties: each property that [options] holds replaces the
    configured one. *)
Definition assign (o : Options) (cfg : Orchestrator.Config) : Orchestrator.Config :=
  {| Orchestrator.scriptUrl :=
       match scriptUrl o with Some s => Some s | None => Orchestrator.scriptUrl cfg end;
     Orchestrator.apiToken :=
       match apiToken o with Some s => Some s | None => Orchestrator.apiToken cfg end;
     Orchestrator.hmacSecret :=
       match hmacSecret o with Some s => Some s | None => Orchestrator.hmacSecret cfg end;
     Orchestrator.origin := Orchestrator.origin cfg;
     Orchestrator.enableCSRF := Orchestrator.enableCSRF cfg;
     Orchestrator.enableNonce := Orchestrator.enableNonce cfg;
     Orchestrator.limiter :=
       {| RateLimiter.rateLimitEnabled :=
            default (RateLimiter.rateLimitEnabled (Orchestrator.limiter cfg))
              (rateLimitEnabled o);
          RateLimiter.maxRequests :=
            default (RateLimiter.maxRequests (Orchestrator.limiter cfg))
              (maxRequests o) |};
     Orchestrator.enableCache := default (Orchestrator.enableCache cfg) (enableCache o);
     Orchestrator.cacheTimeout := Orchestrator.cacheTimeout cfg |}.

(** [SecureSheets.configure(options)] of client 1.0.0; [options] is
    [None] when the caller passes none.  A throw leaves the configuration
    as it was. *)
Definition configure_100 (options : option Options) (cfg : Orchestrator.Config)
  : ConfigureError + Orchestrator.Config :=
  match options with
  | None => inl OptionsRequired
  | Some o =>
      if Orchestrator.missing (scriptUrl o) then inl ScriptUrlRequired
      else if Orchestrator.missing (apiToken o) then inl ApiTokenRequired
      else if Orchestrator.missing (hmacSecret o) then inl HmacSecretRequired
      else if insecure o then inl HttpsRequired
      else inr (assign o cfg)
  end.

(** [if (options.f) config.f = options.f] on a string property. *)
Definition if_truthy (given : option string) (current : option string)
  : option string :=
  if Orchestrator.missing given then current else given.

(** [if (options.f) config.f = options.f] on a number. *)
Definition if_nonzero (given : option Z) (current : Z) : Z :=
  match given with
  | Some n => if n =? 0 then current else n
  | None => current
  end.

(** [SecureSheets.configure(options)] of client 1.3.0: no validation, and
    an option is stored only when it is truthy (strings, numbers) or a
    boolean. *)
Definition configure_130 (o : Options) (cfg : Orchestrator.Config)
  : Orchestrator.Config :=
  {| Orchestrator.scriptUrl := if_truthy (scriptUrl o) (Orchestrator.scriptUrl cfg);
     Orchestrator.apiToken := if_truthy (apiToken o) (Orchestrator.apiToken cfg);
     Orchestrator.hmacSecret := if_truthy (hmacSecret o) (Orchestrator.hmacSecret cfg);
     Orchestrator.origin :=
       match origin o with
       | Some s => if String.eqb s "" then Orchestrator.origin cfg else s
       | None => Orchestrator.origin cfg
       end;
     Orchestrator.enableCSRF := default (Orchestrator.enableCSRF cfg) (enableCSRF o);
     Orchestrator.enableNonce := default (Orchestrator.enableNonce cfg) (enableNonce o);
     Orchestrator.limiter :=
       {| RateLimiter.rateLimitEnabled :=
            default (RateLimiter.rateLimitEnabled (Orchestrator.limiter cfg))
              (rateLimitEnabled o);
          RateLimiter.maxRequests :=
            if_nonzero (maxRequests o)
              (RateLimiter.maxRequests (Orchestrator.limiter cfg)) |};
     Orchestrator.enableCache := Orchestrator.enableCache cfg;
     Orchestrator.cacheTimeout :=
       if_nonzero (cacheTimeout o) (Orchestrator.cacheTimeout cfg) |}.

(** [SecureSheets.configure(options)] of client 1.2.0 is the same function
    without the [origin] line. *)
Definition configure_120 (o : Options) (cfg : Orchestrator.Config)
  : Orchestrator.Config :=
  {| Orchestrator.scriptUrl := if_truthy (scriptUrl o) (Orchestrator.scriptUrl cfg);
     Orchestrator.apiToken := if_truthy (apiToken o) (Orchestrator.apiToken cfg);
     Orchestrator.hmacSecret := if_truthy (hmacSecret o) (Orchestrator.hmacSecret cfg);
     Orchestrator.origin := Orchestrator.origin cfg;
     Orchestrator.enableCSRF := default (Orchestrator.enableCSRF cfg) (enableCSRF o);
     Orchestrator.enableNonce := default (Orchestrator.enableNonce cfg) (enableNonce o);
     Orchestrator.limiter :=
       {| RateLimiter.rateLimitEnabled :=
            default (RateLimiter.rateLimitEnabled (Orchestrator.limiter cfg))
              (rateLimitEnabled o);
          RateLimiter.maxRequests :=
            if_nonzero (maxRequests o)
              (RateLimiter.maxRequests (Orchestrator.limiter cfg)) |};
     Orchestrator.enableCache := Orchestrator.enableCache cfg;
     Orchestrator.cacheTimeout :=
       if_nonzero (cacheTimeout o) (Orchestrator.cacheTimeout cfg) |}.

End Configure.

(** ** Decryption of server data (1.0.0 and 1.2.0) *)

Module Decrypt.

(** [String.fromCharCode(n)] on a one-byte code. *)
Definition fromCharCode (n : N) : ascii := ascii_of_N n.

(** [String.fromCharCode(decoded.charCodeAt(i) ^ key.charCodeAt(i % key.length))].
    With an empty key the index is [NaN] and so is the key's code, which
    [^] reads as 0. *)
Definition xorChar (decoded key : string) (i : nat) : ascii :=
  fromCharCode
    (N.lxor (Webhook.charCodeAt decoded i)
       (Webhook.charCodeAt key (i mod String.length key)%nat)).

(** [let decrypted = '';
     for (let i = 0; i < decoded.length; i++) decrypted += xorChar(i);] *)
Definition xorLoop (decoded key : string) : string :=
  fold_left
    (λ decrypted i, decrypted +:+ String (xorChar decoded key i) EmptyString)
    (seq 0 (String.length decoded)) EmptyString.

(** [SecureSheets.decryptData(encryptedData, key)].  [atob] and
    [JSON.parse] belong to the surroundings and return [None] when they
    throw; the [catch] turns either throw into the 'Decryption failed'
    error, which is the result [None]. *)
Definition decryptData {A} (atob : string → option string)
    (JSON_parse : string → option A) (encryptedData key : string) : option A :=
  match atob encryptedData with
  | None => None
  | Some decoded => JSON_parse (xorLoop decoded key)
  end.

End Decrypt.

(** ** Request methods built on [makeRequest] *)

Module Api.

Import Orchestrator.

(** [SecureSheets.getData(sheet, options)] of client 1.0.0; [encrypt] is
    [options.encrypt].  The object literal is a new object. *)
Definition getData_100 (env : Env) (cfg : Config) (now later : Z)
    (sheet : option string) (encrypt : bool) (options : Options) : M JsObject :=
  let* params := alloc [("action", JsString "getData")] in
  (if negb (missing sheet)
   then setProp params "sheet" (field_value sheet)
   else ret tt) ;;
  (if encrypt then setProp params "encrypt" (JsString "true") else ret tt) ;;
  makeRequest_100 env cfg now later (Some params) options.

(** The [sheet] argument of [getData] in 1.2.0 and 1.3.0: a name or an
    array of names. *)
Inductive Sheets : Type :=
  | OneSheet (name : string)
  | ManySheets (names : list string).

(** [if (sheet) { if (Array.isArray(sheet)) params.sheets = sheet.join(',');
                  else params.sheet = sheet; }]: an array is truthy even
    when empty, a name when it is not the empty string. *)
Definition setSheets (params : nat) (sheet : option Sheets) : M unit :=
  match sheet with
  | Some (ManySheets names) => setProp params "sheets" (JsString (join "," names))
  | Some (OneSheet name) =>
      if String.eqb name "" then ret tt
      else setProp params "sheet" (JsString name)
  | None => ret tt
  end.

(** [SecureSheets.getData(sheet = null, options = {})] of client 1.3.0. *)
Definition getData_130 (env : Env) (cfg : Config) (now later : Z)
    (sheet : option Sheets) (options : Options) : M JsObject :=
  let* params := alloc [("action", JsString "getData")] in
  setSheets params sheet ;;
  makeRequest_130 env cfg now later params options.

(** [SecureSheets.makePostRequest(body = {}, options = {})] of client
    1.3.0.  Its first statements are those of [makeRequest], applied to
    [body]; what is sent is [JSON.stringify(body)]. *)
Definition makePostRequest_130 (env : Env) (cfg : Config) (now : Z)
    (rnd : Entropy) (body : nat) : M JsObject :=
  checkRateLimit cfg now ;;
  addAuth_130 env cfg now body ;;
  (if enableCSRF cfg
   then
     let* csrfToken := getCSRFToken cfg now rnd in
     setProp body "csrf-token"
       match csrfToken with Some t => JsString t | None => JsNull end
   else ret tt) ;;
  let* b := readObj body in
  let* signature :=
    lift (Signer.generateSignature (CryptoJS env) (default "" (hmacSecret cfg)) b) in
  setProp body "signature" (JsString signature) ;;
  let* b := readObj body in
  let* response :=
    doFetch env {| method := "POST"; url := scriptUrl cfg;
                   headers := [("Content-Type", JsString "application/json")];
                   payload := JSON_members b |} in
  match response with
  | Aborted => throw AbortError
  | Unreachable => throw NetworkError
  | Http false status json _ => handleErrorResponse status json
  | Http true _ None _ => throw InvalidJson
  | Http true _ (Some data) _ => ret data
  end.

(** *** What a receiver checks

    The signature functions take the "request parameters (without
    signature)"; a receiver of a request recomputes the digest from the
    parameters it received, the signature left aside. *)
Definition unsigned (payload : JsObject) : JsObject :=
  List.filter (λ kv, negb (String.eqb kv.1 "signature")) payload.

Definition verifies (canonical : JsObject → string)
    (HmacSHA256 : string → string → string) (secret : string)
    (payload : JsObject) : Prop :=
  prop_get payload "signature"
  = JsString (HmacSHA256 (canonical (unsigned payload)) secret).

(** The message of [generateAuthHeaders] (1.2.0), rebuilt from the headers
    of a request: [token + ':' + timestamp + ':' + action], followed by
    [':' + nonce] when there is an [X-Nonce] header. *)
Definition signedMessage (action : string) (headers : JsObject) : string :=
  ToString (prop_get headers "X-API-Token") +:+ ":"
  +:+ ToString (prop_get headers "X-Timestamp") +:+ ":" +:+ action
  +:+ match prop_get headers "X-Nonce" with
      | JsUndefined => ""
      | nonce => ":" +:+ ToString nonce
      end.




End Api.

(** ** The 3.8.1 client ([SecureSheetsClient])

    Its request functions copy their argument before they write to it
    ([{ ...params }]), so the argument is passed by value here.  The only
    state is the rate limiter's; a call sends at most one request. *)

Module Client381.

(** [CryptoJS]: the two functions the client calls, rendered in hex. *)
Record Crypto : Type := {
  HmacSHA256 : string → string → string;
  SHA256 : string → string
}.

Record Config : Type := {
  scriptUrl : option string;
  apiToken : option string;
  hmacSecret : option string;
  limiter : RateLimiter.Config;
  checksumValidation : bool;
  autoOrigin : bool;
  csrfProtection : bool
}.

(** [fetch(url, fetchOptions)]: the URL is the configured one with the
    query parameters appended. *)
Record Request : Type := {
  method : string;
  url : option string;
  query : JsObject;
  headers : JsObject;
  body : option JsObject              (* [JSON.stringify(requestData)] *)
}.

Record Env : Type := {
  CryptoJS : option Crypto;
  JSON_stringify : JsValue → string;
  location_origin : string;           (* [window.location.origin] *)
  location_protocol : string;
  location_host : string;
  location_href : string;
  toISOString : Z → string;
  fetch : Request → Orchestrator.Response
}.

Inductive Error : Type :=
  | Js (e : JsError)
  | TypeRequired                (* '"type" parameter is required for public endpoints' *)
  | ActionRequired              (* '"action" parameter is required' *)
  | ApiError (error code : JsValue)   (* `${data.error} (Code: ${data.code || 'UNKNOWN'})` *)
  | ChecksumMismatch            (* 'Data integrity check failed (checksum mismatch)' *)
  | RequestFailed (message : JsValue).  (* data.message || data.error || '... failed' *)

(** The outcome of a call, the rate limiter's window after it, and the
    request it sent, if any. *)
Definition Run : Type := (Error + JsObject) * RateLimiter.Window * option Request.

(** [SecureSheetsClient.getOrigin()] *)
Definition getOrigin (env : Env) : string :=
  if String.eqb (location_origin env) ""
  then location_protocol env +:+ "//" +:+ location_host env
  else location_origin env.

(** [catch (error) { if (error.name === 'AbortError') throw new
    Error('...Request timeout'); throw error; }] *)
Definition rethrow (run : Run) : Run :=
  match run with
  | (inl (Js AbortError), w, sent) => (inl (Js RequestTimeout), w, sent)
  | _ => run
  end.

(** [data.status === 'success'] *)
Definition is_success (data : JsObject) : bool :=
  match prop_get data "status" with
  | JsString s => String.eqb s "success"
  | _ => false
  end.

(** [SecureSheetsClient.validateChecksum(data)]; without CryptoJS the
    [try] block throws and the [catch] returns [false]. *)
Definition validateChecksum (env : Env) (data : JsObject) : bool :=
  if negb (ToBoolean (prop_get data "checksum"))
     || negb (ToBoolean (prop_get data "data"))
  then false
  else
    match CryptoJS env with
    | None => false
    | Some crypto =>
        let jsonString := JSON_stringify env (prop_get data "data") in
        let hash := SHA256 crypto jsonString in
        match prop_get data "checksum" with
        | JsString checksum => String.eqb hash checksum
        | _ => false
        end
    end.

(** What the three request functions do with the response. *)
Definition received (env : Env) (req : Request)
    (parsed : JsObject → Error + JsObject) : Error + JsObject :=
  match fetch env req with
  | Orchestrator.Aborted => inl (Js AbortError)
  | Orchestrator.Unreachable => inl (Js NetworkError)
  | Orchestrator.Http false status _ _ => inl (Js (HttpError status))
  | Orchestrator.Http true _ None _ => inl (Js InvalidJson)
  | Orchestrator.Http true _ (Some data) _ => parsed data
  end.

(** [SecureSheetsClient.makePublicRequest(params, options)], called when
    the clock reads [now]; [params] is [None] when the caller passes no
    object. *)
Definition makePublicRequest (env : Env) (cfg : Config) (now : Z)
    (params : option JsObject) (w : RateLimiter.Window) : Run :=
  if Orchestrator.missing (scriptUrl cfg) then (inl (Js NotConfigured), w, None)
  else
    match params with
    | None => (inl (Js ParametersMustBeObject), w, None)
    | Some params =>
        if negb (ToBoolean (prop_get params "type")) then (inl TypeRequired, w, None)
        else
          rethrow
            match RateLimiter.checkRateLimit (limiter cfg) now w with
            | (Throw e, w1) => (inl (Js e), w1, None)
            | (Return _, w1) =>
                let requestParams := spread params in
                let requestParams :=
                  if autoOrigin cfg
                  then prop_set
                         (prop_set requestParams "origin" (JsString (getOrigin env)))
                         "referrer" (JsString (location_href env))
                  else requestParams in
                let req :=
                  {| method := "GET"; url := scriptUrl cfg; query := requestParams;
                     headers := [("Accept", JsString "application/json")];
                     body := None |} in
                (received env req
                   (λ data,
                      if ToBoolean (prop_get data "error")
                      then inl (ApiError (prop_get data "error")
                                  (or_else (prop_get data "code")
                                     (JsString "UNKNOWN")))
                      else inr data),
                 w1, Some req)
            end
    end.

(** [SecureSheetsClient.makeProtectedRequest(params, options)] *)
Definition makeProtectedRequest (env : Env) (cfg : Config) (now : Z)
    (params : option JsObject) (w : RateLimiter.Window) : Run :=
  if Orchestrator.missing (scriptUrl cfg) || Orchestrator.missing (apiToken cfg)
     || Orchestrator.missing (hmacSecret cfg)
  then (inl (Js NotConfigured), w, None)
  else
    match params with
    | None => (inl (Js ParametersMustBeObject), w, None)
    | Some params =>
        if negb (ToBoolean (prop_get params "action"))
        then (inl ActionRequired, w, None)
        else
          rethrow
            match RateLimiter.checkRateLimit (limiter cfg) now w with
            | (Throw e, w1) => (inl (Js e), w1, None)
            | (Return _, w1) =>
                let requestParams := spread params in
                let requestParams :=
                  prop_set requestParams "token"
                    (Orchestrator.field_value (apiToken cfg)) in
                let requestParams :=
                  prop_set requestParams "timestamp" (JsString (toISOString env now)) in
                let requestParams :=
                  prop_set requestParams "origin" (JsString (getOrigin env)) in
                let requestParams :=
                  prop_set requestParams "referrer" (JsString (location_href env)) in
                match Signer.createSignature_381 (HmacSHA256 <$> CryptoJS env)
                        (Some requestParams) (default "" (hmacSecret cfg)) with
                | Throw e => (inl (Js e), w1, None)
                | Return signature =>
                    let requestParams :=
                      prop_set requestParams "signature" (JsString signature) in
                    let req :=
                      {| method := "GET"; url := scriptUrl cfg;
                         query := requestParams;
                         headers := [("Accept", JsString "application/json")];
                         body := None |} in
                    (received env req
                       (λ data,
                          if is_success data
                          then
                            if checksumValidation cfg
                               && ToBoolean (prop_get data "checksum")
                            then
                              if validateChecksum env data then inr data
                              else inl ChecksumMismatch
                            else inr data
                          else
                            inl (RequestFailed
                                   (or_else
                                      (or_else (prop_get data "message")
                                         (prop_get data "error"))
                                      (JsString "SecureSheetsClient: Request failed")))),
                     w1, Some req)
                end
            end
    end.

(** [SecureSheetsClient.makePostRequest(data, options)]; [{ ...data }] of
    a missing [data] is the empty object, and what is sent is
    [JSON.stringify(requestData)]. *)
Definition makePostRequest (env : Env) (cfg : Config) (now : Z)
    (data : option JsObject) (w : RateLimiter.Window) : Run :=
  if Orchestrator.missing (scriptUrl cfg) || Orchestrator.missing (apiToken cfg)
     || Orchestrator.missing (hmacSecret cfg)
  then (inl (Js NotConfigured), w, None)
  else
    rethrow
      match RateLimiter.checkRateLimit (limiter cfg) now w with
      | (Throw e, w1) => (inl (Js e), w1, None)
      | (Return _, w1) =>
          let requestData :=
            prop_set
              (prop_set (spread (default [] data)) "token"
                 (Orchestrator.field_value (apiToken cfg)))
              "timestamp" (JsString (toISOString env now)) in
          let headers :=
            [("Content-Type", JsString "application/json");
             ("Accept", JsString "application/json")] in
          let withToken :=
            if csrfProtection cfg
            then
              match Csrf.generateCSRFToken_381 (HmacSHA256 <$> CryptoJS env) now
                      (getOrigin env) (default "" (hmacSecret cfg)) with
              | Return csrfToken =>
                  Return (prop_set headers "X-CSRF-Token" (JsString csrfToken))
              | Throw e => Throw e
              end
            else Return headers in
          match withToken with
          | Throw e => (inl (Js e), w1, None)
          | Return headers =>
              let req :=
                {| method := "POST"; url := scriptUrl cfg;
                   query := [("origin", JsString (getOrigin env))];
                   headers := headers;
                   body := Some (JSON_members requestData) |} in
              (received env req
                 (λ responseData,
                    if is_success responseData then inr responseData
                    else
                      inl (RequestFailed
                             (or_else
                                (or_else (prop_get responseData "message")
                                   (prop_get responseData "error"))
                                (JsString "POST request failed")))),
               w1, Some req)
          end
      end.

End Client381.

(** ** Runs of the rate limiter *)

Module Admission.

(** Whether a call of [checkRateLimit] returned [true] rather than threw. *)
Definition admitted (r : outcome bool) : bool :=
  match r with
  | Return true => true
  | _ => false
  end.

(** How many calls of a run were admitted. *)
Definition admittedCount (cfg : RateLimiter.Config) (times : list Z)
    (w : RateLimiter.Window) : Z :=
  Z.of_nat (length (filter (λ r, admitted r = true) (RateLimiter.calls cfg times w).1)).

End Admission.

(** ** Sample surroundings used by the concrete examples *)

Module Sample.

(** A stand-in keyed digest: any function of the message and the key
    will do where an example has to run. *)
Definition hmac : option (string → string → string) :=
  Some (λ message secret, "hmac(" +:+ secret +:+ "," +:+ message +:+ ")").

Definition stringify (o : JsObject) : string :=
  join "," ((λ kv, kv.1 +:+ ":" +:+ ToString kv.2) <$> o).

Definition env : Orchestrator.Env :=
  {| Orchestrator.CryptoJS := hmac;
     Orchestrator.JSON_stringify := stringify;
     Orchestrator.location_origin := "https://shop.example";
     Orchestrator.toISOString := λ t, "T" +:+ pretty t;
     Orchestrator.fetch := λ _,
       Orchestrator.Http true 200 (Some [("success", JsBool true)]) None |}.

Definition limiter : RateLimiter.Config :=
  {| RateLimiter.rateLimitEnabled := true; RateLimiter.maxRequests := 100 |}.

Definition configured : Orchestrator.Config :=
  {| Orchestrator.scriptUrl := Some "https://script.example/exec";
     Orchestrator.apiToken := Some "token";
     Orchestrator.hmacSecret := Some "secret";
     Orchestrator.origin := "";
     Orchestrator.enableCSRF := true;
     Orchestrator.enableNonce := true;
     Orchestrator.limiter := limiter;
     Orchestrator.enableCache := true;
     Orchestrator.cacheTimeout := 300000 |}.

(** The configuration a 1.2.0 / 1.3.0 client starts with. *)
Definition unconfigured : Orchestrator.Config :=
  {| Orchestrator.scriptUrl := Some "";
     Orchestrator.apiToken := Some "";
     Orchestrator.hmacSecret := Some "";
     Orchestrator.origin := "";
     Orchestrator.enableCSRF := true;
     Orchestrator.enableNonce := true;
     Orchestrator.limiter := limiter;
     Orchestrator.enableCache := true;
     Orchestrator.cacheTimeout := 300000 |}.

Definition options : Orchestrator.Options :=
  {| Orchestrator.useCache := true; Orchestrator.cacheTTL := None |}.

Definition entropy : Orchestrator.Entropy :=
  {| Orchestrator.nonceCandidates := λ i, "n" +:+ pretty i;
     Orchestrator.csrfSuffix := "abcdefghijklmnop" |}.

(** A world whose heap holds the caller's object [{ action: 'getData' }]
    at reference 0. *)
Definition world : Orchestrator.World :=
  {| Orchestrator.heap := {[ 0%nat := [("action", JsString "getData")] ]};
     Orchestrator.window :=
       {| RateLimiter.requestCount := 0; RateLimiter.requestWindow := 0 |};
     Orchestrator.cache := ∅;
     Orchestrator.csrf := {| Csrf.csrfToken := None; Csrf.csrfExpiry := None |};
     Orchestrator.usedNonces := [];
     Orchestrator.trace := [];
     Orchestrator.serverInfo := None |}.

(** A server that reports the quota it has left with every response. *)
Definition metered : Orchestrator.Env :=
  {| Orchestrator.CryptoJS := hmac;
     Orchestrator.JSON_stringify := stringify;
     Orchestrator.location_origin := "https://shop.example";
     Orchestrator.toISOString := λ t, "T" +:+ pretty t;
     Orchestrator.fetch := λ _,
       Orchestrator.Http true 200 (Some [("success", JsBool true)])
         (Some (JsNumber 99)) |}.


End Sample.

(** ** Configuration of the 3.8.1 client *)

Module Configure381.

(** The [options] argument of [SecureSheetsClient.configure]; an absent
    property is [None].  [debug] is left out. *)
Record Options : Type := {
  scriptUrl : option string;
  apiToken : option string;
  hmacSecret : option string;
  rateLimitEnabled : option bool;
  maxRequests : option Z;
  checksumValidation : option bool;
  enforceHttps : option bool;
  autoOrigin : option bool;
  csrfProtection : option bool
}.

(** [options.enforceHttps !== false && !options.scriptUrl.startsWith('https://')] *)
Definition insecure (o : Options) : bool :=
  negb (bool_decide (enforceHttps o = Some false))
  && negb (String.prefix "https://" (default "" (scriptUrl o))).

(** [Object.assign(SecureSheetsClient.config, options)] *)
Definition assign (o : Options) (cfg : Client381.Config) : Client381.Config :=
  {| Client381.scriptUrl :=
       match scriptUrl o with Some s => Some s | None => Client381.scriptUrl cfg end;
     Client381.apiToken :=
       match apiToken o with Some s => Some s | None => Client381.apiToken cfg end;
     Client381.hmacSecret :=
       match hmacSecret o with Some s => Some s | None => Client381.hmacSecret cfg end;
     Client381.limiter :=
       {| RateLimiter.rateLimitEnabled :=
            default (RateLimiter.rateLimitEnabled (Client381.limiter cfg))
              (rateLimitEnabled o);
          RateLimiter.maxRequests :=
            default (RateLimiter.maxRequests (Client381.limiter cfg))
              (maxRequests o) |};
     Client381.checksumValidation :=
       default (Client381.checksumValidation cfg) (checksumValidation o);
     Client381.autoOrigin := default (Client381.autoOrigin cfg) (autoOrigin o);
     Client381.csrfProtection :=
       default (Client381.csrfProtection cfg) (csrfProtection o) |}.

(** [SecureSheetsClient.configure(options)]: only the URL is required;
    the token and the secret are checked by the protected requests. *)
Definition configure (options : option Options) (cfg : Client381.Config)
  : Configure.ConfigureError + Client381.Config :=
  match options with
  | None => inl Configure.OptionsRequired
  | Some o =>
      if Orchestrator.missing (scriptUrl o) then inl Configure.ScriptUrlRequired
      else if insecure o then inl Configure.HttpsRequired
      else inr (assign o cfg)
  end.

(** The configuration the 3.8.1 client starts with. *)
Definition initial : Client381.Config :=
  {| Client381.scriptUrl := None;
     Client381.apiToken := None;
     Client381.hmacSecret := None;
     Client381.limiter :=
       {| RateLimiter.rateLimitEnabled := true; RateLimiter.maxRequests := 100 |};
     Client381.checksumValidation := true;
     Client381.autoOrigin := true;
     Client381.csrfProtection := true |}.

End Configure381.

(** Sample surroundings for the 3.8.1 client. *)

Module Sample381.

Definition crypto : Client381.Crypto :=
  {| Client381.HmacSHA256 :=
       λ message secret, "hmac(" +:+ secret +:+ "," +:+ message +:+ ")";
     Client381.SHA256 := λ message, "sha256(" +:+ message +:+ ")" |}.

Definition response : JsObject :=
  [("status", JsString "success"); ("data", JsString "rows");
   ("checksum", JsString "sha256(rows)")].

Definition env : Client381.Env :=
  {| Client381.CryptoJS := Some crypto;
     Client381.JSON_stringify := ToString;
     Client381.location_origin := "https://shop.example";
     Client381.location_protocol := "https:";
     Client381.location_host := "shop.example";
     Client381.location_href := "https://shop.example/cart";
     Client381.toISOString := λ t, "T" +:+ pretty t;
     Client381.fetch := λ _, Orchestrator.Http true 200 (Some response) None |}.

Definition configured : Client381.Config :=
  {| Client381.scriptUrl := Some "https://script.example/exec";
     Client381.apiToken := Some "token";
     Client381.hmacSecret := Some "secret";
     Client381.limiter := Sample.limiter;
     Client381.checksumValidation := true;
     Client381.autoOrigin := true;
     Client381.csrfProtection := true |}.

Definition window : RateLimiter.Window :=
  {| RateLimiter.requestCount := 0; RateLimiter.requestWindow := 0 |}.

End Sample381.

(** * Properties *)

(** ** Signer *)

Section SignerFacts.

Lemma ascii_compare_N (a b : ascii) :
  Ascii.compare a b = N.compare (N_of_ascii a) (N_of_ascii b).
Proof. reflexivity. Qed.

Lemma string_compare_le_trans (s1 : string) : ∀ s2 s3,
  String.compare s1 s2 ≠ Gt → String.compare s2 s3 ≠ Gt →
  String.compare s1 s3 ≠ Gt.
Proof.
  induction s1 as [|a s1 IH]; intros [|b s2] [|c s3]; simpl; try congruence.
  rewrite !ascii_compare_N.
  destruct (N.compare_spec (N_of_ascii a) (N_of_ascii b)) as [Hab|Hab|Hab];
  destruct (N.compare_spec (N_of_ascii b) (N_of_ascii c)) as [Hbc|Hbc|Hbc];
  destruct (N.compare_spec (N_of_ascii a) (N_of_ascii c)) as [Hac|Hac|Hac];
    try congruence; try lia; eauto.
Qed.

Lemma str_le_trans : Transitive str_le.
Proof.
  intros s1 s2 s3. unfold str_le, String.leb. intros H1 H2.
  pose proof (string_compare_le_trans s1 s2 s3) as H.
  destruct (String.compare s1 s2), (String.compare s2 s3),
    (String.compare s1 s3); try done; exfalso; by apply H.
Qed.

Lemma str_le_antisym : AntiSymm (=) str_le.
Proof. intros s1 s2. apply String.leb_antisym. Qed.

Lemma str_le_total : Total str_le.
Proof. intros s1 s2. apply String.leb_total. Qed.

#[local] Existing Instances str_le_trans str_le_antisym str_le_total.

Lemma sort_sorted (l : list string) : Sorted str_le (sort l).
Proof. apply Sorted_merge_sort; apply _. Qed.

Lemma sort_perm (l : list string) : sort l ≡ₚ l.
Proof. apply merge_sort_Permutation. Qed.

(** Whatever algorithm the engine's [sort] runs, a sorted rearrangement
    of the keys is the list [sort] computes. *)
Lemma sort_unique (l l' : list string) :
  Sorted str_le l' → l' ≡ₚ l → l' = sort l.
Proof.
  intros Hs Hp. apply (Sorted_unique str_le); [done | apply sort_sorted |].
  by rewrite Hp, sort_perm.
Qed.

Lemma sort_Permutation_eq (l l' : list string) : l ≡ₚ l' → sort l = sort l'.
Proof.
  intros Hp. apply sort_unique; [apply sort_sorted | by rewrite sort_perm].
Qed.

Lemma prop_get_elem (o : JsObject) k v :
  wf_object o → (k, v) ∈ o → prop_get o k = v.
Proof.
  unfold wf_object, Object_keys.
  induction o as [|[k' v'] o IH]; simpl; intros Hnd Hin.
  - by apply elem_of_nil in Hin.
  - apply NoDup_cons in Hnd as [Hni Hnd].
    apply elem_of_cons in Hin as [Heq|Hin].
    + simplify_eq. by rewrite decide_True.
    + destruct (decide (k' = k)) as [->|Hne]; [|by apply IH].
      exfalso. apply Hni. apply list_elem_of_fmap. by exists (k, v).
Qed.

Lemma prop_get_absent (o : JsObject) k :
  k ∉ Object_keys o → prop_get o k = JsUndefined.
Proof.
  unfold Object_keys. induction o as [|[k' v'] o IH]; simpl; intros Hni; [done|].
  apply not_elem_of_cons in Hni as [Hne Hni].
  rewrite decide_False by done. by apply IH.
Qed.

Lemma prop_get_Permutation (o o' : JsObject) k :
  wf_object o → o ≡ₚ o' → prop_get o k = prop_get o' k.
Proof.
  intros Hwf Hp.
  assert (wf_object o') as Hwf'.
  { unfold wf_object, Object_keys in *. by rewrite <- Hp. }
  destruct (decide (k ∈ Object_keys o)) as [Hin|Hni].
  - unfold Object_keys in Hin.
    apply list_elem_of_fmap in Hin as [[k' v] [-> Hin]]. simpl.
    rewrite (prop_get_elem o k' v Hwf Hin). symmetry.
    apply prop_get_elem; [done|]. by rewrite <- Hp.
  - rewrite (prop_get_absent o k Hni). symmetry. apply prop_get_absent.
    unfold Object_keys in *. by rewrite <- Hp.
Qed.

Lemma signatureString_Permutation (p p' : JsObject) :
  wf_object p → p ≡ₚ p' → Signer.signatureString p = Signer.signatureString p'.
Proof.
  intros Hwf Hp. unfold Signer.signatureString, Signer.entries. f_equal.
  rewrite (sort_Permutation_eq (Object_keys p) (Object_keys p'))
    by (unfold Object_keys; by rewrite Hp).
  apply list_fmap_ext. intros _ k _. unfold Signer.entry_template.
  by rewrite (prop_get_Permutation p p' k).
Qed.

Lemma signatureString_130_Permutation (p p' : JsObject) :
  wf_object p → p ≡ₚ p' →
  Signer.signatureString_130 p = Signer.signatureString_130 p'.
Proof.
  intros Hwf Hp. unfold Signer.signatureString_130, Signer.entries_130. f_equal.
  rewrite (sort_Permutation_eq (Object_keys p) (Object_keys p'))
    by (unfold Object_keys; by rewrite Hp).
  apply list_fmap_ext. intros _ k _. unfold Signer.entry_or_empty.
  by rewrite (prop_get_Permutation p p' k).
Qed.

(** C1.  The signature does not depend on the order in which the keys
    were inserted: for every parameter object [p] (each key held once),
    every rearrangement [p'] of its properties, every secret and every
    keyed-hash implementation, [createSignature] (1.0.0 and 3.8.1) and
    [generateSignature] (1.3.0) return the same outcome on [p] and [p']. *)
Theorem signature_insertion_order_independent
    (CryptoJS : option (string → string → string))
    (p p' : JsObject) (secret : string) :
  wf_object p → p ≡ₚ p' →
  Signer.createSignature CryptoJS p secret
    = Signer.createSignature CryptoJS p' secret
  ∧ Signer.createSignature_381 CryptoJS (Some p) secret
    = Signer.createSignature_381 CryptoJS (Some p') secret
  ∧ Signer.generateSignature CryptoJS secret p
    = Signer.generateSignature CryptoJS secret p'.
Proof.
  intros Hwf Hp.
  unfold Signer.createSignature, Signer.createSignature_381,
    Signer.generateSignature.
  rewrite (signatureString_Permutation p p' Hwf Hp).
  by rewrite (signatureString_130_Permutation p p' Hwf Hp).
Qed.

Lemma signature_insertion_order_independent_witness :
  wf_object [("token", JsString "t"); ("action", JsString "getData");
             ("timestamp", JsNumber 1700000000000)]
  ∧ Signer.createSignature Sample.hmac
      [("token", JsString "t"); ("action", JsString "getData");
       ("timestamp", JsNumber 1700000000000)] "secret"
    = Signer.createSignature Sample.hmac
      [("timestamp", JsNumber 1700000000000); ("token", JsString "t");
       ("action", JsString "getData")] "secret".
Proof.
  assert (wf_object [("token", JsString "t"); ("action", JsString "getData");
                     ("timestamp", JsNumber 1700000000000)]) as Hwf.
  { apply (bool_decide_unpack _). vm_compute. exact I. }
  split; [exact Hwf|].
  refine (proj1 (signature_insertion_order_independent Sample.hmac _ _ "secret"
                   Hwf _)).
  (* rotate the three properties *)
  apply (Permutation_app_comm [_; _] [_]).
Defined.

Lemma elem_of_sorted_keys (p : JsObject) k v :
  (k, v) ∈ p → k ∈ sort (Object_keys p).
Proof.
  intros Hin. rewrite sort_perm. unfold Object_keys.
  apply list_elem_of_fmap. by exists (k, v).
Qed.

(** C9, as the code has it.  For every parameter object [p] (each key
    held once) and every property [k: v] of [p]:
    - the canonical string of [createSignature] (1.0.0 and 3.8.1) is the
      ['&']-join of one entry per key, and the entry of [k] is [k=] followed
      by the string form of [v], whatever [v] is; in particular [null]
      gives [k=null] and [undefined] gives [k=undefined];
    - the canonical string of [generateSignature] (1.3.0) is the
      ['&']-join of one entry per key; the entry of [k] is [k=] followed
      by the string form of [v] when [v] is truthy, and is [k=] alone when
      [v] is [null] or [undefined]. *)
Theorem canonical_string_value_rendering (p : JsObject) (k : string) (v : JsValue) :
  wf_object p → (k, v) ∈ p →
  (Signer.signatureString p = join "&" (Signer.entries p)
   ∧ length (Signer.entries p) = length p
   ∧ k +:+ "=" +:+ ToString v ∈ Signer.entries p
   ∧ (v = JsNull → k +:+ "=null" ∈ Signer.entries p)
   ∧ (v = JsUndefined → k +:+ "=undefined" ∈ Signer.entries p))
  ∧ (Signer.signatureString_130 p = join "&" (Signer.entries_130 p)
     ∧ length (Signer.entries_130 p) = length p
     ∧ (ToBoolean v = true → k +:+ "=" +:+ ToString v ∈ Signer.entries_130 p)
     ∧ (v = JsNull ∨ v = JsUndefined → k +:+ "=" ∈ Signer.entries_130 p)).
Proof.
  intros Hwf Hin.
  assert (length (sort (Object_keys p)) = length p) as Hlen.
  { rewrite sort_perm. unfold Object_keys. by rewrite length_fmap. }
  assert (k +:+ "=" +:+ ToString v ∈ Signer.entries p) as Hentry.
  { unfold Signer.entries. apply list_elem_of_fmap. exists k.
    split; [|by eapply elem_of_sorted_keys].
    unfold Signer.entry_template. by rewrite (prop_get_elem p k v). }
  assert (k +:+ "=" +:+ ToString (or_else v (JsString "")) ∈ Signer.entries_130 p)
    as Hentry130.
  { unfold Signer.entries_130. apply list_elem_of_fmap. exists k.
    split; [|by eapply elem_of_sorted_keys].
    unfold Signer.entry_or_empty. by rewrite (prop_get_elem p k v). }
  split.
  - split; [done|]. split; [unfold Signer.entries; by rewrite length_fmap|].
    split; [done|]. split; intros ->; exact Hentry.
  - split; [done|]. split; [unfold Signer.entries_130; by rewrite length_fmap|].
    split.
    + intros Ht. unfold or_else in Hentry130. by rewrite Ht in Hentry130.
    + intros [-> | ->]; exact Hentry130.
Qed.

Lemma canonical_string_value_rendering_witness :
  wf_object [("sheet", JsNull); ("action", JsString "getData")]
  ∧ "sheet=null" ∈ Signer.entries [("sheet", JsNull); ("action", JsString "getData")]
  ∧ "sheet=" ∈ Signer.entries_130 [("sheet", JsNull); ("action", JsString "getData")].
Proof.
  assert (wf_object [("sheet", JsNull); ("action", JsString "getData")]) as Hwf.
  { apply (bool_decide_unpack _). vm_compute. exact I. }
  assert (("sheet", JsNull) ∈ [("sheet", JsNull); ("action", JsString "getData")])
    as Hin by apply list_elem_of_here.
  pose proof (canonical_string_value_rendering _ "sheet" JsNull Hwf Hin)
    as [(_ & _ & _ & Hnull & _) (_ & _ & _ & Hempty)].
  split; [exact Hwf|]. split; [exact (Hnull eq_refl) | exact (Hempty (or_introl eq_refl))].
Defined.

(** C9 fails as stated.  [createSignature] renders a [null] value as
    ["null"], not as the empty string: [{ a: null }] signs ["a=null"].
    [generateSignature] does not render every value in its string form:
    [{ n: 0 }] signs ["n="], not ["n=0"]. *)
Lemma canonical_string_null_and_zero :
  Signer.signatureString [("a", JsNull)] = "a=null"
  ∧ Signer.signatureString [("a", JsNull)] ≠ "a="
  ∧ Signer.signatureString_130 [("n", JsNumber 0)] = "n="
  ∧ Signer.signatureString_130 [("n", JsNumber 0)]
    ≠ "n=" +:+ ToString (JsNumber 0).
Proof. vm_compute. by repeat split. Qed.

End SignerFacts.

(** ** Rate limiter *)

Section RateLimiterFacts.

Import RateLimiter.

(** Inside the window and under the quota a call is admitted and counted. *)
Lemma checkRateLimit_admits cfg now w :
  rateLimitEnabled cfg = true →
  now - requestWindow w ≤ oneHour →
  requestCount w < maxRequests cfg →
  checkRateLimit cfg now w
  = (Return true,
     {| requestCount := requestCount w + 1; requestWindow := requestWindow w |}).
Proof.
  intros Hen Hwin Hq. unfold checkRateLimit. rewrite Hen. simpl.
  destruct (now - requestWindow w >? oneHour) eqn:Hgt; [lia|].
  destruct (requestCount w >=? maxRequests cfg) eqn:Hge; [lia|done].
Qed.

(** Inside the window and at the quota a call is refused and changes
    nothing. *)
Lemma checkRateLimit_refuses cfg now w :
  rateLimitEnabled cfg = true →
  now - requestWindow w ≤ oneHour →
  maxRequests cfg ≤ requestCount w →
  checkRateLimit cfg now w
  = (Throw (RateLimitExceeded (requestWindow w + oneHour)), w).
Proof.
  intros Hen Hwin Hq. unfold checkRateLimit. rewrite Hen. simpl.
  destruct (now - requestWindow w >? oneHour) eqn:Hgt; [lia|].
  destruct (requestCount w >=? maxRequests cfg) eqn:Hge; [done|lia].
Qed.

(** Past the window the counter restarts before the quota is tested. *)
Lemma checkRateLimit_new_window cfg now w :
  rateLimitEnabled cfg = true →
  now - requestWindow w > oneHour →
  checkRateLimit cfg now w
  = if 0 >=? maxRequests cfg
    then (Throw (RateLimitExceeded (now + oneHour)),
          {| requestCount := 0; requestWindow := now |})
    else (Return true, {| requestCount := 1; requestWindow := now |}).
Proof.
  intros Hen Hwin. unfold checkRateLimit. rewrite Hen. simpl.
  destruct (now - requestWindow w >? oneHour) eqn:Hgt; [|lia]. simpl.
  by destruct (0 >=? maxRequests cfg).
Qed.

Lemma calls_within_window cfg windowStart (times : list Z) : ∀ count,
  rateLimitEnabled cfg = true →
  Forall (λ t, t - windowStart ≤ oneHour) times →
  count + Z.of_nat (length times) ≤ maxRequests cfg →
  calls cfg times {| requestCount := count; requestWindow := windowStart |}
  = (replicate (length times) (Return true),
     {| requestCount := count + Z.of_nat (length times);
        requestWindow := windowStart |}).
Proof.
  induction times as [|t times IH]; intros count Hen Hall Hq.
  - simpl. by rewrite Z.add_0_r.
  - apply Forall_cons in Hall as [Ht Hall]. cbn [calls].
    cbn [length] in Hq. rewrite Nat2Z.inj_succ in Hq.
    rewrite checkRateLimit_admits; cbn [requestCount requestWindow];
      [|done|done|lia].
    rewrite IH; [|done|done|lia].
    cbn [length replicate]. rewrite Nat2Z.inj_succ.
    replace (count + 1 + Z.of_nat (length times))
      with (count + Z.succ (Z.of_nat (length times))) by lia.
    reflexivity.
Qed.

(** The count stays within [0, maxRequests] after an admitted call. *)
Lemma checkRateLimit_count_bounds cfg now w w' :
  rateLimitEnabled cfg = true → 0 ≤ requestCount w →
  checkRateLimit cfg now w = (Return true, w') →
  0 ≤ requestCount w' ≤ maxRequests cfg.
Proof.
  intros Hen Hc. unfold checkRateLimit. rewrite Hen. simpl.
  destruct (now - requestWindow w >? oneHour);
    cbn [requestCount requestWindow];
    match goal with |- context [?a >=? ?b] => destruct (Z.geb_spec a b) end;
    intros [= <-]; simpl; lia.
Qed.

Lemma checkRateLimit_count_bounds_witness :
  0 ≤ 1
  ∧ checkRateLimit {| rateLimitEnabled := true; maxRequests := 2 |} 1000
      {| requestCount := 1; requestWindow := 0 |}
    = (Return true, {| requestCount := 2; requestWindow := 0 |})
  ∧ 0 ≤ 2 ≤ 2.
Proof.
  split; [lia|]. split; [reflexivity|].
  apply (checkRateLimit_count_bounds
           {| rateLimitEnabled := true; maxRequests := 2 |} 1000
           {| requestCount := 1; requestWindow := 0 |}
           {| requestCount := 2; requestWindow := 0 |});
    [reflexivity | simpl; lia | reflexivity].
Defined.

(** C2, as the code has it.  With rate limiting enabled:
    - starting from a window opened at [windowStart], any [maxRequests]
      calls made within one hour of [windowStart] all succeed, and the
      next call within that hour fails with [RateLimitExceeded] carrying
      the reset time [windowStart + 1 hour], leaving the window as it was;
    - when [maxRequests] is at least 1, a call arriving when
      [now - windowStart] exceeds one hour resets the window, succeeds,
      and leaves the count at 1. *)
Theorem rate_limit_quota_and_window_reset (cfg : Config) :
  rateLimitEnabled cfg = true →
  (∀ (windowStart : Z) (times : list Z) (now : Z),
     Z.of_nat (length times) = maxRequests cfg →
     Forall (λ t, t - windowStart ≤ oneHour) times →
     now - windowStart ≤ oneHour →
     let run := calls cfg times (resetRateLimit windowStart) in
     Forall succeeded run.1
     ∧ length run.1 = length times
     ∧ checkRateLimit cfg now run.2
       = (Throw (RateLimitExceeded (windowStart + oneHour)), run.2))
  ∧ (∀ (w : Window) (now : Z),
       1 ≤ maxRequests cfg →
       now - requestWindow w > oneHour →
       checkRateLimit cfg now w
       = (Return true, {| requestCount := 1; requestWindow := now |})).
Proof.
  intros Hen. split.
  - intros windowStart times now Hlen Hall Hnow run. subst run.
    unfold resetRateLimit.
    rewrite calls_within_window by (first [done | lia]). simpl.
    split; [|split].
    + apply Forall_replicate. reflexivity.
    + by rewrite length_replicate.
    + rewrite checkRateLimit_refuses by (simpl; first [done | lia]). done.
  - intros w now Hmax Hnow.
    rewrite checkRateLimit_new_window by done.
    destruct (Z.geb_spec 0 (maxRequests cfg)); [lia|done].
Qed.

Lemma rate_limit_quota_and_window_reset_witness :
  let cfg := {| rateLimitEnabled := true; maxRequests := 2 |} in
  rateLimitEnabled cfg = true
  ∧ (Forall succeeded (calls cfg [1000; 2000] (resetRateLimit 0)).1
     ∧ length (calls cfg [1000; 2000] (resetRateLimit 0)).1 = 2%nat
     ∧ checkRateLimit cfg 3000 (calls cfg [1000; 2000] (resetRateLimit 0)).2
       = (Throw (RateLimitExceeded (0 + oneHour)),
          (calls cfg [1000; 2000] (resetRateLimit 0)).2))
  ∧ checkRateLimit cfg 3600001 {| requestCount := 2; requestWindow := 0 |}
    = (Return true, {| requestCount := 1; requestWindow := 3600001 |}).
Proof.
  cbv zeta.
  destruct (rate_limit_quota_and_window_reset
              {| rateLimitEnabled := true; maxRequests := 2 |} eq_refl)
    as [Hquota Hreset].
  split; [reflexivity|]. split.
  - apply (Hquota 0 [1000; 2000] 3000);
      [reflexivity | repeat constructor; unfold oneHour; lia | unfold oneHour; lia].
  - apply Hreset; simpl; unfold oneHour; lia.
Defined.

(** C2 fails as stated when the quota is not positive ([maxRequests: 0],
    which [configure] of 1.0.0 stores, or a negative value, which
    [configure] of 1.2.0 and 1.3.0 stores as well): the window is reset,
    yet the call is refused and the count stays 0. *)
Lemma rate_limit_zero_quota_refuses_after_reset :
  checkRateLimit {| rateLimitEnabled := true; maxRequests := 0 |} 3600001
    {| requestCount := 0; requestWindow := 0 |}
  = (Throw (RateLimitExceeded 7200001),
     {| requestCount := 0; requestWindow := 3600001 |})
  ∧ checkRateLimit {| rateLimitEnabled := true; maxRequests := -1 |} 3600001
      {| requestCount := 0; requestWindow := 0 |}
    = (Throw (RateLimitExceeded 7200001),
       {| requestCount := 0; requestWindow := 3600001 |}).
Proof. split; reflexivity. Qed.

End RateLimiterFacts.

(** ** Response cache *)

Section CacheFacts.

Import Cache.

Lemma getCached_absent {Data} now k (cache : gmap string (Entry Data)) :
  cache !! k = None → getCached now k cache = (None, cache).
Proof. intros H. unfold getCached. by rewrite H. Qed.

(** Reading never brings an entry back. *)
Lemma getCached_keeps_absent {Data} now k k' (cache : gmap string (Entry Data)) :
  cache !! k = None → (getCached now k' cache).2 !! k = None.
Proof.
  intros H. unfold getCached. destruct (cache !! k') as [e|] eqn:He; [|done].
  destruct (now >? expiry e); [|done]. simpl.
  destruct (decide (k' = k)) as [->|Hne].
  - apply lookup_delete_eq.
  - by rewrite lookup_delete_ne.
Qed.

Lemma gets_keep_absent {Data} reads k : ∀ cache : gmap string (Entry Data),
  cache !! k = None → gets reads cache !! k = None.
Proof.
  induction reads as [|r reads IH]; intros cache H; [done|].
  apply IH. by apply getCached_keeps_absent.
Qed.

Lemma getCached_100_absent en now k (cache : gmap string (Entry JsObject)) :
  cache !! k = None → getCached_100 en now k cache = (None, cache).
Proof. intros H. unfold getCached_100. rewrite H. by destruct en. Qed.

Lemma getCached_100_keeps_absent en now k k'
    (cache : gmap string (Entry JsObject)) :
  cache !! k = None → (getCached_100 en now k' cache).2 !! k = None.
Proof.
  intros H. unfold getCached_100. destruct en; [|done]. simpl.
  destruct (cache !! k') as [e|] eqn:He; [|done].
  destruct (now >? expiry e); [|done]. simpl.
  destruct (decide (k' = k)) as [->|Hne].
  - apply lookup_delete_eq.
  - by rewrite lookup_delete_ne.
Qed.

Lemma gets_100_keep_absent en reads k :
  ∀ cache : gmap string (Entry JsObject),
  cache !! k = None → gets_100 en reads cache !! k = None.
Proof.
  induction reads as [|r reads IH]; intros cache H; [done|].
  apply IH. by apply getCached_100_keeps_absent.
Qed.

(** C3, as the code has it.
    - 1.2.0 and 1.3.0: for every key, value and non-negative
      [cacheTimeout], [setCached] followed by [getCached] at the same
      clock reading returns exactly the value stored and leaves the cache
      as [setCached] left it.
    - 1.0.0, caching enabled: for every key, response object and
      non-negative [ttl] (300 when omitted), [setCached] followed by
      [getCached] at the same clock reading returns the stored object's
      properties with [fromCache: true] set.
    - In each version (1.0.0 with caching enabled), [getCached] on an
      entry whose expiry the clock has passed returns absent and deletes
      the entry; after any further run of reads, with no write between,
      [getCached] of that key still returns absent. *)
Theorem cache_set_get_and_expiry :
  (∀ (Data : Type) (cache : gmap string (Entry Data)) (k : string) (v : Data)
     (cacheTimeout now : Z),
     0 ≤ cacheTimeout →
     getCached now k (setCached cacheTimeout now k v cache)
     = (Some v, setCached cacheTimeout now k v cache))
  ∧ (∀ (cache : gmap string (Entry JsObject)) (k : string) (v : JsObject)
       (ttl : option Z) (now : Z),
       0 ≤ default 300 ttl →
       getCached_100 true now k (setCached_100 true now k v ttl cache)
       = (Some (prop_set v "fromCache" (JsBool true)),
          setCached_100 true now k v ttl cache))
  ∧ (∀ (Data : Type) (cache : gmap string (Entry Data)) (k : string)
       (e : Entry Data) (now : Z),
       cache !! k = Some e → now > expiry e →
       getCached now k cache = (None, delete k cache)
       ∧ delete k cache !! k = None
       ∧ ∀ (reads : list (Z * string)) (later : Z),
           (getCached later k (gets reads (delete k cache))).1 = None)
  ∧ (∀ (cache : gmap string (Entry JsObject)) (k : string)
       (e : Entry JsObject) (now : Z),
       cache !! k = Some e → now > expiry e →
       getCached_100 true now k cache = (None, delete k cache)
       ∧ delete k cache !! k = None
       ∧ ∀ (reads : list (Z * string)) (later : Z),
           (getCached_100 true later k (gets_100 true reads (delete k cache))).1
           = None).
Proof.
  split; [|split; [|split]].
  - intros Data cache k v timeout now Ht.
    unfold getCached, setCached. rewrite lookup_insert_eq. simpl.
    destruct (Z.gtb_spec now (now + timeout)); [lia|done].
  - intros cache k v ttl now Ht.
    unfold getCached_100, setCached_100. simpl. rewrite lookup_insert_eq. simpl.
    destruct (Z.gtb_spec now (now + default 300 ttl * 1000)); [lia|done].
  - intros Data cache k e now He Hexp. split; [|split].
    + unfold getCached. rewrite He.
      destruct (Z.gtb_spec now (expiry e)); [done|lia].
    + apply lookup_delete_eq.
    + intros reads later. rewrite getCached_absent; [done|].
      apply gets_keep_absent, lookup_delete_eq.
  - intros cache k e now He Hexp. split; [|split].
    + unfold getCached_100. simpl. rewrite He.
      destruct (Z.gtb_spec now (expiry e)); [done|lia].
    + apply lookup_delete_eq.
    + intros reads later. rewrite getCached_100_absent; [done|].
      apply gets_100_keep_absent, lookup_delete_eq.
Qed.

Lemma cache_set_get_and_expiry_witness :
  (0 ≤ 300000
   ∧ getCached 1000 "k" (setCached 300000 1000 "k" (JsString "v") ∅)
     = (Some (JsString "v"), setCached 300000 1000 "k" (JsString "v") ∅))
  ∧ ((setCached 300000 1000 "k" (JsString "v") ∅ : gmap string (Entry JsValue))
       !! "k" = Some {| data := JsString "v"; expiry := 301000 |}
     ∧ 301001 > 301000
     ∧ (getCached 301001 "k" (setCached 300000 1000 "k" (JsString "v") ∅)).1
       = None).
Proof.
  destruct cache_set_get_and_expiry as (Hfresh & _ & Hstale & _).
  split.
  - split; [lia|]. apply Hfresh. lia.
  - assert ((setCached 300000 1000 "k" (JsString "v") ∅
               : gmap string (Entry JsValue)) !! "k"
            = Some {| data := JsString "v"; expiry := 301000 |}) as Hlookup
      by reflexivity.
    split; [exact Hlookup|]. split; [lia|].
    destruct (Hstale JsValue _ "k" _ 301001 Hlookup) as (Hget & _ & _);
      [simpl; lia|].
    by rewrite Hget.
Defined.

(** C3 fails as stated.  In client 1.0.0 an immediate [getCached] does not
    return exactly the stored value: it returns a copy with [fromCache:
    true] added.  With a negative lifetime (1.2.0: [cacheTimeout];
    1.0.0: [ttl]) the entry is stale at once, so the immediate
    [getCached] returns absent.  And in client 1.0.0 with caching
    disabled nothing is stored, so [getCached] returns absent. *)
Lemma cache_hit_is_marked_and_negative_ttl_is_stale :
  (getCached_100 true 1000 "k"
     (setCached_100 true 1000 "k" [("rows", JsNumber 3)] (Some 300) ∅)).1
  = Some [("rows", JsNumber 3); ("fromCache", JsBool true)]
  ∧ (getCached_100 true 1000 "k"
       (setCached_100 true 1000 "k" [("rows", JsNumber 3)] (Some 300) ∅)).1
    ≠ Some [("rows", JsNumber 3)]
  ∧ (getCached 1000 "k" (setCached (-1) 1000 "k" (JsString "v") ∅)).1 = None
  ∧ (getCached_100 true 1000 "k"
       (setCached_100 true 1000 "k" [("rows", JsNumber 3)] (Some (-1)) ∅)).1
    = None
  ∧ (getCached_100 false 1000 "k"
       (setCached_100 false 1000 "k" [("rows", JsNumber 3)] (Some 300) ∅)).1
    = None.
Proof.
  unfold getCached_100, setCached_100, getCached, setCached. simpl.
  rewrite !lookup_insert_eq. simpl. by repeat split.
Qed.

End CacheFacts.

(** ** Nonce generator *)

Section NonceFacts.

Import Nonce.

Lemma has_true x (s : list string) : has x s = true ↔ x ∈ s.
Proof. unfold has. apply bool_decide_eq_true. Qed.

Lemma has_false x (s : list string) : has x s = false ↔ x ∉ s.
Proof. unfold has. apply bool_decide_eq_false. Qed.

(** The loop never runs out of iterations: any budget that reaches
    [maxAttempts] gives the same result. *)
Lemma doWhile_enough_fuel cand used : ∀ fuel fuel' attempts,
  (maxAttempts ≤ attempts + fuel)%nat → (maxAttempts ≤ attempts + fuel')%nat →
  doWhile fuel cand used attempts = doWhile fuel' cand used attempts.
Proof.
  induction fuel as [|fuel IH]; intros fuel' attempts H1 H2.
  - destruct fuel' as [|fuel']; [done|]. cbn [doWhile].
    destruct (Nat.ltb_spec (S attempts) maxAttempts); [lia|].
    by rewrite andb_false_r.
  - destruct fuel' as [|fuel']; cbn [doWhile].
    + destruct (Nat.ltb_spec (S attempts) maxAttempts); [lia|].
      by rewrite andb_false_r.
    + destruct (has (cand attempts) used && (S attempts <? maxAttempts)%nat);
        [|done].
      apply IH; lia.
Qed.

(** The loop stops at the first candidate that is not in the set, or at
    iteration [maxAttempts] whatever that candidate is. *)
Lemma doWhile_stops_at_fresh cand used j : ∀ fuel attempts,
  (attempts + fuel = maxAttempts)%nat → (attempts ≤ j)%nat → (j < maxAttempts)%nat →
  (∀ i, (attempts ≤ i < j)%nat → cand i ∈ used) → cand j ∉ used →
  doWhile fuel cand used attempts = (cand j, S j).
Proof.
  induction fuel as [|fuel IH]; intros attempts Hf Hle Hj Hcoll Hfresh; [lia|].
  cbn [doWhile]. destruct (decide (attempts = j)) as [->|Hne].
  - apply has_false in Hfresh. by rewrite Hfresh.
  - assert (has (cand attempts) used = true) as ->.
    { apply has_true, Hcoll. lia. }
    destruct (Nat.ltb_spec (S attempts) maxAttempts); [|lia]. cbn [andb].
    apply IH; [lia..| |done]. intros i Hi. apply Hcoll. lia.
Qed.

Lemma doWhile_exhausts cand used : ∀ fuel attempts,
  (attempts + fuel = maxAttempts)%nat → (1 ≤ fuel)%nat →
  (∀ i, (attempts ≤ i)%nat → (S i < maxAttempts)%nat → cand i ∈ used) →
  doWhile fuel cand used attempts = (cand (pred maxAttempts), maxAttempts).
Proof.
  induction fuel as [|fuel IH]; intros attempts Hf Hpos Hcoll; [lia|].
  cbn [doWhile]. destruct (Nat.ltb_spec (S attempts) maxAttempts) as [Hlt|Hge].
  - assert (has (cand attempts) used = true) as ->.
    { apply has_true, Hcoll; lia. }
    cbn [andb]. apply IH; [lia..|]. intros i Hi Hi'. apply Hcoll; lia.
  - rewrite andb_false_r.
    assert (S attempts = maxAttempts) as <- by lia. done.
Qed.

(** What the loop returns when it stops early. *)
Lemma doWhile_early_exit cand used : ∀ fuel attempts nonce attempts',
  (attempts + fuel = maxAttempts)%nat →
  doWhile fuel cand used attempts = (nonce, attempts') →
  (attempts' < maxAttempts)%nat →
  (nonce ∉ used) ∧ (attempts < attempts')%nat ∧ nonce = cand (pred attempts')
  ∧ ∀ i, (attempts ≤ i)%nat → (S i < attempts')%nat → cand i ∈ used.
Proof.
  induction fuel as [|fuel IH]; intros attempts nonce attempts' Hf Hrun Hlt.
  - cbn [doWhile] in Hrun. simplify_eq. lia.
  - cbn [doWhile] in Hrun.
    destruct (has (cand attempts) used) eqn:Hhas; cbn [andb] in Hrun.
    + destruct (Nat.ltb_spec (S attempts) maxAttempts) as [Hlt'|Hge].
      * apply IH in Hrun as (Hfresh & Hle & Heq & Hcoll); [|lia|done].
        split; [done|]. split; [lia|]. split; [done|].
        intros i Hi Hi'. destruct (decide (i = attempts)) as [->|Hne].
        -- by apply has_true.
        -- apply Hcoll; lia.
      * simplify_eq. lia.
    + simplify_eq. apply has_false in Hhas.
      split; [done|]. split; [lia|]. split; [done|]. intros i Hi Hi'. lia.
Qed.

(** [generateNonce] throws exactly when the first nine candidates all
    collide; the tenth candidate is drawn but never tested. *)
Lemma generateNonce_throws_iff cand used :
  (generateNonce true cand used).1 = Throw NonceExhausted
  ↔ ∀ i, (i < 9)%nat → cand i ∈ used.
Proof.
  unfold generateNonce. cbn [negb]. split.
  - destruct (doWhile maxAttempts cand used 0) as [nonce attempts] eqn:Hrun.
    destruct (Nat.leb_spec maxAttempts attempts) as [Hge|Hlt]; [|done].
    intros _ i Hi.
    destruct (decide (cand i ∈ used)) as [|Hni]; [done|]. exfalso.
    assert (∀ n, (n ≤ 9)%nat →
              (∀ k, (k < n)%nat → cand k ∈ used)
              ∨ ∃ j, (j < n)%nat ∧ (cand j ∉ used)
                     ∧ ∀ k, (k < j)%nat → cand k ∈ used) as Hsearch.
    { induction n as [|n IHn]; intros Hn; [left; lia|].
      destruct IHn as [Hall|(j & ? & ? & ?)];
        [lia| |right; exists j; eauto with lia].
      destruct (decide (cand n ∈ used)).
      - left. intros k Hk. destruct (decide (k = n)) as [->|]; [done|].
        apply Hall. lia.
      - right. exists n. eauto. }
    destruct (Hsearch 9%nat) as [Hall|(j & Hj & Hfresh & Hbefore)]; [lia| |].
    { by apply Hni, Hall. }
    rewrite (doWhile_stops_at_fresh cand used j) in Hrun;
      [|done|lia|unfold maxAttempts; lia| |done].
    + simplify_eq. unfold maxAttempts in Hge. lia.
    + intros k Hk. apply Hbefore. lia.
  - intros Hall.
    rewrite (doWhile_exhausts cand used maxAttempts 0%nat); [done|done| |].
    + unfold maxAttempts. lia.
    + intros i _ Hi. apply Hall. unfold maxAttempts in Hi. lia.
Qed.

(** C6: where the code departs from the claim.  When the first nine
    candidates collide and the tenth candidate is not in the Nonce Set,
    [generateNonce] still throws: the tenth candidate is neither inserted
    nor returned, and the set is left as it was. *)
Theorem generateNonce_rejects_fresh_tenth_candidate
    (cand : nat → string) (used : list string) :
  (∀ i, (i < 9)%nat → cand i ∈ used) → cand 9%nat ∉ used →
  generateNonce true cand used = (Throw NonceExhausted, used).
Proof.
  intros Hcoll _. unfold generateNonce. cbn [negb].
  rewrite (doWhile_exhausts cand used maxAttempts 0%nat); [done|done| |].
  - unfold maxAttempts. lia.
  - intros i _ Hi. apply Hcoll. unfold maxAttempts in Hi. lia.
Qed.

Lemma generateNonce_rejects_fresh_tenth_candidate_witness :
  generateNonce true (λ i, "c" +:+ pretty i)
    ["c0"; "c1"; "c2"; "c3"; "c4"; "c5"; "c6"; "c7"; "c8"]
  = (Throw NonceExhausted,
     ["c0"; "c1"; "c2"; "c3"; "c4"; "c5"; "c6"; "c7"; "c8"]).
Proof.
  apply generateNonce_rejects_fresh_tenth_candidate.
  - intros i Hi.
    do 9 (destruct i as [|i];
          [apply (bool_decide_unpack _); vm_compute; exact I|]).
    lia.
  - apply (bool_decide_unpack _). vm_compute. exact I.
Defined.

Lemma add_fresh x (s : list string) : x ∉ s → Nonce.add x s = s ++ [x].
Proof. intros H. unfold Nonce.add. apply has_false in H. by rewrite H. Qed.

Lemma add_length x (s : list string) : (length (Nonce.add x s) ≤ S (length s))%nat.
Proof.
  unfold Nonce.add. destruct (has x s); [lia|]. rewrite length_app. simpl. lia.
Qed.

Lemma delete_length (x : string) (s : list string) :
  (length (Nonce.delete x s) ≤ length s)%nat.
Proof. unfold Nonce.delete. apply length_filter. Qed.

Lemma limitSize_length (s : list string) :
  (length s ≤ 1001)%nat → (length (limitSize s) ≤ 1000)%nat.
Proof.
  intros Hlen. unfold limitSize.
  destruct (Nat.ltb_spec 1000 (length s)) as [Hgt|Hle]; [|done].
  destruct s as [|f s]; [simpl in Hgt; lia|]. cbn [Nonce.first head].
  unfold Nonce.delete. rewrite filter_cons_False by (intros Hsame; by apply Hsame).
  etrans; [apply length_filter|]. simpl in Hlen. lia.
Qed.

Lemma limitSize_small (s : list string) :
  (length s ≤ 1000)%nat → limitSize s = s.
Proof.
  intros Hlen. unfold limitSize.
  destruct (Nat.ltb_spec 1000 (length s)); [lia|done].
Qed.

Lemma delete_absent (x : string) (s : list string) : x ∉ s → Nonce.delete x s = s.
Proof.
  unfold Nonce.delete. induction s as [|y s IH]; intros Hni; [done|].
  apply not_elem_of_cons in Hni as [Hne Hni].
  rewrite filter_cons_True by done. f_equal. by apply IH.
Qed.

(** Over capacity, a duplicate-free set loses exactly its oldest member. *)
Lemma limitSize_evicts_oldest (s : list string) :
  NoDup s → (1000 < length s)%nat → limitSize s = drop 1 s.
Proof.
  intros Hnd Hlen. unfold limitSize.
  destruct (Nat.ltb_spec 1000 (length s)); [|lia].
  destruct s as [|f s]; [simpl in Hlen; lia|]. cbn [Nonce.first head drop].
  apply NoDup_cons in Hnd as [Hni _].
  unfold Nonce.delete. rewrite filter_cons_False by (intros Hsame; by apply Hsame).
  by apply delete_absent.
Qed.

(** A successful call returns a candidate that was not in the set, adds
    it, and trims the set. *)
Lemma generateNonce_success cand used nonce used' :
  generateNonce true cand used = (Return (Some nonce), used') →
  (nonce ∉ used) ∧ used' = limitSize (used ++ [nonce]).
Proof.
  unfold generateNonce. cbn [negb].
  destruct (doWhile maxAttempts cand used 0) as [n attempts] eqn:Hrun.
  destruct (Nat.leb_spec maxAttempts attempts) as [Hge|Hlt]; [done|].
  intros [= <- <-].
  apply doWhile_early_exit in Hrun as (Hfresh & _); [|done|done].
  split; [done|]. by rewrite add_fresh.
Qed.

(** Size bound kept by every call, whatever its outcome. *)
Lemma generateNonce_size_bound enableNonce cand (used : list string) :
  (length used ≤ 1000)%nat →
  (length (generateNonce enableNonce cand used).2 ≤ 1000)%nat.
Proof.
  intros Hlen. unfold generateNonce. destruct enableNonce; cbn [negb]; [|done].
  destruct (doWhile maxAttempts cand used 0) as [n attempts].
  destruct (maxAttempts <=? attempts)%nat; [done|]. cbn [snd].
  apply limitSize_length. etrans; [apply add_length|]. lia.
Qed.

Lemma afterCalls_size_bound (calls : list (bool * (nat → string))) :
  ∀ used : list string,
  (length used ≤ 1000)%nat → (length (afterCalls calls used) ≤ 1000)%nat.
Proof.
  induction calls as [|c calls IH]; intros used Hlen; [done|].
  apply IH. by apply generateNonce_size_bound.
Qed.

(** A run that ends on the call filling the set beyond capacity: no
    nonce of the run repeats, and the set ends as the run minus its
    oldest entry. *)
Lemma generateAll_to_capacity (cands : list (nat → string)) :
  ∀ (used0 nonces used : list string),
  NoDup used0 → (length used0 + length cands = 1001)%nat → cands ≠ [] →
  generateAll cands used0 = Some (nonces, used) →
  NoDup (used0 ++ nonces) ∧ (length nonces = length cands)
  ∧ used = drop 1 (used0 ++ nonces).
Proof.
  induction cands as [|cand cands IH]; intros used0 nonces used Hnd Hlen Hne Hrun;
    [done|].
  cbn [generateAll] in Hrun.
  destruct (generateNonce true cand used0) as [[[n|]|e] used1] eqn:Hcall;
    [|done..].
  apply generateNonce_success in Hcall as [Hfresh ->].
  assert (NoDup (used0 ++ [n])) as Hnd1.
  { apply NoDup_app. split; [done|]. split; [|apply NoDup_singleton].
    intros x Hx Hx'. apply list_elem_of_singleton in Hx'. by subst. }
  cbn [length] in Hlen.
  destruct cands as [|cand' cands].
  - cbn [generateAll] in Hrun. simplify_eq. split; [done|]. split; [done|].
    apply limitSize_evicts_oldest; [done|]. rewrite length_app. simpl in *. lia.
  - rewrite limitSize_small in Hrun
      by (rewrite length_app; cbn [length] in *; lia).
    destruct (generateAll (cand' :: cands) (used0 ++ [n]))
      as [[nonces' used']|] eqn:Hrest; [|done].
    simplify_eq.
    apply IH in Hrest as (Hnd' & Hlen' & ->);
      [|done|rewrite length_app; cbn [length] in *; lia|done].
    rewrite <- (assoc_L (++)) in Hnd'. rewrite <- (assoc_L (++)).
    split; [done|]. split; [cbn [length]; by rewrite Hlen'|done].
Qed.

(** C7.  The Nonce Set never holds more than 1000 entries after a call:
    [generateNonce] (whatever its outcome) and [clearNonces] lead from a
    set of at most 1000 entries to a set of at most 1000 entries, so the
    set reached from the empty set by any run of calls holds at most 1000
    entries.  And for every run of 1001 consecutive successful [generateNonce] calls
    starting from the empty set, the set afterwards holds exactly 1000
    entries, the first nonce generated is not among them, and the set is
    the remaining 1000 nonces in the order they were generated. *)
Theorem nonce_set_bounded_oldest_evicted :
  (∀ (enableNonce : bool) (cand : nat → string) (used : list string),
     (length used ≤ 1000)%nat →
     (length (generateNonce enableNonce cand used).2 ≤ 1000)%nat
     ∧ (length (clearNonces used) ≤ 1000)%nat)
  ∧ (∀ calls : list (bool * (nat → string)),
       (length (afterCalls calls []) ≤ 1000)%nat)
  ∧ (∀ (cands : list (nat → string)) (nonces used : list string),
       length cands = 1001%nat →
       generateAll cands [] = Some (nonces, used) →
       length used = 1000%nat
       ∧ ∃ firstNonce, head nonces = Some firstNonce
                       ∧ (firstNonce ∉ used)
                       ∧ nonces = firstNonce :: used).
Proof.
  split; [|split].
  - intros enableNonce cand used Hlen.
    split; [by apply generateNonce_size_bound | simpl; lia].
  - intros calls. apply afterCalls_size_bound. simpl. lia.
  - intros cands nonces used Hlen Hrun.
    apply generateAll_to_capacity in Hrun as (Hnd & Hlen' & ->);
      [|apply NoDup_nil_2|by rewrite Hlen|by intros ->].
    rewrite app_nil_l in *. rewrite Hlen in Hlen'.
    destruct nonces as [|firstNonce rest]; [done|]. cbn [drop head].
    rewrite drop_0. apply NoDup_cons in Hnd as [Hni _].
    split; [cbn [length] in Hlen'; lia|]. by exists firstNonce.
Qed.

Lemma nonce_set_bounded_oldest_evicted_witness :
  length ((λ (i : nat) (_ : nat), pretty i) <$> seq 0 1001) = 1001%nat
  ∧ generateAll ((λ (i : nat) (_ : nat), pretty i) <$> seq 0 1001) []
    = Some (pretty <$> seq 0 1001, pretty <$> seq 1 1000)
  ∧ length (pretty <$> seq 1 1000 : list string) = 1000%nat
  ∧ pretty 0%nat ∉ (pretty <$> seq 1 1000 : list string).
Proof.
  assert (length ((λ (i : nat) (_ : nat), pretty i) <$> seq 0 1001) = 1001%nat)
    as Hlen by (vm_compute; reflexivity).
  assert (generateAll ((λ (i : nat) (_ : nat), pretty i) <$> seq 0 1001) []
          = Some (pretty <$> seq 0 1001, pretty <$> seq 1 1000)) as Hrun
    by (vm_compute; reflexivity).
  destruct nonce_set_bounded_oldest_evicted as (_ & _ & Hevict).
  destruct (Hevict _ _ _ Hlen Hrun) as (Hsize & firstNonce & Hhead & Hgone & _).
  split; [exact Hlen|]. split; [exact Hrun|]. split; [exact Hsize|].
  injection Hhead as <-. exact Hgone.
Defined.

End NonceFacts.

(** ** CSRF token manager *)

Section CsrfFacts.

Import Csrf.

Lemma pretty_N_go_free (c : ascii) (x : N) : ∀ s,
  (∀ d, pretty_N_char d ≠ c) → free_of c s → free_of c (pretty_N_go x s).
Proof.
  induction (N.lt_wf_0 x) as [x _ IH]; intros s Hc Hs.
  destruct (decide (x = 0)%N) as [->|Hne]; [by rewrite pretty_N_go_0|].
  rewrite pretty_N_go_step by lia.
  apply IH; [apply N.div_lt; lia|done|]. split; [apply Hc|done].
Qed.

Lemma pretty_N_free (c : ascii) (x : N) :
  (∀ d, pretty_N_char d ≠ c) → free_of c (pretty x).
Proof.
  intros Hc. unfold pretty, pretty_N. case_decide.
  - split; [apply (Hc 0%N)|done].
  - by apply pretty_N_go_free.
Qed.

(** A decimal numeral holds no character other than digits and ['-']. *)
Lemma pretty_Z_free (c : ascii) (z : Z) :
  (∀ d, pretty_N_char d ≠ c) → c ≠ "-"%char → free_of c (pretty z).
Proof.
  intros Hc Hdash. unfold pretty, pretty_Z. destruct z as [|p|p].
  - split; [apply (Hc 0%N)|done].
  - by apply pretty_N_free.
  - split; [done|]. by apply pretty_N_free.
Qed.

Lemma digit_not_underscore (d : N) : pretty_N_char d ≠ "_"%char.
Proof. unfold pretty_N_char. by repeat case_match. Qed.

Lemma digit_not_colon (d : N) : pretty_N_char d ≠ ":"%char.
Proof. unfold pretty_N_char. by repeat case_match. Qed.

(** Two strings without the character [c] that are followed by [c] agree
    when the whole texts agree. *)
Lemma delimited_prefix (c : ascii) (s1 : string) : ∀ s2 r1 r2,
  free_of c s1 → free_of c s2 →
  s1 +:+ String c r1 = s2 +:+ String c r2 → s1 = s2.
Proof.
  induction s1 as [|a s1 IH]; intros [|b s2] r1 r2 H1 H2 Heq; simpl in *.
  - done.
  - injection Heq as Hab _. destruct H2 as [Hb _]. by subst.
  - injection Heq as Hab _. destruct H1 as [Ha _]. by subst.
  - injection Heq as -> Heq. f_equal.
    destruct H1 as [_ H1], H2 as [_ H2]. by eapply IH.
Qed.

(** Tokens minted at different clock readings differ. *)
Lemma mint_time_inj now1 rnd1 now2 rnd2 :
  mint now1 rnd1 = mint now2 rnd2 → now1 = now2.
Proof.
  unfold mint. intros Heq. apply (inj (String.append "csrf_")) in Heq.
  apply (delimited_prefix "_") in Heq;
    [|by apply pretty_Z_free; [apply digit_not_underscore|]..].
  by apply (inj pretty) in Heq.
Qed.

(** The 3.8.1 client regenerates its token on every request: tokens
    generated at different clock readings differ. *)
Lemma generateCSRFToken_381_time_inj CryptoJS origin secret now1 now2 tok1 tok2 :
  generateCSRFToken_381 CryptoJS now1 origin secret = Return tok1 →
  generateCSRFToken_381 CryptoJS now2 origin secret = Return tok2 →
  now1 ≠ now2 → tok1 ≠ tok2.
Proof.
  unfold generateCSRFToken_381. intros H1 H2 Hne Heq.
  destruct (Signer.computeHMAC_381 CryptoJS (pretty now1 +:+ ":" +:+ origin) secret)
    as [sig1|]; [|done].
  destruct (Signer.computeHMAC_381 CryptoJS (pretty now2 +:+ ":" +:+ origin) secret)
    as [sig2|]; [|done].
  simplify_eq. apply Hne.
  match goal with H : _ +:+ _ = _ +:+ _ |- _ => rename H into Htok end.
  apply (delimited_prefix ":") in Htok;
    [|by apply pretty_Z_free; [apply digit_not_colon|]..].
  by apply (inj pretty) in Htok.
Qed.

Lemma mint_nonempty now rnd : String.eqb (mint now rnd) "" = false.
Proof. reflexivity. Qed.

Lemma stillValid_issued t0 r0 now :
  0 ≤ t0 → now < t0 + lifetime → stillValid now (issued t0 r0) = Some (mint t0 r0).
Proof.
  intros Ht0 Hnow. unfold stillValid, issued. cbn [csrfToken csrfExpiry].
  rewrite mint_nonempty. cbn [negb andb].
  destruct (Z.eqb_spec (t0 + lifetime) 0) as [Hz|_];
    [unfold lifetime in Hz; lia|].
  destruct (Z.ltb_spec now (t0 + lifetime)); [done|lia].
Qed.

Lemma stillValid_expired t0 r0 now :
  t0 + lifetime ≤ now → stillValid now (issued t0 r0) = None.
Proof.
  intros Hnow. unfold stillValid, issued. cbn [csrfToken csrfExpiry].
  destruct (Z.ltb_spec now (t0 + lifetime)); [lia|].
  by rewrite !andb_false_r.
Qed.

Lemma getCSRFToken_reuses t0 r0 now rnd :
  0 ≤ t0 → now < t0 + lifetime →
  getCSRFToken true now rnd (issued t0 r0) = (Some (mint t0 r0), issued t0 r0).
Proof.
  intros Ht0 Hnow. unfold getCSRFToken. cbn [negb].
  by rewrite stillValid_issued.
Qed.

Lemma tokens_reused t0 r0 (reads : list (Z * string)) :
  0 ≤ t0 → Forall (λ r, r.1 < t0 + lifetime) reads →
  Forall (λ tok, tok = Some (mint t0 r0)) (tokens reads (issued t0 r0)).
Proof.
  intros Ht0. induction reads as [|[now rnd] reads IH]; intros Hall; [constructor|].
  apply Forall_cons in Hall as [Hnow Hall]. cbn [tokens].
  rewrite getCSRFToken_reuses by done.
  constructor; [done|by apply IH].
Qed.

End CsrfFacts.

(** ** Webhook signature verification *)

Section WebhookFacts.

Import Webhook.

Lemma fold_lor_zero {A} (f : A → N) (l : list A) : ∀ acc : N,
  fold_left (λ result i, N.lor result (f i)) l acc = 0%N
  ↔ acc = 0%N ∧ ∀ i, i ∈ l → f i = 0%N.
Proof.
  induction l as [|x l IH]; intros acc; simpl.
  - split; [intros ->; split; [done|]; intros i Hi; by apply elem_of_nil in Hi
           | by intros [-> _]].
  - rewrite IH, N.lor_eq_0_iff. split.
    + intros [[-> Hx] Hl]. split; [done|]. intros i Hi.
      apply elem_of_cons in Hi as [->|Hi]; [done|by apply Hl].
    + intros [-> Hall]. split; [split; [done|]|].
      * apply Hall. apply list_elem_of_here.
      * intros i Hi. apply Hall. by apply list_elem_of_further.
Qed.

Lemma xorAccumulate_zero (signature expected : string) :
  xorAccumulate signature expected = 0%N
  ↔ ∀ i, (i < String.length signature)%nat →
         charCodeAt signature i = charCodeAt expected i.
Proof.
  unfold xorAccumulate. rewrite fold_lor_zero. split.
  - intros [_ Hall] i Hi. apply N.lxor_eq, Hall.
    apply elem_of_seq. lia.
  - intros Hall. split; [done|]. intros i Hi. apply elem_of_seq in Hi.
    rewrite Hall by lia. apply N.lxor_nilpotent.
Qed.

Lemma N_of_ascii_inj (a b : ascii) : N_of_ascii a = N_of_ascii b → a = b.
Proof.
  intros H. rewrite <- (ascii_N_embedding a), <- (ascii_N_embedding b).
  by rewrite H.
Qed.

Lemma same_char_codes (s1 : string) : ∀ s2,
  String.length s1 = String.length s2 →
  (∀ i, (i < String.length s1)%nat → charCodeAt s1 i = charCodeAt s2 i) →
  s1 = s2.
Proof.
  induction s1 as [|a s1 IH]; intros [|b s2] Hlen Hall; simpl in Hlen;
    [done|done|done|].
  f_equal.
  - apply N_of_ascii_inj. apply (Hall 0%nat). simpl. lia.
  - apply IH; [lia|]. intros i Hi. apply (Hall (S i)). simpl. lia.
Qed.

(** The accumulate-and-test loop decides string equality. *)
Lemma compareSignature_spec hmac payload signature secret :
  compareSignature (Some hmac) payload signature secret
  = Return (bool_decide (signature = hmac payload secret)).
Proof.
  unfold compareSignature, Signer.computeHMAC.
  destruct (Nat.eqb_spec (String.length signature)
              (String.length (hmac payload secret))) as [Hlen|Hlen]; simpl.
  - f_equal. destruct (N.eqb_spec (xorAccumulate signature (hmac payload secret)) 0)
      as [Hz|Hnz].
    + symmetry. apply bool_decide_eq_true.
      apply same_char_codes; [done|]. by apply xorAccumulate_zero.
    + symmetry. apply bool_decide_eq_false. intros Heq. apply Hnz.
      apply xorAccumulate_zero. intros i _. by rewrite <- Heq.
  - f_equal. symmetry. apply bool_decide_eq_false. intros Heq. apply Hlen.
    by rewrite <- Heq.
Qed.

Lemma present_Some (a : option string) (s : string) :
  present a = Some s ↔ a = Some s ∧ s ≠ "".
Proof.
  unfold present. destruct a as [s'|]; [|naive_solver].
  destruct (String.eqb_spec s' ""); naive_solver.
Qed.

Lemma present_None (a : option string) :
  present a = None ↔ a = None ∨ a = Some "".
Proof.
  unfold present. destruct a as [s'|]; [|naive_solver].
  destruct (String.eqb_spec s' ""); naive_solver.
Qed.

(** C10.  [verifyWebhookSignature]
    - returns [false] whenever the payload, the signature or the secret
      is missing or empty;
    - otherwise, with CryptoJS loaded, returns [true] exactly when the
      supplied signature is the same string as the hex HMAC-SHA256 digest
      of the payload under the secret, and [false] when it is not;
    - never throws: without CryptoJS the error raised inside is caught
      and the result is [false], and for all arguments the outcome is a
      returned boolean. *)
Theorem verifyWebhookSignature_spec :
  (∀ CryptoJS (payload signature secret : option string),
     (payload = None ∨ payload = Some "")
     ∨ (signature = None ∨ signature = Some "")
     ∨ (secret = None ∨ secret = Some "") →
     verifyWebhookSignature CryptoJS payload signature secret = Return false)
  ∧ (∀ (hmac : string → string → string) (payload signature secret : string),
       payload ≠ "" → signature ≠ "" → secret ≠ "" →
       (verifyWebhookSignature (Some hmac) (Some payload) (Some signature)
          (Some secret) = Return true
        ↔ signature = hmac payload secret)
       ∧ (verifyWebhookSignature (Some hmac) (Some payload) (Some signature)
            (Some secret) = Return false
          ↔ signature ≠ hmac payload secret))
  ∧ (∀ (payload signature secret : option string),
       verifyWebhookSignature None payload signature secret = Return false)
  ∧ (∀ CryptoJS (payload signature secret : option string),
       ∃ b : bool,
         verifyWebhookSignature CryptoJS payload signature secret = Return b).
Proof.
  split; [|split; [|split]].
  - intros CryptoJS payload signature secret H. unfold verifyWebhookSignature.
    destruct H as [H|[H|H]]; apply present_None in H; rewrite H;
      by repeat case_match.
  - intros hmac payload signature secret Hp Hs Hk. unfold verifyWebhookSignature.
    assert (present (Some payload) = Some payload) as ->
      by (by apply present_Some).
    assert (present (Some signature) = Some signature) as ->
      by (by apply present_Some).
    assert (present (Some secret) = Some secret) as ->
      by (by apply present_Some).
    rewrite compareSignature_spec.
    case_bool_decide; split; split; naive_solver.
  - intros payload signature secret. unfold verifyWebhookSignature.
    by repeat case_match.
  - intros CryptoJS payload signature secret. unfold verifyWebhookSignature.
    repeat case_match; eauto.
Qed.

Lemma verifyWebhookSignature_spec_witness :
  ("{}" ≠ "" ∧ "hmac(whsec,{})" ≠ "" ∧ "whsec" ≠ "")
  ∧ verifyWebhookSignature Sample.hmac (Some "{}") (Some "hmac(whsec,{})")
      (Some "whsec") = Return true
  ∧ verifyWebhookSignature Sample.hmac (Some "{}") (Some "hmac(whsec,{}]")
      (Some "whsec") = Return false.
Proof.
  destruct verifyWebhookSignature_spec as (_ & Hiff & _ & _).
  split; [by repeat split|]. split.
  - apply (Hiff _ "{}" "hmac(whsec,{})" "whsec"); [done..|reflexivity].
  - apply (Hiff _ "{}" "hmac(whsec,{}]" "whsec"); [done..|].
    vm_compute. discriminate.
Defined.

End WebhookFacts.

(** ** Request orchestrator *)

(** *** Rules for [ensures]

    [I] is any property of worlds that survives the elementary writes;
    [writable r key] says which property writes it survives. *)

Section ProgramLogic.

Import Orchestrator.

Variable I : World → Prop.
Variable writable : nat → string → Prop.
Variable G : JsError → Prop.

Hypothesis I_trace : ∀ w t, I w → I (with_trace (trace w ++ t) w).
Hypothesis I_set : ∀ w r key v,
  I w → writable r key →
  I (with_heap (<[r := prop_set (default [] (heap w !! r)) key v]> (heap w)) w).
Hypothesis I_alloc : ∀ w o,
  I w → I (with_heap (<[fresh (dom (heap w)) := o]> (heap w)) w).
Hypothesis I_fresh : ∀ w key, I w → writable (fresh (dom (heap w))) key.
Hypothesis I_window : ∀ w x, I w → I (with_window x w).
Hypothesis I_cache : ∀ w c, I w → I (with_cache c w).
Hypothesis I_csrf : ∀ w st, I w → I (with_csrf st w).
Hypothesis I_usedNonces : ∀ w u, I w → I (with_usedNonces u w).
Hypothesis G_other : ∀ e, e ≠ NotConfigured → G e.
Hypothesis I_serverInfo : ∀ w r,
  I w → writable r "limits" → I (with_serverInfo (Some r) w).
Hypothesis I_stored : ∀ w r, I w → serverInfo w = Some r → writable r "limits".

Lemma ensures_ret {A} (a : A) : ensures I G (ret a).
Proof. intros w Hw. split; [done|]. intros e [=]. Qed.

Lemma ensures_throw {A} (e : JsError) : G e → ensures I G (throw (A:=A) e).
Proof. intros He w Hw. split; [done|]. by intros e' [= <-]. Qed.

Lemma ensures_lift {A} (r : outcome A) :
  (∀ e, r = Throw e → G e) → ensures I G (lift r).
Proof. intros Hr w Hw. split; [done|]. simpl. apply Hr. Qed.

Lemma ensures_bind {A B} (m : M A) (k : A → M B) :
  ensures I G m → (∀ a, ensures I G (k a)) → ensures I G (bind m k).
Proof.
  intros Hm Hk w Hw. unfold bind. destruct (Hm w Hw) as [Hw1 He].
  destruct (m w) as [[a|e] w1]; simpl in *.
  - by apply Hk.
  - split; [done|]. intros e' [= <-]. by apply He.
Qed.

Lemma ensures_bind_alloc {B} (o : JsObject) (k : nat → M B) :
  (∀ r, (∀ key, writable r key) → ensures I G (k r)) →
  ensures I G (bind (alloc o) k).
Proof.
  intros Hk w Hw. unfold bind, alloc.
  apply Hk; [intros key; by apply I_fresh|]. by apply I_alloc.
Qed.

Lemma ensures_tryCatch {A} (body : M A) (handler : JsError → JsError) :
  ensures I G body → (∀ e, G e → G (handler e)) → ensures I G (tryCatch body handler).
Proof.
  intros Hb Hh w Hw. unfold tryCatch. destruct (Hb w Hw) as [Hw1 He].
  destruct (body w) as [[a|e] w1]; simpl in *.
  - split; [done|]. intros e [=].
  - split; [done|]. intros e' [= <-]. by apply Hh, He.
Qed.

Lemma ensures_log (e : Event) : ensures I G (log e).
Proof. intros w Hw. split; [by apply I_trace|]. intros e' [=]. Qed.

Lemma ensures_readObj (r : nat) : ensures I G (readObj r).
Proof. intros w Hw. split; [done|]. intros e' [=]. Qed.

Lemma ensures_setProp (r : nat) key v :
  writable r key → ensures I G (setProp r key v).
Proof. intros Hr w Hw. split; [by apply I_set|]. intros e' [=]. Qed.

Lemma ensures_checkRateLimit cfg now : ensures I G (checkRateLimit cfg now).
Proof.
  apply ensures_bind; [apply ensures_log|]. intros _ w Hw.
  destruct (RateLimiter.checkRateLimit (limiter cfg) now (window w))
    as [r win] eqn:Hr. simpl.
  split; [by apply I_window|]. intros e ->.
  unfold RateLimiter.checkRateLimit in Hr.
  repeat case_match; simplify_eq; by apply G_other.
Qed.

Lemma ensures_withCache {A}
    (f : gmap string (Cache.Entry JsObject) → A * gmap string (Cache.Entry JsObject)) :
  ensures I G (withCache f).
Proof.
  intros w Hw. unfold withCache. destruct (f (cache w)) as [a c]. simpl.
  split; [by apply I_cache|]. intros e' [=].
Qed.

Lemma ensures_doFetch env req : ensures I G (doFetch env req).
Proof. apply ensures_bind; [apply ensures_log|]. intros _. apply ensures_ret. Qed.

Lemma ensures_generateNonce cfg rnd : ensures I G (generateNonce cfg rnd).
Proof.
  intros w Hw. unfold generateNonce.
  destruct (Nonce.generateNonce _ _ _) as [r used] eqn:Hr. simpl.
  split; [by apply I_usedNonces|]. intros e ->.
  unfold Nonce.generateNonce in Hr.
  repeat case_match; simplify_eq; by apply G_other.
Qed.

Lemma ensures_getCSRFToken cfg now rnd : ensures I G (getCSRFToken cfg now rnd).
Proof.
  intros w Hw. unfold getCSRFToken.
  destruct (Csrf.getCSRFToken _ _ _ _) as [tok st]. simpl.
  split; [by apply I_csrf|]. intros e' [=].
Qed.

Lemma ensures_handleErrorResponse {A} status json :
  ensures I G (handleErrorResponse (A:=A) status json).
Proof.
  unfold handleErrorResponse. destruct json; apply ensures_throw; by apply G_other.
Qed.

Lemma computeHMAC_errors CryptoJS message secret e :
  Signer.computeHMAC CryptoJS message secret = Throw e → e = CryptoJSRequired.
Proof. unfold Signer.computeHMAC. destruct CryptoJS; naive_solver. Qed.

(** Sequencing after a step whose result is known to satisfy [P]. *)
Lemma ensures_bind_post {A B} (P : A → Prop) (m : M A) (k : A → M B) :
  (∀ w, I w → I (m w).2 ∧ (∀ e, (m w).1 = Throw e → G e)
              ∧ ∀ a, (m w).1 = Return a → P a) →
  (∀ a, P a → ensures I G (k a)) → ensures I G (bind m k).
Proof.
  intros Hm Hk w Hw. unfold bind. destruct (Hm w Hw) as (Hw1 & He & Ha).
  destruct (m w) as [[a|e] w1]; simpl in *.
  - by apply Hk; [apply Ha|].
  - split; [done|]. intros e' [= <-]. by apply He.
Qed.

Lemma serverInfoObject_writable w :
  I w →
  I (serverInfoObject w).2
  ∧ (∀ e, (serverInfoObject w).1 = Throw e → G e)
  ∧ ∀ info, (serverInfoObject w).1 = Return info → writable info "limits".
Proof.
  intros Hw. unfold serverInfoObject, bind, getServerInfo, alloc, setServerInfo, ret.
  destruct (serverInfo w) as [r|] eqn:Hstored; cbn [fst snd].
  - split; [done|]. split; [done|]. intros info [= <-]. by eapply I_stored.
  - split; [|split; [done|]].
    + apply I_serverInfo; [by apply I_alloc|]. by apply I_fresh.
    + intros info [= <-]. by apply I_fresh.
Qed.

Lemma ensures_updateServerInfo rateLimitRemaining :
  ensures I G (updateServerInfo rateLimitRemaining).
Proof.
  unfold updateServerInfo. destruct rateLimitRemaining as [remaining|];
    [|apply ensures_ret].
  apply (ensures_bind_post (λ info, writable info "limits"));
    [apply serverInfoObject_writable|].
  intros info Hinfo.
  apply ensures_bind; [apply ensures_readObj|]. intros o.
  apply ensures_bind.
  { destruct (negb _); [by apply ensures_setProp|apply ensures_ret]. }
  intros _. apply ensures_bind; [apply ensures_readObj|]. intros o'.
  destruct (prop_get o' "limits");
    first [by apply ensures_setProp
          |apply ensures_throw; apply G_other; discriminate].
Qed.

Ltac ensures_step :=
  lazymatch goal with
  | |- ensures _ _ (ret _) => apply ensures_ret
  | |- ensures _ _ (throw _) => apply ensures_throw; try (apply G_other; discriminate)
  | |- ensures _ _ (lift _) =>
      apply ensures_lift;
      let e := fresh "e" in let He := fresh "He" in
      intros e He; apply computeHMAC_errors in He; subst e;
      apply G_other; discriminate
  | |- ensures _ _ (bind (alloc _) _) => apply ensures_bind_alloc; intros ? ?
  | |- ensures _ _ (bind _ _) => apply ensures_bind; [|intros ?]
  | |- ensures _ _ (log _) => apply ensures_log
  | |- ensures _ _ (readObj _) => apply ensures_readObj
  | |- ensures _ _ (setProp _ _ _) => apply ensures_setProp; try done
  | |- ensures _ _ (checkRateLimit _ _) => apply ensures_checkRateLimit
  | |- ensures _ _ (withCache _) => apply ensures_withCache
  | |- ensures _ _ (doFetch _ _) => apply ensures_doFetch
  | |- ensures _ _ (generateNonce _ _) => apply ensures_generateNonce
  | |- ensures _ _ (getCSRFToken _ _ _) => apply ensures_getCSRFToken
  | |- ensures _ _ (handleErrorResponse _ _) => apply ensures_handleErrorResponse
  | |- ensures _ _ (updateServerInfo _) => apply ensures_updateServerInfo
  | |- ensures _ _ (if ?b then _ else _) => destruct b
  | |- ensures _ _ (match ?x with _ => _ end) => destruct x
  | |- ensures _ _ (let _ := _ in _) => cbv zeta
  end.

Lemma ensures_generateAuthHeaders env cfg now rnd action :
  ensures I G (generateAuthHeaders env cfg now rnd action).
Proof. unfold generateAuthHeaders. repeat ensures_step. Qed.


Lemma ensures_cachedOrFetch_120 env cfg now later rnd action params options :
  ensures I G (cachedOrFetch_120 env cfg now later rnd action params options).
Proof.
  unfold cachedOrFetch_120.
  repeat first [apply ensures_generateAuthHeaders | ensures_step].
Qed.

Lemma ensures_makePostRequest_120 env cfg now rnd action body :
  writable body "csrfToken" →
  ensures I G (makePostRequest_120 env cfg now rnd action body).
Proof.
  intros Hb. unfold makePostRequest_120.
  repeat first [apply ensures_generateAuthHeaders | ensures_step].
Qed.

Lemma ensures_addAuth_130 env cfg now params :
  (∀ key, writable params key) → ensures I G (addAuth_130 env cfg now params).
Proof. intros Hp. unfold addAuth_130. repeat ensures_step. Qed.

Lemma ensures_signAndSend_130 env cfg now later params options :
  writable params "signature" →
  ensures I G (signAndSend_130 env cfg now later params options).
Proof. intros Hp. unfold signAndSend_130, Signer.generateSignature. repeat ensures_step. Qed.

Lemma ensures_addAuth_signAndSend_130 env cfg now later params options :
  (∀ key, writable params key) →
  ensures I G (addAuth_130 env cfg now params ;;
               signAndSend_130 env cfg now later params options).
Proof.
  intros Hp. apply ensures_bind; [by apply ensures_addAuth_130|].
  intros _. by apply ensures_signAndSend_130.
Qed.

Lemma ensures_makeRequest_100 env cfg now later params options :
  G NotConfigured →
  ensures I G (makeRequest_100 env cfg now later params options).
Proof.
  intros Hn. unfold makeRequest_100, Signer.createSignature.
  destruct (_ || _ || _); [by apply ensures_throw|].
  destruct params as [p|]; [|ensures_step].
  apply ensures_tryCatch.
  - repeat ensures_step.
  - intros e He. destruct e; first [done | apply G_other; discriminate].
Qed.

(** With the three credentials present the configuration error is out of
    reach, so [G] need not admit it. *)
Lemma ensures_makeRequest_100_configured env cfg now later params options :
  missing (scriptUrl cfg) || missing (apiToken cfg) || missing (hmacSecret cfg)
  = false →
  ensures I G (makeRequest_100 env cfg now later params options).
Proof.
  intros Hc. unfold makeRequest_100, Signer.createSignature. rewrite Hc.
  destruct params as [p|]; [|ensures_step].
  apply ensures_tryCatch.
  - repeat ensures_step.
  - intros e He. destruct e; first [done | apply G_other; discriminate].
Qed.

Lemma ensures_makeRequest_130 env cfg now later params options :
  (∀ key, writable params key) →
  ensures I G (makeRequest_130 env cfg now later params options).
Proof.
  intros Hp. unfold makeRequest_130.
  apply ensures_bind; [apply ensures_checkRateLimit|]. intros _.
  by apply ensures_addAuth_signAndSend_130.
Qed.

Lemma ensures_getData_130 env cfg now later sheet options :
  ensures I G (Api.getData_130 env cfg now later sheet options).
Proof.
  unfold Api.getData_130. apply ensures_bind_alloc. intros params Hp.
  apply ensures_bind; [|intros _; by apply ensures_makeRequest_130].
  unfold Api.setSheets. destruct sheet as [[name|names]|].
  - destruct (String.eqb name ""); [apply ensures_ret|by apply ensures_setProp].
  - by apply ensures_setProp.
  - apply ensures_ret.
Qed.

(** Sequencing after a first step whose effect is known. *)
Lemma ensures_after {A B} (m : M A) (k : A → M B) (w : World) :
  I (m w).2 → (∀ e, (m w).1 = Throw e → G e) → (∀ a, ensures I G (k a)) →
  I (bind m k w).2 ∧ ∀ e, (bind m k w).1 = Throw e → G e.
Proof.
  intros Hw He Hk. unfold bind. destruct (m w) as [[a|e] w1]; simpl in *.
  - by apply Hk.
  - split; [done|]. intros e' [= <-]. by apply He.
Qed.

End ProgramLogic.

Section OrchestratorFacts.

Import Orchestrator.

Lemma prop_get_set_eq (o : JsObject) key v : prop_get (prop_set o key v) key = v.
Proof.
  induction o as [|[k w] o IH]; simpl.
  - by rewrite decide_True.
  - destruct (decide (k = key)) as [->|Hne]; simpl.
    + by rewrite decide_True.
    + by rewrite decide_False.
Qed.

Lemma prop_get_set_ne (o : JsObject) key key' v :
  key ≠ key' → prop_get (prop_set o key v) key' = prop_get o key'.
Proof.
  intros Hne. induction o as [|[k w] o IH]; simpl.
  - by rewrite decide_False.
  - destruct (decide (k = key)) as [->|Hk]; simpl.
    + by rewrite !decide_False.
    + destruct (decide (k = key')); [done|apply IH].
Qed.

(** A property that is not [undefined] is a member of the JSON text. *)
Lemma prop_get_JSON_members (o : JsObject) k :
  prop_get o k ≠ JsUndefined → prop_get (JSON_members o) k = JSON_value (prop_get o k).
Proof.
  unfold JSON_members. cbn [JSON_value].
  induction o as [|[k0 v0] o IH]; [done|]. cbn [prop_get].
  destruct (decide (k0 = k)) as [->|Hne]; intros Hv.
  - destruct v0; try done; cbn [prop_get]; by rewrite decide_True.
  - destruct v0; cbn [prop_get]; rewrite ?decide_False by done; by apply IH.
Qed.

Lemma checkRateLimit_trace cfg now w :
  trace (checkRateLimit cfg now w).2 = trace w ++ [RateLimiterConsulted].
Proof.
  unfold checkRateLimit, bind, log. simpl.
  by destruct (RateLimiter.checkRateLimit _ _ _).
Qed.

Lemma checkRateLimit_errors cfg now w e :
  (checkRateLimit cfg now w).1 = Throw e → ∃ t, e = RateLimitExceeded t.
Proof.
  unfold checkRateLimit, bind, log. simpl.
  destruct (RateLimiter.checkRateLimit _ _ _) as [r win] eqn:Hr. simpl.
  intros ->. unfold RateLimiter.checkRateLimit in Hr.
  repeat case_match; simplify_eq; eauto.
Qed.

(** The copy of [X-RateLimit-Remaining] into [serverInfo] touches the
    heap and [serverInfo] only. *)
Lemma updateServerInfo_frame rateLimitRemaining w :
  trace (updateServerInfo rateLimitRemaining w).2 = trace w
  ∧ csrf (updateServerInfo rateLimitRemaining w).2 = csrf w
  ∧ window (updateServerInfo rateLimitRemaining w).2 = window w
  ∧ cache (updateServerInfo rateLimitRemaining w).2 = cache w
  ∧ usedNonces (updateServerInfo rateLimitRemaining w).2 = usedNonces w.
Proof.
  unfold updateServerInfo, serverInfoObject, getServerInfo, setServerInfo.
  unfold bind, alloc, readObj, setProp, ret, throw.
  destruct rateLimitRemaining as [remaining|]; [|done].
  destruct (serverInfo w) as [r|]; cbn [fst snd]; rewrite ?lookup_insert_eq;
    cbn [default heap with_heap with_serverInfo];
    repeat match goal with
           | |- context [if ?b then _ else _] => destruct b
           | |- context [match prop_get ?o ?k with _ => _ end] =>
               destruct (prop_get o k)
           end; cbn; rewrite ?lookup_insert_eq; cbn;
    repeat match goal with
           | |- context [match prop_get ?o ?k with _ => _ end] =>
               destruct (prop_get o k)
           end; done.
Qed.

(** *** The trace only grows *)

Lemma trace_from_trace t w t' :
  trace_from t w → trace_from t (with_trace (trace w ++ t') w).
Proof. intros [rest Hr]. exists (rest ++ t'). simpl. by rewrite Hr, (assoc_L (++)). Qed.

(** *** Objects that existed before the call *)

Lemma untouched_set h0 w r key v :
  untouched h0 w → r ∉ dom h0 →
  untouched h0
    (with_heap (<[r := prop_set (default [] (heap w !! r)) key v]> (heap w)) w).
Proof.
  intros [Hdom Hsame] Hr. split; simpl.
  - rewrite dom_insert. set_solver.
  - intros r' Hr'. rewrite lookup_insert_ne by (intros ->; done). by apply Hsame.
Qed.

Lemma untouched_fresh h0 w : untouched h0 w → fresh (dom (heap w)) ∉ dom h0.
Proof. intros [Hdom _] Hin. apply (is_fresh (dom (heap w))). by apply Hdom. Qed.

Lemma untouched_alloc h0 w o :
  untouched h0 w →
  untouched h0 (with_heap (<[fresh (dom (heap w)) := o]> (heap w)) w).
Proof.
  intros Hw. pose proof (untouched_fresh h0 w Hw) as Hf.
  destruct Hw as [Hdom Hsame]. split; simpl.
  - rewrite dom_insert. set_solver.
  - intros r' Hr'. rewrite lookup_insert_ne; [by apply Hsame|].
    intros Heq. apply Hf. by rewrite Heq.
Qed.

Lemma untouched_refl w : untouched (heap w) w.
Proof. split; done. Qed.

(** Client 1.0.0 enriches a copy: whatever the outcome of
    [makeRequest], every object that existed when it was called, the
    caller's [params] included, holds the properties it held before. *)
Theorem makeRequest_100_leaves_objects_untouched env cfg now later params options w r :
  r ∈ dom (heap w) →
  heap (makeRequest_100 env cfg now later params options w).2 !! r = heap w !! r.
Proof.
  intros Hr.
  pose proof (ensures_makeRequest_100 (untouched (heap w))
                (λ r _, r ∉ dom (heap w)) (λ _, True)) as H.
  destruct (H ltac:(done) ltac:(intros; by apply untouched_set)
              ltac:(intros; by apply untouched_alloc)
              ltac:(intros; by apply untouched_fresh)
              ltac:(done) ltac:(done) ltac:(done)
              env cfg now later params options I w (untouched_refl w))
    as [[_ Hsame] _].
  by apply Hsame.
Qed.

Lemma makeRequest_100_leaves_objects_untouched_witness :
  0%nat ∈ dom (heap Sample.world)
  ∧ heap (makeRequest_100 Sample.env Sample.configured 1000 1200 (Some 0%nat)
            Sample.options Sample.world).2 !! 0%nat
    = Some [("action", JsString "getData")].
Proof.
  assert (0%nat ∈ dom (heap Sample.world)) as Hin.
  { apply elem_of_dom. by exists [("action", JsString "getData")]. }
  split; [exact Hin|].
  etrans; [by apply makeRequest_100_leaves_objects_untouched | reflexivity].
Defined.

(** *** Objects that existed before the call (1.2.0) *)







Lemma trace_from_refl w : trace_from (trace w) w.
Proof. exists []. by rewrite app_nil_r. Qed.

(** Whatever follows the rate-limit check, the trace of the whole call
    starts with the consultation of the rate limiter, and the call does
    not end in [NotConfigured]. *)
Lemma after_rate_limit_check {B} cfg now (rest : M B) w :
  ensures (trace_from (trace w ++ [RateLimiterConsulted])) (λ e, e ≠ NotConfigured)
    rest →
  trace_from (trace w ++ [RateLimiterConsulted]) ((checkRateLimit cfg now ;; rest) w).2
  ∧ ((checkRateLimit cfg now ;; rest) w).1 ≠ Throw NotConfigured.
Proof.
  intros Hrest.
  destruct (ensures_after (trace_from (trace w ++ [RateLimiterConsulted]))
              (λ e, e ≠ NotConfigured) (checkRateLimit cfg now) (λ _, rest) w)
    as [Ht He].
  - rewrite <- (checkRateLimit_trace cfg now w). apply trace_from_refl.
  - intros e H. apply checkRateLimit_errors in H as [t ->]. done.
  - done.
  - split; [done|]. intros H. by apply He in H.
Qed.

Lemma makeRequest_130_starts_with_rate_limiter env cfg now later params options w :
  trace_from (trace w ++ [RateLimiterConsulted])
    (makeRequest_130 env cfg now later params options w).2
  ∧ (makeRequest_130 env cfg now later params options w).1 ≠ Throw NotConfigured.
Proof.
  apply after_rate_limit_check.
  apply ensures_addAuth_signAndSend_130 with (writable := λ _ _, True); try done.
  intros; by apply trace_from_trace.
Qed.

Lemma makeRequest_120_starts_with_rate_limiter env cfg now later rnd action params
    options w :
  trace_from (trace w ++ [RateLimiterConsulted])
    (makeRequest_120 env cfg now later rnd action params options w).2
  ∧ (makeRequest_120 env cfg now later rnd action params options w).1
    ≠ Throw NotConfigured.
Proof.
  apply after_rate_limit_check.
  apply ensures_cachedOrFetch_120 with (writable := λ _ _, True); try done.
  intros; by apply trace_from_trace.
Qed.

(** *** Writes through the caller's reference (1.3.0) *)

Lemma stamped_set params tk ts w r key v :
  stamped params tk ts w →
  r ≠ params ∨ (key ≠ "token" ∧ key ≠ "timestamp") →
  stamped params tk ts
    (with_heap (<[r := prop_set (default [] (heap w !! r)) key v]> (heap w)) w).
Proof.
  intros [Htk Hts] Hw. unfold stamped. simpl.
  destruct (decide (r = params)) as [->|Hne].
  - destruct Hw as [?|[? ?]]; [done|].
    rewrite lookup_insert_eq. simpl. by rewrite !prop_get_set_ne.
  - by rewrite lookup_insert_ne.
Qed.

Lemma addAuth_130_stamps env cfg now params w :
  (addAuth_130 env cfg now params w).1 = Return tt
  ∧ stamped params (field_value (apiToken cfg)) (JsString (toISOString env now))
      (addAuth_130 env cfg now params w).2.
Proof.
  unfold addAuth_130, bind, setProp, stamped.
  destruct (negb (String.eqb (origin cfg) "")); simpl;
    rewrite !lookup_insert_eq; simpl;
    rewrite ?prop_get_set_eq, ?prop_get_set_ne by done;
    by rewrite ?prop_get_set_eq.
Qed.

Lemma checkRateLimit_admitted cfg now w :
  (RateLimiter.checkRateLimit (limiter cfg) now (window w)).1 = Return true →
  ∃ w1, checkRateLimit cfg now w = (Return true, w1).
Proof.
  unfold checkRateLimit, bind, log. simpl.
  destruct (RateLimiter.checkRateLimit _ _ _) as [r win]. simpl.
  intros ->. eauto.
Qed.

(** C4: where the code departs from the claim.  Client 1.3.0 adds the
    auth fields to the caller's own object: whenever the rate limiter
    admits the call, the object behind [params] carries the configured
    token and the call's timestamp once [makeRequest] is over, whatever
    its outcome.  On [{ action: 'getData' }] the caller's object ends with
    [token], [timestamp] and [signature] added; and [makePostRequest] of
    client 1.2.0 leaves [csrfToken] in the caller's [body]. *)
Theorem makeRequest_130_writes_into_callers_object :
  (∀ env cfg now later params options w,
     (RateLimiter.checkRateLimit (limiter cfg) now (window w)).1 = Return true →
     stamped params (field_value (apiToken cfg)) (JsString (toISOString env now))
       (makeRequest_130 env cfg now later params options w).2)
  ∧ heap (makeRequest_130 Sample.env Sample.configured 1000 1200 0%nat
            Sample.options Sample.world).2 !! 0%nat
    = Some [("action", JsString "getData"); ("token", JsString "token");
            ("timestamp", JsString "T1000");
            ("signature",
             JsString "hmac(secret,action=getData&timestamp=T1000&token=token)")]
  ∧ heap (makePostRequest_120 Sample.env Sample.configured 1000 Sample.entropy
            "getData" 0%nat Sample.world).2 !! 0%nat
    = Some [("action", JsString "getData");
            ("csrfToken", JsString "csrf_1000_abcdefghijklmnop")].
Proof.
  split; [|split; vm_compute; reflexivity].
  intros env cfg now later params options w Hadmit.
  apply checkRateLimit_admitted in Hadmit as [w1 H1].
  unfold makeRequest_130, bind at 1. rewrite H1. unfold bind at 1.
  destruct (addAuth_130_stamps env cfg now params w1) as [Hret Hst].
  destruct (addAuth_130 env cfg now params w1) as [r w2]. simpl in Hret, Hst.
  subst r.
  apply (ensures_signAndSend_130 (stamped _ _ _)
           (λ r key, r ≠ params ∨ (key ≠ "token" ∧ key ≠ "timestamp"))
           (λ _, True)); try done.
  - intros; by apply stamped_set.
  - by right.
Qed.

Lemma makeRequest_130_writes_into_callers_object_witness :
  (RateLimiter.checkRateLimit (limiter Sample.configured) 1000
     (window Sample.world)).1 = Return true
  ∧ stamped 0%nat (JsString "token") (JsString "T1000")
      (makeRequest_130 Sample.env Sample.configured 1000 1200 0%nat
         Sample.options Sample.world).2.
Proof.
  split; [reflexivity|].
  apply (proj1 makeRequest_130_writes_into_callers_object
           Sample.env Sample.configured 1000 1200 0%nat Sample.options
           Sample.world).
  reflexivity.
Defined.

(** C5, as the code has it.
    - Client 1.0.0: when the endpoint URL, the API token or the HMAC
      secret is missing, [makeRequest] throws its configuration error and
      leaves the world as it was: the rate limiter has not been consulted,
      the cache has not been read or written, no network call was made.
    - Clients 1.2.0 and 1.3.0 have no such check: whatever the
      configuration, the first thing [makeRequest] does is to consult the
      rate limiter, and it never ends in a configuration error. *)
Theorem configuration_check_precedes_effects :
  (∀ env cfg now later params options w,
     missing (scriptUrl cfg) = true ∨ missing (apiToken cfg) = true
     ∨ missing (hmacSecret cfg) = true →
     makeRequest_100 env cfg now later params options w = (Throw NotConfigured, w))
  ∧ (∀ env cfg now later params options w,
       trace_from (trace w ++ [RateLimiterConsulted])
         (makeRequest_130 env cfg now later params options w).2
       ∧ (makeRequest_130 env cfg now later params options w).1
         ≠ Throw NotConfigured)
  ∧ (∀ env cfg now later rnd action params options w,
       trace_from (trace w ++ [RateLimiterConsulted])
         (makeRequest_120 env cfg now later rnd action params options w).2
       ∧ (makeRequest_120 env cfg now later rnd action params options w).1
         ≠ Throw NotConfigured).
Proof.
  split; [|split].
  - intros env cfg now later params options w H. unfold makeRequest_100.
    assert (missing (scriptUrl cfg) || missing (apiToken cfg)
            || missing (hmacSecret cfg) = true) as ->; [|done].
    destruct H as [H|[H|H]]; rewrite H; by rewrite ?orb_true_r.
  - intros. apply makeRequest_130_starts_with_rate_limiter.
  - intros. apply makeRequest_120_starts_with_rate_limiter.
Qed.

Lemma configuration_check_precedes_effects_witness :
  missing (scriptUrl Sample.unconfigured) = true
  ∧ makeRequest_100 Sample.env Sample.unconfigured 1000 1200 (Some 0%nat)
      Sample.options Sample.world
    = (Throw NotConfigured, Sample.world).
Proof.
  split; [reflexivity|].
  apply (proj1 configuration_check_precedes_effects). left. reflexivity.
Defined.

(** C5 fails as stated on clients 1.2.0 and 1.3.0.  With the endpoint,
    token and secret all empty, [makeRequest] of 1.3.0 consults the rate
    limiter (the count goes to 1), reads the cache, calls the network and
    returns the response; no configuration error is raised. *)
Lemma unconfigured_makeRequest_130_reaches_network :
  isConfigured Sample.unconfigured = false
  ∧ (makeRequest_130 Sample.env Sample.unconfigured 1000 1200 0%nat
       Sample.options Sample.world).1
    = Return [("success", JsBool true)]
  ∧ RateLimiter.requestCount
      (window (makeRequest_130 Sample.env Sample.unconfigured 1000 1200 0%nat
                 Sample.options Sample.world).2) = 1
  ∧ trace (makeRequest_130 Sample.env Sample.unconfigured 1000 1200 0%nat
             Sample.options Sample.world).2
    = [RateLimiterConsulted;
       CacheRead "action:getData,token:,timestamp:T1000";
       NetworkCall
         {| method := "GET"; url := Some ""; headers := [];
            payload :=
              [("action", JsString "getData"); ("token", JsString "");
               ("timestamp", JsString "T1000");
               ("signature",
                JsString "hmac(,action=getData&timestamp=T1000&token=)")] |};
       CacheWrite
         ("action:getData,token:,timestamp:T1000,"
          +:+ "signature:hmac(,action=getData&timestamp=T1000&token=)")].
Proof. vm_compute. by repeat split. Qed.

End OrchestratorFacts.

(** In a hypothesis about the trace of a 1.2.0 request, step over the copy
    of [X-RateLimit-Remaining] into [serverInfo]: it adds no event. *)
Ltac step_over_updateServerInfo H :=
  match type of H with
  | context [Orchestrator.updateServerInfo ?h ?w0] =>
      let Hsame := fresh "Hsame" in
      destruct (updateServerInfo_frame h w0) as (Hsame & _);
      destruct (Orchestrator.updateServerInfo h w0) as [[[]|?] ?];
      simpl in Hsame, H; try rewrite Hsame in H
  end.

(** ** CSRF tokens on requests *)

Section CsrfRequests.

Import Orchestrator.
Import Csrf.

Lemma checkRateLimit_csrf cfg now w :
  csrf (checkRateLimit cfg now w).2 = csrf w.
Proof.
  unfold checkRateLimit, bind, log. simpl.
  by destruct (RateLimiter.checkRateLimit _ _ _).
Qed.

Lemma generateAuthHeaders_frame env cfg now rnd action w :
  trace (generateAuthHeaders env cfg now rnd action w).2 = trace w
  ∧ csrf (generateAuthHeaders env cfg now rnd action w).2 = csrf w.
Proof.
  unfold generateAuthHeaders, bind, generateNonce, lift, ret.
  destruct (Nonce.generateNonce _ _ _) as [[nonce|e] used]; simpl; [|done].
  by destruct (Signer.computeHMAC _ _ _).
Qed.

(** A POST request of client 1.2.0 made while the stored token is valid
    either stops before the network (rate limit, nonce or signing error)
    or sends exactly one request, whose [X-CSRF-Token] header is the
    stored token; either way the stored token and expiry are untouched. *)
Lemma makePostRequest_120_attaches_stored_token env cfg now rnd action body w t0 r0 :
  enableCSRF cfg = true → csrf w = issued t0 r0 →
  0 ≤ t0 → now < t0 + lifetime →
  let run := makePostRequest_120 env cfg now rnd action body w in
  csrf run.2 = issued t0 r0
  ∧ (trace run.2 = trace w ++ [RateLimiterConsulted]
     ∨ ∃ req, trace run.2 = trace w ++ [RateLimiterConsulted; NetworkCall req]
              ∧ prop_get (headers req) "X-CSRF-Token"
                = JsString (mint t0 r0)).
Proof.
  intros Hen Hcsrf Ht0 Hnow run.
  remember run as result eqn:Hrun. subst run.
  unfold makePostRequest_120 in Hrun. unfold bind at 1 in Hrun.
  pose proof (checkRateLimit_trace cfg now w) as Ht1.
  pose proof (checkRateLimit_csrf cfg now w) as Hc1.
  destruct (checkRateLimit cfg now w) as [[b|e] w1]; simpl in Ht1, Hc1;
    [|subst result; simpl; split; [congruence|by left]].
  unfold bind at 1 in Hrun.
  destruct (generateAuthHeaders_frame env cfg now rnd action w1) as [Ht2 Hc2].
  destruct (generateAuthHeaders env cfg now rnd action w1) as [[hs|e] w2];
    simpl in Ht2, Hc2;
    [|subst result; simpl; split; [congruence|left; congruence]].
  rewrite Hen in Hrun. unfold bind at 1 in Hrun. unfold bind at 1 in Hrun.
  unfold Orchestrator.getCSRFToken in Hrun.
  rewrite Hc2, Hc1, Hcsrf, Hen in Hrun.
  rewrite getCSRFToken_reuses in Hrun by done.
  unfold bind, setProp, readObj, doFetch, log, ret, bind in Hrun. simpl in Hrun.
  match type of Hrun with
  | context [fetch env ?r] => set (req := r) in Hrun
  end.
  assert (prop_get (headers req) "X-CSRF-Token" = JsString (mint t0 r0))
    as Hhdr by apply prop_get_set_eq.
  destruct (fetch env req) as [| |[|] status [data|] remaining]; subst result;
    simpl;
    try match goal with
        | |- context [updateServerInfo ?h ?w0] =>
            destruct (updateServerInfo_frame h w0) as (Htr & Hcs & _);
            destruct (updateServerInfo h w0) as [[[]|e] w3];
            cbn [fst snd trace csrf with_heap with_trace with_csrf] in Htr, Hcs;
            cbn [fst snd]; rewrite Htr, Hcs
        end;
    simpl; (split; [done|]); right; exists req; (split; [|done]);
    rewrite Ht2, Ht1, <- (assoc_L (++)); done.
Qed.

(** A POST request of client 1.3.0 made while the stored token is valid
    either stops before the network (rate limit or signing error) or
    sends exactly one request, whose body carries the stored token as
    [csrf-token]; either way the stored token and expiry are untouched. *)
Lemma makePostRequest_130_attaches_stored_token env cfg now rnd body w t0 r0 :
  enableCSRF cfg = true → csrf w = issued t0 r0 →
  0 ≤ t0 → now < t0 + lifetime →
  let run := Api.makePostRequest_130 env cfg now rnd body w in
  csrf run.2 = issued t0 r0
  ∧ (trace run.2 = trace w ++ [RateLimiterConsulted]
     ∨ ∃ req, trace run.2 = trace w ++ [RateLimiterConsulted; NetworkCall req]
              ∧ prop_get (payload req) "csrf-token" = JsString (mint t0 r0)).
Proof.
  intros Hen Hcsrf Ht0 Hnow run. subst run.
  unfold Api.makePostRequest_130, checkRateLimit, addAuth_130.
  unfold Orchestrator.getCSRFToken, handleErrorResponse.
  unfold bind, readObj, setProp, doFetch, lift, ret, throw, log.
  simpl. rewrite Hen.
  destruct (RateLimiter.checkRateLimit _ _ _) as [[b|e] win]; simpl;
    [|split; [done|by left]].
  destruct (negb (String.eqb (origin cfg) "")); simpl;
    rewrite Hcsrf, getCSRFToken_reuses by done; simpl;
    rewrite ?lookup_insert_eq; simpl;
    (unfold Signer.generateSignature, Signer.computeHMAC;
     destruct (CryptoJS env) as [hmac|]; simpl; [|split; [done|by left]];
     rewrite ?lookup_insert_eq; simpl;
     match goal with |- context [fetch env ?r] => set (req := r) end;
     assert (prop_get (payload req) "csrf-token" = JsString (mint t0 r0)) as Hsent
       by (subst req; cbn [payload];
           rewrite prop_get_JSON_members;
           rewrite prop_get_set_ne, prop_get_set_eq by done; done);
     destruct (fetch env req) as [| |[|] status [data|] remaining]; simpl;
     (split; [done|]); right; exists req; (split; [|done]);
     by rewrite <- (assoc_L (++))).
Qed.

(** C8, as the code has it.  In clients 1.2.0 and 1.3.0, with CSRF
    enabled:
    - a call that finds no valid token mints one and stores it with an
      expiry 30 minutes after the call;
    - once a token is issued (at a clock reading [t0] at or after the
      epoch), every call made while the clock is before the stored expiry
      returns that same token and leaves the stored token and expiry
      untouched, for a single call and for every run of such calls;
    - a call at or after the expiry mints and stores a new token, which
      differs from the expired one;
    - a call after [clearCSRFToken] mints and stores a new token;
    - a POST request made while the stored token is valid sends that
      token, as its [X-CSRF-Token] header in 1.2.0 and as the [csrf-token]
      property of its body in 1.3.0, and leaves the stored token and
      expiry untouched, so successive requests carry the same token.
    With CSRF disabled, [getCSRFToken] returns [null] and changes nothing.
    The 3.8.1 client stores no token: [generateCSRFToken] is called once
    per POST request, and tokens generated at different clock readings
    differ. *)
Theorem csrf_token_reused_until_expiry :
  (∀ (st : State) (now : Z) (rnd : string),
     stillValid now st = None →
     getCSRFToken true now rnd st = (Some (mint now rnd), issued now rnd))
  ∧ (∀ (t0 : Z) (r0 : string),
       0 ≤ t0 →
       (∀ (now : Z) (rnd : string),
          now < t0 + lifetime →
          getCSRFToken true now rnd (issued t0 r0)
          = (Some (mint t0 r0), issued t0 r0))
       ∧ (∀ reads : list (Z * string),
            Forall (λ r, r.1 < t0 + lifetime) reads →
            Forall (λ tok, tok = Some (mint t0 r0)) (tokens reads (issued t0 r0)))
       ∧ (∀ (now : Z) (rnd : string),
            t0 + lifetime ≤ now →
            getCSRFToken true now rnd (issued t0 r0)
            = (Some (mint now rnd), issued now rnd)
            ∧ mint now rnd ≠ mint t0 r0))
  ∧ (∀ (st : State) (now : Z) (rnd : string),
       getCSRFToken true now rnd (clearCSRFToken st)
       = (Some (mint now rnd), issued now rnd))
  ∧ (∀ env cfg now rnd action body (w : World) (t0 : Z) (r0 : string),
       enableCSRF cfg = true → csrf w = issued t0 r0 →
       0 ≤ t0 → now < t0 + lifetime →
       let run := makePostRequest_120 env cfg now rnd action body w in
       csrf run.2 = issued t0 r0
       ∧ (trace run.2 = trace w ++ [RateLimiterConsulted]
          ∨ ∃ req,
              trace run.2 = trace w ++ [RateLimiterConsulted; NetworkCall req]
              ∧ prop_get (headers req) "X-CSRF-Token" = JsString (mint t0 r0)))
  ∧ (∀ env cfg now rnd body (w : World) (t0 : Z) (r0 : string),
       enableCSRF cfg = true → csrf w = issued t0 r0 →
       0 ≤ t0 → now < t0 + lifetime →
       let run := Api.makePostRequest_130 env cfg now rnd body w in
       csrf run.2 = issued t0 r0
       ∧ (trace run.2 = trace w ++ [RateLimiterConsulted]
          ∨ ∃ req,
              trace run.2 = trace w ++ [RateLimiterConsulted; NetworkCall req]
              ∧ prop_get (payload req) "csrf-token" = JsString (mint t0 r0)))
  ∧ (∀ (st : State) (now : Z) (rnd : string),
       getCSRFToken false now rnd st = (None, st))
  ∧ (∀ CryptoJS (origin secret : string) (now1 now2 : Z) (tok1 tok2 : string),
       generateCSRFToken_381 CryptoJS now1 origin secret = Return tok1 →
       generateCSRFToken_381 CryptoJS now2 origin secret = Return tok2 →
       now1 ≠ now2 → tok1 ≠ tok2).
Proof.
  split; [|split; [|split; [|split; [|split; [|split]]]]].
  - intros st now rnd Hnone. unfold getCSRFToken. cbn [negb]. by rewrite Hnone.
  - intros t0 r0 Ht0. split; [|split].
    + intros now rnd Hnow. by apply getCSRFToken_reuses.
    + intros reads Hall. by apply tokens_reused.
    + intros now rnd Hnow. split.
      * unfold getCSRFToken. cbn [negb]. by rewrite stillValid_expired.
      * intros Heq. apply mint_time_inj in Heq. unfold lifetime in Hnow. lia.
  - done.
  - intros. by apply makePostRequest_120_attaches_stored_token.
  - intros. by apply makePostRequest_130_attaches_stored_token.
  - done.
  - intros CryptoJS origin secret now1 now2 tok1 tok2 H1 H2 Hne.
    by eapply generateCSRFToken_381_time_inj.
Qed.

Lemma csrf_token_reused_until_expiry_witness :
  0 ≤ 1000
  ∧ getCSRFToken true 1000 "r0" {| csrfToken := None; csrfExpiry := None |}
    = (Some "csrf_1000_r0", issued 1000 "r0")
  ∧ getCSRFToken true 1800999 "r1" (issued 1000 "r0")
    = (Some "csrf_1000_r0", issued 1000 "r0")
  ∧ getCSRFToken true 1801000 "r2" (issued 1000 "r0")
    = (Some "csrf_1801000_r2", issued 1801000 "r2").
Proof.
  destruct csrf_token_reused_until_expiry
    as (Hmint & Hissued & _ & _ & _ & _ & _).
  destruct (Hissued 1000 "r0" ltac:(lia)) as (Hreuse & _ & Hexpired).
  split; [lia|]. split; [|split].
  - apply (Hmint _ 1000 "r0"). reflexivity.
  - apply (Hreuse 1800999 "r1"). unfold lifetime. lia.
  - apply (Hexpired 1801000 "r2"). unfold lifetime. lia.
Defined.

(** C8 fails as stated.  In the 3.8.1 client two POST requests made one
    second apart carry different tokens: nothing is reused.  And in
    clients 1.2.0 and 1.3.0 a token issued 30 minutes before the epoch is
    stored with expiry 0, which the validity test
    [csrfToken && csrfExpiry && now < csrfExpiry] reads as absent: a call
    made before that expiry mints a new token. *)
Lemma csrf_token_regenerated_per_request_381 :
  (generateCSRFToken_381 Sample.hmac 1000 "https://shop.example" "secret"
   = Return "1000:hmac(secret,1000:https://shop.example)"
   ∧ generateCSRFToken_381 Sample.hmac 2000 "https://shop.example" "secret"
     = Return "2000:hmac(secret,2000:https://shop.example)"
   ∧ "1000:hmac(secret,1000:https://shop.example)"
     ≠ "2000:hmac(secret,2000:https://shop.example)")
  ∧ (csrfExpiry (issued (-1800000) "r0") = Some 0
     ∧ -1000 < 0
     ∧ getCSRFToken true (-1000) "r1" (issued (-1800000) "r0")
       = (Some "csrf_-1000_r1", issued (-1000) "r1")).
Proof. vm_compute. by repeat split. Qed.

End CsrfRequests.

(** ** Rate-limit status *)

Section RateLimitStatusFacts.

Import RateLimiter.

(** X5: what [getRateLimitStatus] reports agrees with what
    [checkRateLimit] does next.  With rate limiting enabled and the clock
    at most one hour past the window start, the status shows a positive
    [remaining] exactly when a call to [checkRateLimit] at that moment is
    admitted; an admitted call lowers [remaining] by one; and with
    [remaining] at 0 the call throws the rate-limit error, whose reset
    time is the status's [resetsAt], and changes nothing.  Once the clock
    is more than one hour past the window start, the status reports
    [resetsIn] 0 and the next call is admitted exactly when [maxRequests]
    is positive, whatever count the status still shows. *)
Theorem getRateLimitStatus_predicts_checkRateLimit cfg now w :
  rateLimitEnabled cfg = true →
  let status := RateLimitStatus.getRateLimitStatus cfg now w in
  (now - requestWindow w ≤ oneHour →
   (0 < RateLimitStatus.remaining status
    ↔ (checkRateLimit cfg now w).1 = Return true)
   ∧ (0 < RateLimitStatus.remaining status →
      RateLimitStatus.remaining
        (RateLimitStatus.getRateLimitStatus cfg now (checkRateLimit cfg now w).2)
      = RateLimitStatus.remaining status - 1)
   ∧ (RateLimitStatus.remaining status = 0 →
      checkRateLimit cfg now w
      = (Throw (RateLimitExceeded (RateLimitStatus.resetsAt status)), w)))
  ∧ (now - requestWindow w > oneHour →
     RateLimitStatus.resetsIn status = 0
     ∧ ((checkRateLimit cfg now w).1 = Return true ↔ 0 < maxRequests cfg)).
Proof.
  intros Hen status. subst status. unfold RateLimitStatus.getRateLimitStatus.
  cbn [RateLimitStatus.remaining RateLimitStatus.resetsAt RateLimitStatus.resetsIn].
  split.
  - intros Hwin.
    destruct (Z_lt_le_dec (requestCount w) (maxRequests cfg)) as [Hlt|Hge].
    + rewrite checkRateLimit_admits by done. cbn [fst snd requestCount].
      split; [|split]; [split; [done|lia] | lia | lia].
    + rewrite checkRateLimit_refuses by done. cbn [fst snd].
      split; [|split]; [split; [lia|done] | lia | done].
  - intros Hwin. split; [lia|].
    rewrite checkRateLimit_new_window by done.
    destruct (Z.geb_spec 0 (maxRequests cfg)); cbn [fst]; split; first [done | lia].
Qed.

Lemma getRateLimitStatus_predicts_checkRateLimit_witness :
  let cfg := {| rateLimitEnabled := true; maxRequests := 2 |} in
  let w := {| requestCount := 1; requestWindow := 0 |} in
  rateLimitEnabled cfg = true
  ∧ RateLimitStatus.remaining (RateLimitStatus.getRateLimitStatus cfg 1000 w) = 1
  ∧ (checkRateLimit cfg 1000 w).1 = Return true
  ∧ RateLimitStatus.remaining
      (RateLimitStatus.getRateLimitStatus cfg 1000 (checkRateLimit cfg 1000 w).2) = 0.
Proof.
  cbv zeta.
  destruct (getRateLimitStatus_predicts_checkRateLimit
              {| rateLimitEnabled := true; maxRequests := 2 |} 1000
              {| requestCount := 1; requestWindow := 0 |} eq_refl)
    as [Hin _].
  destruct Hin as (Hiff & Hdec & _); [simpl; unfold oneHour; lia|].
  split; [reflexivity|]. split; [reflexivity|]. split.
  - apply Hiff. simpl. lia.
  - rewrite Hdec; simpl; lia.
Defined.

End RateLimitStatusFacts.

(** ** Clearing the cache *)

Section ClearCacheFacts.

Import Cache.

(** X6: [clearCache] forgets.  After [clearCache(key)], [getCached] of
    that key is a miss that leaves the cache as it is, in every client
    version; without a key, or with the empty string as key, every key
    misses.  With a non-empty key the other entries are served as before:
    [getCached] of another key returns what it would have returned, and
    clearing commutes with that read. *)
Theorem clearCache_forgets :
  (∀ (Data : Type) (cache : gmap string (Entry Data)) (key : option string)
     (now : Z) (k : string),
     key = None ∨ key = Some "" ∨ key = Some k →
     getCached now k (clearCache key cache) = (None, clearCache key cache))
  ∧ (∀ (cache : gmap string (Entry JsObject)) (key : option string)
       (enableCache : bool) (now : Z) (k : string),
       key = None ∨ key = Some "" ∨ key = Some k →
       getCached_100 enableCache now k (clearCache key cache)
       = (None, clearCache key cache))
  ∧ (∀ (Data : Type) (cache : gmap string (Entry Data)) (k0 k : string) (now : Z),
       k0 ≠ "" → k ≠ k0 →
       (getCached now k (clearCache (Some k0) cache)).1 = (getCached now k cache).1
       ∧ (getCached now k (clearCache (Some k0) cache)).2
         = clearCache (Some k0) (getCached now k cache).2).
Proof.
  assert (∀ (Data : Type) (cache : gmap string (Entry Data)) key k,
            key = None ∨ key = Some "" ∨ key = Some k →
            clearCache key cache !! k = None) as Hgone.
  { intros Data cache key k H. destruct H as [H|[H|H]]; subst key; simpl;
      [done..|].
    destruct (String.eqb k ""); [done|apply lookup_delete_eq]. }
  split; [|split].
  - intros. apply getCached_absent. by apply Hgone.
  - intros. apply getCached_100_absent. by apply Hgone.
  - intros Data cache k0 k now Hk0 Hne. unfold clearCache.
    apply String.eqb_neq in Hk0. rewrite Hk0.
    unfold getCached. rewrite lookup_delete_ne by done.
    destruct (cache !! k) as [e|]; [|done].
    destruct (now >? expiry e); [|done]. simpl. split; [done|].
    apply delete_delete.
Qed.

End ClearCacheFacts.

(** ** Configuration *)

Section ConfigureFacts.

Import Orchestrator.

Lemma missing_false (field : option string) :
  missing field = false ↔ ∃ s, field = Some s ∧ s ≠ "".
Proof.
  destruct field as [s|]; simpl.
  - rewrite String.eqb_neq. naive_solver.
  - naive_solver.
Qed.

(** X7: a successful [configure] of client 1.0.0 establishes what
    [makeRequest] checks.  When [configure(options)] returns, the
    configuration holds the non-empty [scriptUrl], [apiToken] and
    [hmacSecret] of [options]; the URL starts with [https://] unless
    [options.enforceHttps] is [false]; and no later [makeRequest] under
    that configuration throws the configuration error. *)
Theorem configure_100_establishes_credentials options cfg cfg' :
  Configure.configure_100 options cfg = inr cfg' →
  (∃ o url token secret,
     options = Some o
     ∧ Configure.scriptUrl o = Some url ∧ scriptUrl cfg' = Some url ∧ url ≠ ""
     ∧ Configure.apiToken o = Some token ∧ apiToken cfg' = Some token ∧ token ≠ ""
     ∧ Configure.hmacSecret o = Some secret ∧ hmacSecret cfg' = Some secret
     ∧ secret ≠ ""
     ∧ (String.prefix "https://" url = true
        ∨ Configure.enforceHttps o = Some false))
  ∧ ∀ env now later params opts w,
      (makeRequest_100 env cfg' now later params opts w).1 ≠ Throw NotConfigured.
Proof.
  unfold Configure.configure_100. intros H.
  destruct options as [o|]; [|done].
  destruct (missing (Configure.scriptUrl o)) eqn:Hu; [done|].
  destruct (missing (Configure.apiToken o)) eqn:Ht; [done|].
  destruct (missing (Configure.hmacSecret o)) eqn:Hs; [done|].
  destruct (Configure.insecure o) eqn:Hi; [done|].
  injection H as <-.
  apply missing_false in Hu as (url & Hu & Hu').
  apply missing_false in Ht as (token & Ht & Ht').
  apply missing_false in Hs as (secret & Hs & Hs').
  split.
  - exists o, url, token, secret. simpl. rewrite Hu, Ht, Hs.
    repeat split; try done.
    unfold Configure.insecure in Hi. rewrite Hu in Hi. simpl in Hi.
    apply andb_false_iff in Hi as [Hi|Hi].
    + right. apply negb_false_iff, bool_decide_eq_true in Hi. done.
    + left. by apply negb_false_iff in Hi.
  - intros env now later params opts w Hthrow.
    assert (ensures (λ _, True) (λ e, e ≠ NotConfigured)
              (makeRequest_100 env (Configure.assign o cfg) now later params opts))
      as Hens.
    { apply ensures_makeRequest_100_configured with (writable := λ _ _, True);
        try done.
      simpl. rewrite Hu, Ht, Hs. simpl.
      apply String.eqb_neq in Hu', Ht', Hs'. by rewrite Hu', Ht', Hs'. }
    destruct (Hens w I) as [_ He]. by apply He in Hthrow.
Qed.

Lemma configure_100_establishes_credentials_witness :
  let o := {| Configure.scriptUrl := Some "https://script.example/exec";
              Configure.apiToken := Some "token";
              Configure.hmacSecret := Some "secret";
              Configure.origin := None; Configure.enableCSRF := None;
              Configure.enableNonce := None; Configure.rateLimitEnabled := None;
              Configure.maxRequests := Some 50; Configure.cacheTimeout := None;
              Configure.enableCache := None; Configure.enforceHttps := None |} in
  Configure.configure_100 (Some o) Sample.unconfigured
  = inr (Configure.assign o Sample.unconfigured)
  ∧ (makeRequest_100 Sample.env (Configure.assign o Sample.unconfigured) 1000 1200
       (Some 0%nat) Sample.options Sample.world).1 ≠ Throw NotConfigured.
Proof.
  intros o. split; [reflexivity|].
  apply (configure_100_establishes_credentials (Some o) Sample.unconfigured
           (Configure.assign o Sample.unconfigured) eq_refl).
Defined.

Lemma if_truthy_missing given current :
  missing (Configure.if_truthy given current) = missing given && missing current.
Proof. unfold Configure.if_truthy. by destruct (missing given) eqn:H. Qed.

Lemma if_truthy_idem given current :
  Configure.if_truthy given (Configure.if_truthy given current)
  = Configure.if_truthy given current.
Proof. unfold Configure.if_truthy. by destruct (missing given). Qed.

Lemma if_nonzero_idem given current :
  Configure.if_nonzero given (Configure.if_nonzero given current)
  = Configure.if_nonzero given current.
Proof. unfold Configure.if_nonzero. destruct given as [n|]; [|done]. by destruct (n =? 0). Qed.

Lemma if_nonzero_nonzero given current :
  current ≠ 0 → Configure.if_nonzero given current ≠ 0.
Proof.
  unfold Configure.if_nonzero. intros Hc. destruct given as [n|]; [|done].
  destruct (Z.eqb_spec n 0); done.
Qed.

Lemma default_idem {A} (given : option A) (current : A) :
  default (default current given) given = default current given.
Proof. by destruct given. Qed.

(** X8: [configure] of clients 1.2.0 and 1.3.0 never removes a
    credential.  After [configure(options)] the client is configured
    exactly when each of [scriptUrl], [apiToken] and [hmacSecret] is
    non-empty in [options] or was non-empty before; so a configured client
    stays configured.  A non-zero [maxRequests] stays non-zero, since an
    option of 0 is ignored.  Calling [configure] twice with the same
    options is the same as calling it once.  The 1.2.0 function agrees
    with the 1.3.0 one on the credentials and on the rate limiter. *)
Theorem configure_130_never_unconfigures (o : Configure.Options) (cfg : Config) :
  (isConfigured (Configure.configure_130 o cfg)
   = (negb (missing (Configure.scriptUrl o)) || negb (missing (scriptUrl cfg)))
     && (negb (missing (Configure.apiToken o)) || negb (missing (apiToken cfg)))
     && (negb (missing (Configure.hmacSecret o)) || negb (missing (hmacSecret cfg))))
  ∧ (isConfigured cfg = true → isConfigured (Configure.configure_130 o cfg) = true)
  ∧ (RateLimiter.maxRequests (limiter cfg) ≠ 0 →
     RateLimiter.maxRequests (limiter (Configure.configure_130 o cfg)) ≠ 0)
  ∧ Configure.configure_130 o (Configure.configure_130 o cfg)
    = Configure.configure_130 o cfg
  ∧ isConfigured (Configure.configure_120 o cfg)
    = isConfigured (Configure.configure_130 o cfg)
  ∧ limiter (Configure.configure_120 o cfg) = limiter (Configure.configure_130 o cfg)
  ∧ Configure.configure_120 o (Configure.configure_120 o cfg)
    = Configure.configure_120 o cfg.
Proof.
  assert (isConfigured (Configure.configure_130 o cfg)
          = (negb (missing (Configure.scriptUrl o)) || negb (missing (scriptUrl cfg)))
            && (negb (missing (Configure.apiToken o)) || negb (missing (apiToken cfg)))
            && (negb (missing (Configure.hmacSecret o))
                || negb (missing (hmacSecret cfg)))) as Hchar.
  { unfold isConfigured. simpl. rewrite !if_truthy_missing, !negb_andb. done. }
  split; [exact Hchar|]. split; [|split; [|split; [|split; [|split]]]].
  - rewrite Hchar. unfold isConfigured. intros H.
    apply andb_true_iff in H as [H H3]. apply andb_true_iff in H as [H1 H2].
    rewrite H1, H2, H3, !orb_true_r. done.
  - simpl. apply if_nonzero_nonzero.
  - unfold Configure.configure_130. simpl.
    rewrite !if_truthy_idem, !if_nonzero_idem, !default_idem. f_equal.
    destruct (Configure.origin o) as [s|]; [|done].
    by destruct (String.eqb s "").
  - done.
  - done.
  - unfold Configure.configure_120. simpl.
    by rewrite !if_truthy_idem, !if_nonzero_idem, !default_idem.
Qed.

End ConfigureFacts.


(** ** Decryption *)

Section DecryptFacts.

Import Decrypt.

Lemma string_app_nil_r (s : string) : s +:+ EmptyString = s.
Proof.
  induction s as [|a s IH]; [done|].
  change (String a (s +:+ EmptyString) = String a s). by rewrite IH.
Qed.

Lemma string_app_assoc (s1 s2 s3 : string) :
  (s1 +:+ s2) +:+ s3 = s1 +:+ (s2 +:+ s3).
Proof.
  induction s1 as [|a s1 IH]; [done|].
  change (String a ((s1 +:+ s2) +:+ s3) = String a (s1 +:+ (s2 +:+ s3))).
  by rewrite IH.
Qed.

(** The loop appends one character per index. *)
Lemma fold_append_chars (f : nat → ascii) (l : list nat) : ∀ acc : string,
  fold_left (λ decrypted i, decrypted +:+ String (f i) EmptyString) l acc
  = acc +:+ string_of_list_ascii (f <$> l).
Proof.
  induction l as [|i l IH]; intros acc; simpl.
  - by rewrite string_app_nil_r.
  - rewrite IH. by rewrite string_app_assoc.
Qed.

Lemma xorLoop_chars decoded key :
  xorLoop decoded key
  = string_of_list_ascii (xorChar decoded key <$> seq 0 (String.length decoded)).
Proof. unfold xorLoop. by rewrite (fold_append_chars (xorChar decoded key)). Qed.

Lemma get_string_of_list_ascii (l : list ascii) : ∀ i : nat,
  String.get i (string_of_list_ascii l) = l !! i.
Proof. induction l as [|a l IH]; intros [|i]; simpl; by rewrite ?IH. Qed.

Lemma get_None (s : string) : ∀ i : nat,
  (String.length s ≤ i)%nat → String.get i s = None.
Proof.
  induction s as [|a s IH]; intros [|i] Hi; simpl in *; try done; [lia|].
  apply IH. lia.
Qed.

Lemma get_Some (s : string) : ∀ i : nat,
  (i < String.length s)%nat → ∃ c, String.get i s = Some c.
Proof.
  induction s as [|a s IH]; intros [|i] Hi; simpl in *; try lia; eauto.
  apply IH. lia.
Qed.

Lemma get_xorLoop decoded key (i : nat) :
  String.get i (xorLoop decoded key)
  = if decide (i < String.length decoded)%nat
    then Some (xorChar decoded key i) else None.
Proof.
  rewrite xorLoop_chars, get_string_of_list_ascii, list_lookup_fmap.
  destruct (decide (i < String.length decoded)%nat) as [Hlt|Hge].
  - by rewrite lookup_seq_lt.
  - rewrite lookup_seq_ge; [done|lia].
Qed.

Lemma length_string_of_list_ascii (l : list ascii) :
  String.length (string_of_list_ascii l) = length l.
Proof. induction l as [|a l IH]; simpl; by rewrite ?IH. Qed.

(** The loop keeps the length. *)
Lemma xorLoop_length decoded key :
  String.length (xorLoop decoded key) = String.length decoded.
Proof.
  by rewrite xorLoop_chars, length_string_of_list_ascii, length_fmap, length_seq.
Qed.

Lemma lxor_byte (a b : N) : (a < 256)%N → (b < 256)%N → (N.lxor a b < 256)%N.
Proof.
  intros Ha Hb.
  destruct (decide (N.lxor a b = 0%N)) as [->|Hne]; [lia|].
  change 256%N with (2 ^ 8)%N. apply N.log2_lt_pow2; [lia|].
  pose proof (N.log2_lxor a b) as Hl.
  assert (∀ x, (x < 256)%N → (N.log2 x < 8)%N) as Hlog.
  { intros x Hx. destruct (decide (x = 0%N)) as [->|Hx0]; [done|].
    apply N.log2_lt_pow2; [lia|done]. }
  pose proof (Hlog a Ha). pose proof (Hlog b Hb). lia.
Qed.

Lemma charCodeAt_byte (s : string) (i : nat) : (Webhook.charCodeAt s i < 256)%N.
Proof.
  unfold Webhook.charCodeAt. destruct (String.get i s); [apply N_ascii_bounded|lia].
Qed.

(** Decrypting twice with the same key gives back each character. *)
Lemma xorChar_xorLoop decoded key (i : nat) c :
  String.get i decoded = Some c → xorChar (xorLoop decoded key) key i = c.
Proof.
  intros Hc.
  assert (i < String.length decoded)%nat as Hi.
  { destruct (decide (i < String.length decoded)%nat) as [|Hge]; [done|].
    rewrite get_None in Hc by lia. done. }
  unfold xorChar at 1.
  unfold Webhook.charCodeAt at 1. rewrite get_xorLoop, decide_True by done.
  unfold xorChar, fromCharCode.
  rewrite N_ascii_embedding by (apply lxor_byte; apply charCodeAt_byte).
  rewrite N.lxor_assoc, N.lxor_nilpotent, N.lxor_0_r.
  unfold Webhook.charCodeAt. rewrite Hc. apply ascii_N_embedding.
Qed.

Lemma xorLoop_involutive decoded key :
  xorLoop (xorLoop decoded key) key = decoded.
Proof.
  apply get_correct. intros i. rewrite get_xorLoop, xorLoop_length.
  destruct (decide (i < String.length decoded)%nat) as [Hlt|Hge].
  - destruct (get_Some decoded i Hlt) as [c Hc].
    by rewrite Hc, (xorChar_xorLoop decoded key i c Hc).
  - rewrite get_None; [done|lia].
Qed.

(** X9: [decryptData] undoes the XOR encryption.  When [atob] decodes
    [encryptedData] to the XOR of a plaintext with the key, character by
    character with the key repeated, [decryptData] with that key hands
    exactly the plaintext to [JSON.parse] and returns what it returns. *)
Theorem decryptData_inverts_xor {A} (atob : string → option string)
    (JSON_parse : string → option A) (encryptedData key plaintext : string) :
  atob encryptedData = Some (xorLoop plaintext key) →
  decryptData atob JSON_parse encryptedData key = JSON_parse plaintext.
Proof.
  intros Hatob. unfold decryptData. by rewrite Hatob, xorLoop_involutive.
Qed.

Lemma decryptData_inverts_xor_witness :
  xorLoop "{}" "k" = String "016" (String "022" EmptyString)
  ∧ decryptData (λ s, Some s) (λ s, Some s) (xorLoop "{}" "k") "k" = Some "{}".
Proof.
  split; [reflexivity|].
  apply (decryptData_inverts_xor (λ s, Some s) (λ s, Some s) (xorLoop "{}" "k")
           "k" "{}").
  reflexivity.
Defined.

End DecryptFacts.

(** ** Requests on the wire *)

Section WireFacts.

Import Orchestrator.

(** X10: [getData] of client 1.3.0 confines the writes of [makeRequest].
    [makeRequest] writes the token, timestamp and signature into the
    object it is given; [getData] gives it an object of its own, so every
    object that existed before the call holds afterwards the properties
    it held before, whatever the outcome. *)
Theorem getData_130_confines_writes env cfg now later sheet options w r :
  r ∈ dom (heap w) →
  heap (Api.getData_130 env cfg now later sheet options w).2 !! r = heap w !! r.
Proof.
  intros Hr.
  assert (ensures (untouched (heap w)) (λ _, True)
            (Api.getData_130 env cfg now later sheet options)) as H.
  { apply ensures_getData_130 with (writable := λ r _, r ∉ dom (heap w));
      try done.
    - intros; by apply untouched_set.
    - intros; by apply untouched_alloc.
    - intros; by apply untouched_fresh. }
  destruct (H w (untouched_refl w)) as [[_ Hsame] _]. by apply Hsame.
Qed.

Lemma getData_130_confines_writes_witness :
  0%nat ∈ dom (heap Sample.world)
  ∧ heap (Api.getData_130 Sample.env Sample.configured 1000 1200
            (Some (Api.OneSheet "Sheet2")) Sample.options Sample.world).2 !! 0%nat
    = Some [("action", JsString "getData")].
Proof.
  assert (0%nat ∈ dom (heap Sample.world)) as Hin.
  { apply elem_of_dom. by exists [("action", JsString "getData")]. }
  split; [exact Hin|].
  etrans; [by apply getData_130_confines_writes | reflexivity].
Defined.

(** *** Events added by a call *)

Lemma no_CacheRead_nil : ∀ key, CacheRead key ∉ ([] : list Event).
Proof. intros key. apply not_elem_of_nil. Qed.

Ltac no_cache_read :=
  let key := fresh "key" in
  let Hin := fresh "Hin" in
  intros key Hin;
  repeat (apply elem_of_cons in Hin as [Hin|Hin]; [discriminate|]);
  by apply elem_of_nil in Hin.

(** Client 1.0.0 looks a request up in the cache only when its parameters
    carry no (truthy) [action]. *)
Lemma makeRequest_100_action_skips_cache env cfg now later p options w :
  ToBoolean (prop_get (default [] (heap w !! p)) "action") = true →
  ∃ t, trace (makeRequest_100 env cfg now later (Some p) options w).2 = trace w ++ t
       ∧ ∀ key, CacheRead key ∉ t.
Proof.
  intros Hact. unfold makeRequest_100.
  destruct (_ || _ || _).
  { exists []. simpl. split; [by rewrite app_nil_r|no_cache_read]. }
  unfold tryCatch, bind at 1, checkRateLimit, bind at 1, log. simpl.
  destruct (RateLimiter.checkRateLimit _ _ _) as [[b|e] win]; simpl;
    [|exists [RateLimiterConsulted]; split; [done|no_cache_read]].
  unfold bind, readObj, alloc, setProp, withCache, doFetch, lift, ret, throw, log.
  simpl. rewrite !lookup_insert_eq. simpl.
  rewrite !prop_get_set_ne by done. unfold spread. rewrite Hact, andb_false_r.
  unfold Signer.createSignature, Signer.computeHMAC.
  destruct (CryptoJS env) as [hmac|]; simpl;
    [|exists [RateLimiterConsulted]; split; [done|no_cache_read]].
  rewrite !lookup_insert_eq. simpl.
  match goal with |- context [fetch env ?r] => set (req := r) end.
  destruct (fetch env req) as [| |[|] status [data|]]; simpl;
    try (exists [RateLimiterConsulted; NetworkCall req];
         split; [by rewrite <- (assoc_L (++))|no_cache_read]).
  destruct (_ && _); simpl.
  - match goal with |- context [CacheWrite ?k] => set (key := k) end.
    exists [RateLimiterConsulted; NetworkCall req; CacheWrite key].
    split; [by rewrite <- !(assoc_L (++))|no_cache_read].
  - exists [RateLimiterConsulted; NetworkCall req].
    split; [by rewrite <- (assoc_L (++))|no_cache_read].
Qed.

(** X11: [getData] of client 1.0.0 never reads the cache.  Its
    parameters carry [action: 'getData'], and [makeRequest] looks a
    request up in the cache only when there is no [action]: whatever the
    options, the sheet and the outcome, the events the call adds contain
    no cache read. *)
Theorem getData_100_never_reads_cache env cfg now later sheet encrypt options w :
  ∃ t, trace (Api.getData_100 env cfg now later sheet encrypt options w).2
       = trace w ++ t
       ∧ ∀ key, CacheRead key ∉ t.
Proof.
  unfold Api.getData_100, bind, alloc, setProp, ret.
  destruct (negb (missing sheet)), encrypt; simpl;
    rewrite ?lookup_insert_eq; simpl.
  all: match goal with
       | |- context [makeRequest_100 _ _ _ _ (Some ?p) _ ?w1] =>
           destruct (makeRequest_100_action_skips_cache env cfg now later p
                       options w1) as (t & Ht & Hno);
             [simpl; by rewrite lookup_insert_eq
             |exists t; split; [exact Ht|exact Hno]]
       end.
Qed.

(** *** Signatures on the wire *)

Lemma Object_keys_prop_set (o : JsObject) k k' v :
  k' ∉ Object_keys o → k' ≠ k → k' ∉ Object_keys (prop_set o k v).
Proof.
  unfold Object_keys. intros Ho Hne.
  induction o as [|[k0 v0] o IH]; simpl in *.
  - set_solver.
  - apply not_elem_of_cons in Ho as [Hk0 Ho].
    destruct (decide (k0 = k)); simpl; set_solver.
Qed.

Lemma unsigned_absent (o : JsObject) :
  "signature" ∉ Object_keys o → Api.unsigned o = o.
Proof.
  unfold Api.unsigned, Object_keys.
  induction o as [|[k0 v0] o IH]; simpl; [done|].
  intros Ho. apply not_elem_of_cons in Ho as [Hk0 Ho].
  destruct (String.eqb_spec k0 "signature") as [->|_]; [done|]. simpl.
  by rewrite IH.
Qed.

(** Setting the signature of an object that has none appends it, and
    leaving the signature aside gives the object back. *)
Lemma unsigned_prop_set (o : JsObject) v :
  "signature" ∉ Object_keys o → Api.unsigned (prop_set o "signature" v) = o.
Proof.
  unfold Api.unsigned, Object_keys.
  induction o as [|[k0 v0] o IH]; simpl; [done|].
  intros Ho. apply not_elem_of_cons in Ho as [Hk0 Ho].
  rewrite decide_False by done. simpl.
  destruct (String.eqb_spec k0 "signature") as [->|_]; [done|]. simpl.
  by rewrite IH.
Qed.

(** X12: what client 1.0.0 sends is signed.  When the caller's
    parameters have no [signature] property, every network call that
    [makeRequest] adds to the trace was made with CryptoJS present, goes
    to the configured URL, carries the configured token and the call's
    timestamp, and carries as [signature] the keyed digest, under the
    configured secret, of [createSignature]'s canonical string of its
    other parameters. *)
Theorem makeRequest_100_signature_verifies env cfg now later p options w req :
  "signature" ∉ Object_keys (default [] (heap w !! p)) →
  NetworkCall req ∈ trace (makeRequest_100 env cfg now later (Some p) options w).2 →
  NetworkCall req ∈ trace w
  ∨ ∃ HmacSHA256,
      CryptoJS env = Some HmacSHA256
      ∧ Api.verifies Signer.signatureString HmacSHA256
          (default "" (hmacSecret cfg)) (payload req)
      ∧ prop_get (payload req) "token" = field_value (apiToken cfg)
      ∧ prop_get (payload req) "timestamp" = JsString (pretty now)
      ∧ url req = scriptUrl cfg.
Proof.
  intros Hsig. unfold makeRequest_100.
  destruct (_ || _ || _); [by left|].
  unfold tryCatch, bind at 1, checkRateLimit, bind at 1, log. simpl.
  destruct (RateLimiter.checkRateLimit _ _ _) as [[b|e] win]; simpl;
    [|set_unfold; naive_solver].
  unfold bind, readObj, alloc, setProp, withCache, doFetch, lift, ret, throw, log.
  simpl. rewrite !lookup_insert_eq. simpl. unfold spread.
  set (o := default [] (heap w !! p)) in *.
  set (rp := prop_set _ "origin" _).
  assert ("signature" ∉ Object_keys rp) as Hrp.
  { subst rp. by repeat apply Object_keys_prop_set. }
  destruct (useCache options && negb (ToBoolean (prop_get rp "action"))); simpl;
    [destruct (Cache.getCached_100 _ _ _ _) as [[hit|] c]; simpl;
       [set_unfold; naive_solver|]|];
    (unfold Signer.createSignature, Signer.computeHMAC;
     destruct (CryptoJS env) as [hmac|]; simpl; [|set_unfold; naive_solver];
     rewrite !lookup_insert_eq; simpl;
     match goal with |- context [fetch env ?r] => set (req0 := r) end;
     intros Hin;
     assert (NetworkCall req ∈ trace w ∨ req = req0) as [Hold| ->];
     [destruct (fetch env req0) as [| |[|] status [data|]]; simpl in Hin;
        try destruct (_ && _); simpl in Hin; set_unfold in Hin; naive_solver
     |by left|];
     right; exists hmac; split; [done|]; subst req0; simpl;
     split; [|split; [|split]]; [| | |done];
     [unfold Api.verifies; by rewrite prop_get_set_eq, unsigned_prop_set
     |subst rp; rewrite !prop_get_set_ne by done; apply prop_get_set_eq
     |subst rp; rewrite !prop_get_set_ne by done; apply prop_get_set_eq]).
Qed.

Lemma makeRequest_100_signature_verifies_witness :
  let req := {| method := "GET"; url := Some "https://script.example/exec";
                headers := [("Accept", JsString "application/json")];
                payload :=
                  [("action", JsString "getData"); ("token", JsString "token");
                   ("timestamp", JsString "1000");
                   ("referrer", JsString "https://shop.example");
                   ("origin", JsString "https://shop.example");
                   ("signature",
                    JsString ("hmac(secret,action=getData"
                              +:+ "&origin=https://shop.example"
                              +:+ "&referrer=https://shop.example"
                              +:+ "&timestamp=1000&token=token)"))] |} in
  ("signature" ∉ Object_keys (default [] (heap Sample.world !! 0%nat)))
  ∧ NetworkCall req
    ∈ trace (makeRequest_100 Sample.env Sample.configured 1000 1200 (Some 0%nat)
               Sample.options Sample.world).2
  ∧ Api.verifies Signer.signatureString
      (λ message secret, "hmac(" +:+ secret +:+ "," +:+ message +:+ ")")
      "secret" (payload req).
Proof.
  intros req.
  assert ("signature" ∉ Object_keys (default [] (heap Sample.world !! 0%nat)))
    as Hsig.
  { intros Hin. apply list_elem_of_singleton in Hin. discriminate. }
  assert (NetworkCall req
          ∈ trace (makeRequest_100 Sample.env Sample.configured 1000 1200
                     (Some 0%nat) Sample.options Sample.world).2) as Hsent.
  { vm_compute. apply list_elem_of_further, list_elem_of_here. }
  split; [exact Hsig|]. split; [exact Hsent|].
  destruct (makeRequest_100_signature_verifies Sample.env Sample.configured
              1000 1200 0%nat Sample.options Sample.world req Hsig Hsent)
    as [Hold|(hmac & Hhmac & Hver & _)].
  - vm_compute in Hold. by apply elem_of_nil in Hold.
  - injection Hhmac as <-. exact Hver.
Defined.

(** *** What is sent and what was signed (1.3.0) *)







Lemma prop_get_defined_key (o : JsObject) k :
  prop_get o k ≠ JsUndefined → k ∈ Object_keys o.
Proof.
  unfold Object_keys. induction o as [|[k0 v0] o IH]; simpl; [done|].
  destruct (decide (k0 = k)) as [->|Hne]; intros Hv.
  - apply list_elem_of_here.
  - by apply list_elem_of_further, IH.
Qed.



Lemma or_else_string (s : string) :
  ToString (or_else (JsString s) (JsString "")) = s.
Proof.
  unfold or_else. cbn [ToBoolean]. by destruct (String.eqb_spec s "") as [->|].
Qed.





(** The precondition is needed.  A parameter [0] is signed as empty and
    sent as ["0"]: a receiver that recomputes the digest from the
    parameters it received signs another message. *)
Lemma makeRequest_130_zero_parameter_signed_as_empty :
  let w :=
    with_heap {[ 0%nat := [("action", JsString "getData"); ("page", JsNumber 0)] ]}
      Sample.world in
  let req :=
    {| method := "GET"; url := Some "https://script.example/exec"; headers := [];
       payload :=
         [("action", JsString "getData"); ("page", JsString "0");
          ("token", JsString "token"); ("timestamp", JsString "T1000");
          ("signature",
           JsString
             "hmac(secret,action=getData&page=&timestamp=T1000&token=token)")] |} in
  NetworkCall req
  ∈ trace (makeRequest_130 Sample.env Sample.configured 1000 1200 0%nat
             Sample.options w).2
  ∧ Signer.signatureString_130 (Api.unsigned (payload req))
    = "action=getData&page=0&timestamp=T1000&token=token"
  ∧ ¬ Api.verifies Signer.signatureString_130
        (λ message secret, "hmac(" +:+ secret +:+ "," +:+ message +:+ ")")
        "secret" (payload req).
Proof.
  intros w req. split; [|split].
  - vm_compute. apply list_elem_of_further, list_elem_of_further, list_elem_of_here.
  - vm_compute. reflexivity.
  - unfold Api.verifies. vm_compute. discriminate.
Qed.

(** *** A signature left in the caller's object (1.3.0) *)

Lemma prop_get_buildUrl (o : JsObject) k :
  prop_get o k ≠ JsNull → prop_get o k ≠ JsUndefined →
  prop_get (buildUrl o) k = JsString (ToString (prop_get o k)).
Proof.
  unfold buildUrl, map_values.
  induction o as [|[k0 v0] o IH]; [done|]. cbn [prop_get List.filter fst snd].
  destruct (decide (k0 = k)) as [->|Hne]; intros Hn Hu.
  - destruct v0; try done; rewrite fmap_cons; cbn [prop_get fst snd];
      by rewrite decide_True.
  - destruct v0; rewrite ?fmap_cons; cbn [prop_get fst snd];
      rewrite ?decide_False by done; by apply IH.
Qed.

Lemma entries_130_signature (o : JsObject) (stale : string) :
  prop_get o "signature" = JsString stale →
  ("signature=" +:+ stale) ∈ Signer.entries_130 o.
Proof.
  intros Hstale. unfold Signer.entries_130.
  apply list_elem_of_fmap. exists "signature". split.
  - unfold Signer.entry_or_empty. by rewrite Hstale, or_else_string.
  - rewrite sort_perm. apply prop_get_defined_key. by rewrite Hstale.
Qed.

(** X4: client 1.3.0 signs over a signature it finds in the caller's
    object.  [makeRequest] writes [params.signature] into the caller's
    object and never removes it, and [generateSignature] signs every key
    of the object it is given.
    - After a call, the caller's object carries as [signature] the
      signature of every request the call sent.
    - When the caller's object already has a [signature] property, the
      signature of every request the call sends is the keyed digest of a
      canonical string that has the entry [signature=<that value>].
    So a second [makeRequest] on the same object signs the signature left
    by the first. *)
Theorem makeRequest_130_signs_stale_signature env cfg now later p options w req :
  NetworkCall req ∈ trace (makeRequest_130 env cfg now later p options w).2 →
  NetworkCall req ∈ trace w
  ∨ ∃ HmacSHA256 entries,
      CryptoJS env = Some HmacSHA256
      ∧ prop_get (payload req) "signature"
        = JsString (HmacSHA256 (join "&" entries) (default "" (hmacSecret cfg)))
      ∧ prop_get
          (default [] (heap (makeRequest_130 env cfg now later p options w).2 !! p))
          "signature"
        = prop_get (payload req) "signature"
      ∧ ∀ stale,
          prop_get (default [] (heap w !! p)) "signature" = JsString stale →
          ("signature=" +:+ stale) ∈ entries.
Proof.
  remember (makeRequest_130 env cfg now later p options w) as run eqn:Hrun.
  revert Hrun. unfold makeRequest_130, checkRateLimit.
  unfold addAuth_130, signAndSend_130, handleErrorResponse.
  unfold bind, readObj, alloc, setProp, withCache, doFetch, lift, ret, throw, log.
  simpl.
  destruct (RateLimiter.checkRateLimit _ _ _) as [[b|e] win]; simpl;
    [|intros ->; simpl; set_unfold; naive_solver].
  set (o := default [] (heap w !! p)) in *.
  destruct (negb (String.eqb (origin cfg) "")); simpl;
    rewrite !lookup_insert_eq; simpl;
    (match goal with
     | |- context [Signer.generateSignature _ _ ?x] => set (p' := x)
     end;
     assert (prop_get p' "signature" = prop_get o "signature") as Hkept
       by (subst p'; by rewrite !prop_get_set_ne by done);
     destruct (useCache options); simpl;
       [destruct (Cache.getCached _ _ _) as [[hit|] c]; simpl;
          [intros ->; simpl; set_unfold; naive_solver|]|];
     (unfold Signer.generateSignature, Signer.computeHMAC;
      destruct (CryptoJS env) as [hmac|]; simpl;
        [|intros ->; simpl; set_unfold; naive_solver];
      rewrite !lookup_insert_eq; simpl;
      match goal with |- context [fetch env ?r] => set (req0 := r) end;
      destruct (fetch env req0) as [| |[|] status [data|] remaining]; simpl;
      intros ->; simpl; rewrite ?lookup_insert_eq; simpl;
      intros Hin;
      (assert (NetworkCall req ∈ trace w ∨ req = req0) as [Hold| ->];
       [set_unfold in Hin; naive_solver|by left|];
       right; exists hmac, (Signer.entries_130 p'); split; [done|];
       subst req0; cbn [payload];
       rewrite prop_get_buildUrl by (by rewrite prop_get_set_eq);
       rewrite !prop_get_set_eq; cbn [ToString];
       split; [done|]; split; [done|];
       intros stale Hstale; apply entries_130_signature;
       by rewrite Hkept))).
Qed.

Lemma makeRequest_130_signs_stale_signature_witness :
  let first := makeRequest_130 Sample.env Sample.configured 1000 1200 0%nat
                 Sample.options Sample.world in
  let second := makeRequest_130 Sample.env Sample.configured 2000 2200 0%nat
                  Sample.options first.2 in
  let req :=
    {| method := "GET"; url := Some "https://script.example/exec"; headers := [];
       payload :=
         [("action", JsString "getData"); ("token", JsString "token");
          ("timestamp", JsString "T2000");
          ("signature",
           JsString
             ("hmac(secret,action=getData"
              +:+ "&signature=hmac(secret,action=getData&timestamp=T1000&token=token)"
              +:+ "&timestamp=T2000&token=token)"))] |} in
  prop_get (default [] (heap first.2 !! 0%nat)) "signature"
  = JsString "hmac(secret,action=getData&timestamp=T1000&token=token)"
  ∧ NetworkCall req ∈ trace second.2
  ∧ (NetworkCall req ∉ trace first.2)
  ∧ ∃ entries,
      prop_get (payload req) "signature"
      = JsString ("hmac(secret," +:+ join "&" entries +:+ ")")
      ∧ "signature=hmac(secret,action=getData&timestamp=T1000&token=token)"
        ∈ entries.
Proof.
  intros first second req.
  assert (prop_get (default [] (heap first.2 !! 0%nat)) "signature"
          = JsString "hmac(secret,action=getData&timestamp=T1000&token=token)")
    as Hleft by (vm_compute; reflexivity).
  assert (NetworkCall req ∈ trace second.2) as Hsent.
  { vm_compute. do 6 apply list_elem_of_further. apply list_elem_of_here. }
  assert (NetworkCall req ∉ trace first.2) as Hnew.
  { vm_compute. intros Hin.
    repeat (apply elem_of_cons in Hin as [Hin|Hin]; [discriminate|]).
    by apply elem_of_nil in Hin. }
  split; [exact Hleft|]. split; [exact Hsent|]. split; [exact Hnew|].
  destruct (makeRequest_130_signs_stale_signature Sample.env Sample.configured
              2000 2200 0%nat Sample.options first.2 req Hsent)
    as [Hold|(hmac & entries & Hhmac & Hsig & _ & Hstale)]; [done|].
  injection Hhmac as <-. exists entries. split; [exact Hsig|].
  exact (Hstale _ Hleft).
Defined.







(** The precondition is needed.  An [undefined] property is signed as
    empty and is not in the JSON text: a receiver that recomputes the
    digest from the body it received signs another message. *)
Lemma makePostRequest_130_undefined_property_signed_as_empty :
  let w :=
    with_heap {[ 0%nat := [("action", JsString "save"); ("note", JsUndefined)] ]}
      Sample.world in
  let req :=
    {| method := "POST"; url := Some "https://script.example/exec";
       headers := [("Content-Type", JsString "application/json")];
       payload :=
         [("action", JsString "save"); ("token", JsString "token");
          ("timestamp", JsString "T1000");
          ("csrf-token", JsString "csrf_1000_abcdefghijklmnop");
          ("signature",
           JsString
             ("hmac(secret,action=save&csrf-token=csrf_1000_abcdefghijklmnop"
              +:+ "&note=&timestamp=T1000&token=token)"))] |} in
  NetworkCall req
  ∈ trace (Api.makePostRequest_130 Sample.env Sample.configured 1000
             Sample.entropy 0%nat w).2
  ∧ Signer.signatureString_130 (Api.unsigned (payload req))
    = "action=save&csrf-token=csrf_1000_abcdefghijklmnop"
      +:+ "&timestamp=T1000&token=token"
  ∧ ¬ Api.verifies Signer.signatureString_130
        (λ message secret, "hmac(" +:+ secret +:+ "," +:+ message +:+ ")")
        "secret" (payload req).
Proof.
  intros w req. split; [|split].
  - vm_compute. apply list_elem_of_further, list_elem_of_here.
  - vm_compute. reflexivity.
  - unfold Api.verifies. vm_compute. discriminate.
Qed.

(** *** Authentication headers (1.2.0) *)

Lemma limitSize_keeps_newest (used : list string) (nonce : string) :
  nonce ∉ used → nonce ∈ Nonce.limitSize (used ++ [nonce]).
Proof.
  intros Hfresh. unfold Nonce.limitSize.
  destruct (Nat.ltb_spec 1000 (length (used ++ [nonce]))) as [Hlen|_];
    [|apply elem_of_app; right; apply list_elem_of_here].
  destruct used as [|oldest used]; simpl in *; [lia|].
  unfold Nonce.delete. apply list_elem_of_filter. split.
  - intros ->. apply Hfresh. apply list_elem_of_here.
  - apply list_elem_of_further, elem_of_app. right. apply list_elem_of_here.
Qed.

(** X15: the authentication headers of client 1.2.0 are consistent.
    When [generateAuthHeaders] returns, [X-Signature] is the keyed digest,
    under the configured secret, of the message rebuilt from the other
    headers ([X-API-Token], [X-Timestamp], the action, and [X-Nonce] when
    present); [X-Timestamp] is the clock in whole seconds; a nonce sent as
    [X-Nonce] was not in the set of used nonces before the call and is in
    it afterwards; and with nonces disabled there is no [X-Nonce]. *)
Theorem generateAuthHeaders_signs_its_headers env cfg now rnd action w hs w' :
  generateAuthHeaders env cfg now rnd action w = (Return hs, w') →
  (∃ HmacSHA256,
     CryptoJS env = Some HmacSHA256
     ∧ prop_get hs "X-Signature"
       = JsString (HmacSHA256 (Api.signedMessage action hs)
                     (ToString (field_value (hmacSecret cfg)))))
  ∧ prop_get hs "X-Timestamp" = JsString (pretty (now `div` 1000))
  ∧ prop_get hs "X-API-Token" = field_value (apiToken cfg)
  ∧ (∀ nonce, prop_get hs "X-Nonce" = JsString nonce →
       (nonce ∉ usedNonces w) ∧ nonce ∈ usedNonces w')
  ∧ (enableNonce cfg = false → prop_get hs "X-Nonce" = JsUndefined).
Proof.
  unfold generateAuthHeaders, bind, generateNonce, lift, ret.
  destruct (Nonce.generateNonce _ _ _) as [[nonce|e] used] eqn:Hnonce; simpl;
    [|done].
  unfold Signer.computeHMAC. destruct (CryptoJS env) as [hmac|]; [|done].
  intros [= <- <-]. simpl.
  destruct nonce as [n|]; [destruct (String.eqb_spec n "") as [->|Hn]|].
  - split; [by exists hmac|]. repeat split; try done.
  - split; [|split; [|split; [|split]]].
    + exists hmac. split; [done|]. unfold Api.signedMessage. simpl. done.
    + done.
    + done.
    + simpl. intros nonce [= <-].
      destruct (enableNonce cfg); [|by unfold Nonce.generateNonce in Hnonce].
      apply generateNonce_success in Hnonce as [Hfresh ->].
      split; [done|]. by apply limitSize_keeps_newest.
    + intros Hen. rewrite Hen in Hnonce. by unfold Nonce.generateNonce in Hnonce.
  - split; [by exists hmac|]. repeat split; try done.
Qed.

Lemma generateAuthHeaders_signs_its_headers_witness :
  let run := generateAuthHeaders Sample.env Sample.configured 1000 Sample.entropy
               "getData" Sample.world in
  run.1 = Return [("X-API-Token", JsString "token"); ("X-Timestamp", JsString "1");
                  ("X-Signature", JsString "hmac(secret,token:1:getData:n0)");
                  ("X-Nonce", JsString "n0")]
  ∧ Api.signedMessage "getData"
      [("X-API-Token", JsString "token"); ("X-Timestamp", JsString "1");
       ("X-Signature", JsString "hmac(secret,token:1:getData:n0)");
       ("X-Nonce", JsString "n0")] = "token:1:getData:n0"
  ∧ "n0" ∈ usedNonces run.2.
Proof.
  intros run.
  assert (run = (Return [("X-API-Token", JsString "token");
                         ("X-Timestamp", JsString "1");
                         ("X-Signature", JsString "hmac(secret,token:1:getData:n0)");
                         ("X-Nonce", JsString "n0")], run.2)) as Hrun
    by (vm_compute; reflexivity).
  split; [by rewrite Hrun|]. split; [reflexivity|].
  apply (generateAuthHeaders_signs_its_headers Sample.env Sample.configured 1000
           Sample.entropy "getData" Sample.world _ _ Hrun).
  reflexivity.
Defined.

End WireFacts.

Section MoreOrchestratorFacts.

Import Orchestrator.




(** The precondition on the parameter object is needed.  When the caller
    passes the object that [getServerInfo] handed out, the first call
    adds [limits] to it, the cache key changes, and the second call goes
    to the network again. *)
Lemma makeRequest_120_on_serverInfo_misses_cache :
  let w := with_serverInfo (Some 0%nat) Sample.world in
  let first := makeRequest_120 Sample.metered Sample.configured 1000 1200
                 Sample.entropy "getData" 0%nat Sample.options w in
  let second := makeRequest_120 Sample.metered Sample.configured 5000 5200
                  Sample.entropy "getData" 0%nat Sample.options first.2 in
  first.1 = Return [("success", JsBool true)]
  ∧ heap first.2 !! 0%nat
    = Some [("action", JsString "getData");
            ("limits", JsObj [("remaining", JsNumber 99)])]
  ∧ trace second.2
    = trace first.2
      ++ [RateLimiterConsulted;
          CacheRead "getData:action:getData,limits:[object Object]";
          NetworkCall
            {| method := "GET"; url := Some "https://script.example/exec";
               headers :=
                 [("X-API-Token", JsString "token"); ("X-Timestamp", JsString "5");
                  ("X-Signature", JsString "hmac(secret,token:5:getData:n1)");
                  ("X-Nonce", JsString "n1")];
               payload :=
                 [("action", JsString "getData");
                  ("limits", JsObj [("remaining", JsNumber 99)])] |};
          CacheWrite "getData:action:getData,limits:[object Object]"].
Proof. vm_compute. by repeat split. Qed.

End MoreOrchestratorFacts.

(** ** Refused by the rate limiter *)

Section RefusedFacts.

Import Orchestrator.

Lemma checkRateLimit_throws cfg now w e win :
  RateLimiter.checkRateLimit cfg now w = (Throw e, win) →
  ∃ resetTime, e = RateLimitExceeded resetTime.
Proof.
  unfold RateLimiter.checkRateLimit. intros H.
  repeat case_match; simplify_eq; eauto.
Qed.

Lemma checkRateLimit_refused cfg now w e win :
  RateLimiter.checkRateLimit (limiter cfg) now (window w) = (Throw e, win) →
  checkRateLimit cfg now w
  = (Throw e, with_window win (with_trace (trace w ++ [RateLimiterConsulted]) w)).
Proof. intros H. unfold checkRateLimit, bind, log. simpl. by rewrite H. Qed.

(** X19: a request the rate limiter refuses has no other effect.  In
    every client version, when [checkRateLimit] throws, the request
    function (once its own validation has passed, where it has one) ends
    with that same error, and the world afterwards differs from the world
    before only by the rate limiter's window and the record of its
    consultation: no cache access, no nonce or CSRF token, no write to
    the caller's object, no network call.  The 3.8.1 functions send no
    request. *)
Theorem refused_request_has_no_effect :
  (∀ env cfg now later p options w e win,
     missing (scriptUrl cfg) || missing (apiToken cfg) || missing (hmacSecret cfg)
     = false →
     RateLimiter.checkRateLimit (limiter cfg) now (window w) = (Throw e, win) →
     makeRequest_100 env cfg now later (Some p) options w
     = (Throw e, with_window win (with_trace (trace w ++ [RateLimiterConsulted]) w)))
  ∧ (∀ env cfg now later rnd action p options w e win,
       RateLimiter.checkRateLimit (limiter cfg) now (window w) = (Throw e, win) →
       makeRequest_120 env cfg now later rnd action p options w
       = (Throw e, with_window win (with_trace (trace w ++ [RateLimiterConsulted]) w)))
  ∧ (∀ env cfg now rnd action body w e win,
       RateLimiter.checkRateLimit (limiter cfg) now (window w) = (Throw e, win) →
       makePostRequest_120 env cfg now rnd action body w
       = (Throw e, with_window win (with_trace (trace w ++ [RateLimiterConsulted]) w)))
  ∧ (∀ env cfg now later p options w e win,
       RateLimiter.checkRateLimit (limiter cfg) now (window w) = (Throw e, win) →
       makeRequest_130 env cfg now later p options w
       = (Throw e, with_window win (with_trace (trace w ++ [RateLimiterConsulted]) w)))
  ∧ (∀ env cfg now rnd body w e win,
       RateLimiter.checkRateLimit (limiter cfg) now (window w) = (Throw e, win) →
       Api.makePostRequest_130 env cfg now rnd body w
       = (Throw e, with_window win (with_trace (trace w ++ [RateLimiterConsulted]) w)))
  ∧ (∀ env cfg now params w e win,
       missing (Client381.scriptUrl cfg) || missing (Client381.apiToken cfg)
       || missing (Client381.hmacSecret cfg) = false →
       ToBoolean (prop_get params "action") = true →
       RateLimiter.checkRateLimit (Client381.limiter cfg) now w = (Throw e, win) →
       Client381.makeProtectedRequest env cfg now (Some params) w
       = (inl (Client381.Js e), win, None))
  ∧ (∀ env cfg now params w e win,
       missing (Client381.scriptUrl cfg) = false →
       ToBoolean (prop_get params "type") = true →
       RateLimiter.checkRateLimit (Client381.limiter cfg) now w = (Throw e, win) →
       Client381.makePublicRequest env cfg now (Some params) w
       = (inl (Client381.Js e), win, None))
  ∧ (∀ env cfg now data w e win,
       missing (Client381.scriptUrl cfg) || missing (Client381.apiToken cfg)
       || missing (Client381.hmacSecret cfg) = false →
       RateLimiter.checkRateLimit (Client381.limiter cfg) now w = (Throw e, win) →
       Client381.makePostRequest env cfg now data w
       = (inl (Client381.Js e), win, None)).
Proof.
  repeat split.
  - intros env cfg now later p options w e win Hc H.
    unfold makeRequest_100. rewrite Hc. unfold tryCatch, bind at 1.
    rewrite (checkRateLimit_refused _ _ _ _ _ H).
    apply checkRateLimit_throws in H as [t ->]. done.
  - intros env cfg now later rnd action p options w e win H.
    unfold makeRequest_120, bind at 1. by rewrite (checkRateLimit_refused _ _ _ _ _ H).
  - intros env cfg now rnd action body w e win H.
    unfold makePostRequest_120, bind at 1.
    by rewrite (checkRateLimit_refused _ _ _ _ _ H).
  - intros env cfg now later p options w e win H.
    unfold makeRequest_130, bind at 1. by rewrite (checkRateLimit_refused _ _ _ _ _ H).
  - intros env cfg now rnd body w e win H.
    unfold Api.makePostRequest_130, bind at 1.
    by rewrite (checkRateLimit_refused _ _ _ _ _ H).
  - intros env cfg now params w e win Hc Hact H.
    unfold Client381.makeProtectedRequest. rewrite Hc, Hact, H. simpl.
    apply checkRateLimit_throws in H as [t ->]. done.
  - intros env cfg now params w e win Hc Hact H.
    unfold Client381.makePublicRequest. rewrite Hc, Hact, H. simpl.
    apply checkRateLimit_throws in H as [t ->]. done.
  - intros env cfg now data w e win Hc H.
    unfold Client381.makePostRequest. rewrite Hc, H. simpl.
    apply checkRateLimit_throws in H as [t ->]. done.
Qed.

End RefusedFacts.

(** ** The 3.8.1 client *)

Section Client381Facts.

Import Client381.

Lemma rethrow_sent (run : Run) : (rethrow run).2 = run.2.
Proof. destruct run as [[[[[]| | | | |]|d] w] sent]; done. Qed.

Lemma rethrow_window (run : Run) : (rethrow run).1.2 = run.1.2.
Proof. destruct run as [[[[[]| | | | |]|d] w] sent]; done. Qed.

Lemma rethrow_data (run : Run) data :
  (rethrow run).1.1 = inr data → run.1.1 = inr data.
Proof. destruct run as [[[[[]| | | | |]|d] w] sent]; done. Qed.

(** X20: [makeProtectedRequest] of the 3.8.1 client.
    - With the URL, token or secret missing, with no parameters object or
      with no [action], the call fails, leaves the rate limiter's window
      as it was and sends nothing.
    - A request is sent only when the rate limiter has admitted the call,
      and the window afterwards is the one the rate limiter left.
    - Data is returned only for a response whose [status] is ['success'],
      after one request was sent; and when checksum validation is on and
      the response carries a checksum, the checksum is the SHA-256 digest
      of the JSON form of its [data]. *)
Theorem makeProtectedRequest_381_contract env cfg now params w :
  let run := makeProtectedRequest env cfg now params w in
  (Orchestrator.missing (scriptUrl cfg) = true
   ∨ Orchestrator.missing (apiToken cfg) = true
   ∨ Orchestrator.missing (hmacSecret cfg) = true
   ∨ params = None
   ∨ (∃ p, params = Some p ∧ ToBoolean (prop_get p "action") = false) →
   ∃ e, run = (inl e, w, None))
  ∧ (∀ req, run.2 = Some req →
       RateLimiter.checkRateLimit (limiter cfg) now w = (Return true, run.1.2))
  ∧ (∀ data, run.1.1 = inr data →
       is_success data = true
       ∧ (∃ req, run.2 = Some req)
       ∧ (checksumValidation cfg = true →
          ToBoolean (prop_get data "checksum") = true →
          ∃ crypto,
            CryptoJS env = Some crypto
            ∧ prop_get data "checksum"
              = JsString (SHA256 crypto (JSON_stringify env (prop_get data "data"))))).
Proof.
  intros run. subst run. unfold makeProtectedRequest.
  destruct (_ || _ || _) eqn:Hc.
  { split; [eauto|]. split; [done|done]. }
  apply orb_false_iff in Hc as [Hc Hs]. apply orb_false_iff in Hc as [Hu Ht].
  destruct params as [p|]; [|split; [eauto|]; split; done].
  destruct (ToBoolean (prop_get p "action")) eqn:Hact; simpl;
    [|split; [eauto|]; split; done].
  split.
  { intros [H|[H|[H|[H|(p' & [= <-] & H)]]]]; congruence. }
  rewrite rethrow_sent, rethrow_window.
  split.
  - intros req.
    destruct (RateLimiter.checkRateLimit _ _ _) as [[b|e] w1] eqn:Hrl; [|done].
    assert (b = true) as ->.
    { unfold RateLimiter.checkRateLimit in Hrl. repeat case_match; by simplify_eq. }
    unfold Signer.createSignature_381, Signer.computeHMAC_381.
    destruct (CryptoJS env) as [crypto|]; simpl; [|done].
    destruct (_ || _); done.
  - intros data Hdata. apply rethrow_data in Hdata. revert Hdata.
    destruct (RateLimiter.checkRateLimit _ _ _) as [[b|e] w1]; [|done].
    unfold Signer.createSignature_381, Signer.computeHMAC_381.
    destruct (CryptoJS env) as [crypto0|] eqn:Hcrypto; simpl; [|done].
    destruct (_ || _); [done|]. simpl.
    unfold received.
    match goal with
    | |- context [fetch env ?r] => destruct (fetch env r) as [| |[|] status [d|]]
    end; try done.
    destruct (is_success d) eqn:Hok; [|done].
    destruct (checksumValidation cfg && ToBoolean (prop_get d "checksum")) eqn:Hv.
    + destruct (validateChecksum env d) eqn:Hsum; [|done].
      intros [= <-]. split; [done|]. split; [eauto|]. intros _ _.
      unfold validateChecksum in Hsum. rewrite Hcrypto in Hsum.
      destruct (_ || _); [done|].
      exists crypto0. split; [done|].
      destruct (prop_get d "checksum"); try done.
      apply String.eqb_eq in Hsum. by rewrite Hsum.
    + intros [= <-]. split; [done|]. split; [eauto|]. intros Hcv Hcs.
      by rewrite Hcv, Hcs in Hv.
Qed.

(** X21: what the 3.8.1 client sends to a protected endpoint is signed.
    When the caller's parameters have no [signature] property, the
    request that [makeProtectedRequest] sends goes to the configured URL
    and carries the configured token, the call's timestamp, the page's
    origin, and as [signature] the keyed digest, under the configured
    secret, of [createSignature]'s canonical string of its other
    parameters. *)
Theorem makeProtectedRequest_381_signature_verifies env cfg now params w req :
  "signature" ∉ Object_keys params →
  (makeProtectedRequest env cfg now (Some params) w).2 = Some req →
  ∃ crypto,
    CryptoJS env = Some crypto
    ∧ Api.verifies Signer.signatureString (HmacSHA256 crypto)
        (default "" (hmacSecret cfg)) (query req)
    ∧ prop_get (query req) "token" = Orchestrator.field_value (apiToken cfg)
    ∧ prop_get (query req) "timestamp" = JsString (toISOString env now)
    ∧ prop_get (query req) "origin" = JsString (getOrigin env)
    ∧ url req = scriptUrl cfg.
Proof.
  intros Hsig. unfold makeProtectedRequest.
  destruct (_ || _ || _); [done|].
  destruct (ToBoolean (prop_get params "action")); [|done]. simpl.
  rewrite rethrow_sent.
  destruct (RateLimiter.checkRateLimit _ _ _) as [[b|e] w1]; [|done].
  set (rp := prop_set _ "referrer" _).
  assert ("signature" ∉ Object_keys rp) as Hrp.
  { subst rp. unfold spread. by repeat apply Object_keys_prop_set. }
  unfold Signer.createSignature_381, Signer.computeHMAC_381.
  destruct (CryptoJS env) as [crypto|]; [|done]. simpl.
  destruct (_ || _); [done|]. simpl. intros [= <-]. simpl.
  exists crypto. split; [done|]. split; [|split; [|split; [|split]]]; [| | | |done].
  - unfold Api.verifies. by rewrite prop_get_set_eq, unsigned_prop_set.
  - subst rp. rewrite !prop_get_set_ne by done. apply prop_get_set_eq.
  - subst rp. rewrite !prop_get_set_ne by done. apply prop_get_set_eq.
  - subst rp. rewrite !prop_get_set_ne by done. apply prop_get_set_eq.
Qed.

Lemma makeProtectedRequest_381_signature_verifies_witness :
  let params := [("action", JsString "getData"); ("sheet", JsString "Sheet2")] in
  let req :=
    {| method := "GET"; url := Some "https://script.example/exec";
       query :=
         [("action", JsString "getData"); ("sheet", JsString "Sheet2");
          ("token", JsString "token"); ("timestamp", JsString "T1000");
          ("origin", JsString "https://shop.example");
          ("referrer", JsString "https://shop.example/cart");
          ("signature",
           JsString ("hmac(secret,action=getData&origin=https://shop.example"
                     +:+ "&referrer=https://shop.example/cart&sheet=Sheet2"
                     +:+ "&timestamp=T1000&token=token)"))];
       headers := [("Accept", JsString "application/json")];
       body := None |} in
  ("signature" ∉ Object_keys params)
  ∧ (makeProtectedRequest Sample381.env Sample381.configured 1000 (Some params)
       Sample381.window).2 = Some req
  ∧ Api.verifies Signer.signatureString (HmacSHA256 Sample381.crypto) "secret"
      (query req).
Proof.
  intros params req.
  assert ("signature" ∉ Object_keys params) as Hsig.
  { intros Hin. repeat (apply elem_of_cons in Hin as [Hin|Hin]; [discriminate|]).
    by apply elem_of_nil in Hin. }
  assert ((makeProtectedRequest Sample381.env Sample381.configured 1000
             (Some params) Sample381.window).2 = Some req) as Hsent
    by (vm_compute; reflexivity).
  split; [exact Hsig|]. split; [exact Hsent|].
  destruct (makeProtectedRequest_381_signature_verifies Sample381.env
              Sample381.configured 1000 params Sample381.window req Hsig Hsent)
    as (crypto & Hcrypto & Hver & _).
  injection Hcrypto as <-. exact Hver.
Defined.

End Client381Facts.

(** ** Candidates drawn by the nonce generator *)

Section NonceCandidates.

Import Nonce.

Lemma doWhile_ext cand cand' used : ∀ fuel attempts,
  (attempts < maxAttempts)%nat →
  (∀ i, (attempts ≤ i)%nat → (i < maxAttempts)%nat → cand i = cand' i) →
  doWhile fuel cand used attempts = doWhile fuel cand' used attempts.
Proof.
  induction fuel as [|fuel IH]; intros attempts Hlt Hext; cbn [doWhile].
  - by rewrite Hext.
  - rewrite (Hext attempts) by lia.
    destruct (Nat.ltb_spec (S attempts) maxAttempts) as [Hlt'|Hge].
    + destruct (has (cand' attempts) used); cbn [andb]; [|done].
      apply IH; [done|]. intros i Hi Hi'. apply Hext; lia.
    + by rewrite andb_false_r.
Qed.

Lemma doWhile_attempts cand used : ∀ fuel attempts,
  (attempts < (doWhile fuel cand used attempts).2)%nat
  ∧ ((doWhile fuel cand used attempts).2 ≤ Nat.max (S attempts) maxAttempts)%nat
  ∧ (doWhile fuel cand used attempts).1
    = cand (pred (doWhile fuel cand used attempts).2).
Proof.
  assert (∀ attempts,
            (attempts < S attempts)%nat
            ∧ (S attempts ≤ Nat.max (S attempts) maxAttempts)%nat
            ∧ cand attempts = cand (pred (S attempts))) as Hstop.
  { intros attempts. cbn [pred]. split; [lia|]. split; [lia|done]. }
  induction fuel as [|fuel IH]; intros attempts; cbn [doWhile].
  - apply Hstop.
  - destruct (has (cand attempts) used); cbn [andb]; [|apply Hstop].
    destruct (Nat.ltb_spec (S attempts) maxAttempts) as [Hlt'|Hge]; [|apply Hstop].
    destruct (IH (S attempts)) as (H1 & H2 & H3). split; [lia|]. split; [lia|done].
Qed.

(** X18: [generateNonce] draws at most ten candidates.  Two candidate
    sources that agree on their first ten draws give the same result and
    leave the same set; the loop ends after between one and ten draws,
    and the nonce it ends with is the last one drawn. *)
Theorem generateNonce_draws_at_most_ten enableNonce cand cand' used :
  (∀ i, (i < maxAttempts)%nat → cand i = cand' i) →
  generateNonce enableNonce cand used = generateNonce enableNonce cand' used
  ∧ (1 ≤ (doWhile maxAttempts cand used 0).2 ≤ maxAttempts)%nat
  ∧ (doWhile maxAttempts cand used 0).1
    = cand (pred (doWhile maxAttempts cand used 0).2).
Proof.
  intros Hext. split.
  - unfold generateNonce. destruct enableNonce; [|done]. cbn [negb].
    rewrite (doWhile_ext cand cand' used maxAttempts 0); [done| |].
    + unfold maxAttempts. lia.
    + intros i _ Hi. by apply Hext.
  - destruct (doWhile_attempts cand used maxAttempts 0) as (H1 & H2 & H3).
    split; [|done]. unfold maxAttempts in *. lia.
Qed.

Lemma generateNonce_draws_at_most_ten_witness :
  let cand := λ i : nat, "n" +:+ pretty i in
  let cand' := λ i : nat, if (i <? 10)%nat then "n" +:+ pretty i else "other" in
  (∀ i, (i < maxAttempts)%nat → cand i = cand' i)
  ∧ generateNonce true cand ["n0"; "n1"] = generateNonce true cand' ["n0"; "n1"]
  ∧ (doWhile maxAttempts cand ["n0"; "n1"] 0).2 = 3%nat.
Proof.
  intros cand cand'.
  assert (∀ i, (i < maxAttempts)%nat → cand i = cand' i) as Hext.
  { intros i Hi. subst cand cand'. simpl.
    destruct (Nat.ltb_spec i 10) as [_|Hge]; [done|]. unfold maxAttempts in Hi. lia. }
  split; [exact Hext|]. split; [|reflexivity].
  apply (generateNonce_draws_at_most_ten true cand cand' ["n0"; "n1"] Hext).
Defined.

End NonceCandidates.

(** ** The action that is signed and the action that is sent (1.2.0) *)

Section SignedAction.

Import Orchestrator.

Lemma generateAuthHeaders_signature env cfg now rnd action w hs w' :
  generateAuthHeaders env cfg now rnd action w = (Return hs, w') →
  trace w' = trace w ∧ heap w' = heap w
  ∧ ∃ HmacSHA256,
      CryptoJS env = Some HmacSHA256
      ∧ prop_get hs "X-Signature"
        = JsString (HmacSHA256 (Api.signedMessage action hs)
                      (ToString (field_value (hmacSecret cfg)))).
Proof.
  unfold generateAuthHeaders, bind, generateNonce, lift, ret.
  destruct (Nonce.generateNonce _ _ _) as [[nonce|e] used]; simpl; [|done].
  unfold Signer.computeHMAC. destruct (CryptoJS env) as [hmac|]; [|done].
  intros [= <- <-]. simpl. split; [done|]. split; [done|].
  exists hmac. split; [done|].
  destruct nonce as [n|]; [destruct (String.eqb_spec n "") as [->|Hn]|]; done.
Qed.

Lemma generateAuthHeaders_throws env cfg now rnd action w e w' :
  generateAuthHeaders env cfg now rnd action w = (Throw e, w') →
  trace w' = trace w.
Proof.
  unfold generateAuthHeaders, bind, generateNonce, lift, ret.
  destruct (Nonce.generateNonce _ _ _) as [[nonce|e'] used]; simpl;
    [|by intros [= <- <-]].
  destruct (Signer.computeHMAC _ _ _); intros H; by simplify_eq.
Qed.

Lemma prop_get_fold_set (params : JsObject) key : ∀ o : JsObject,
  key ∉ Object_keys params →
  prop_get (foldl (λ o kv, prop_set o kv.1 kv.2) o params) key = prop_get o key.
Proof.
  unfold Object_keys.
  induction params as [|[k v] params IH]; intros o Hk; simpl; [done|].
  simpl in Hk. apply not_elem_of_cons in Hk as [Hne Hk].
  rewrite IH by done. by apply prop_get_set_ne.
Qed.

Lemma withAction_action action (params : JsObject) :
  "action" ∉ Object_keys params →
  prop_get (withAction action params) "action" = JsString action.
Proof. intros H. unfold withAction. by rewrite prop_get_fold_set. Qed.

Lemma signedMessage_prop_set action (hs : JsObject) key v :
  key ≠ "X-API-Token" → key ≠ "X-Timestamp" → key ≠ "X-Nonce" →
  Api.signedMessage action (prop_set hs key v) = Api.signedMessage action hs.
Proof.
  intros H1 H2 H3. unfold Api.signedMessage. by rewrite !prop_get_set_ne.
Qed.

(** X22: client 1.2.0 sends the action it signed.  [generateAuthHeaders]
    signs the [action] argument, while the parameters sent are
    [{ action, ...params }], in which a property of [params] named
    [action] would replace the argument.  When the caller's object has no
    [action] property, every network call that [makeRequest] or
    [makePostRequest] adds to the trace carries that [action] in its
    parameters, and its [X-Signature] header is the keyed digest of the
    message rebuilt from its headers and that [action]. *)
Theorem requests_120_send_the_signed_action :
  (∀ env cfg now later rnd action p options w req,
     "action" ∉ Object_keys (default [] (heap w !! p)) →
     NetworkCall req
     ∈ trace (makeRequest_120 env cfg now later rnd action p options w).2 →
     NetworkCall req ∈ trace w
     ∨ (prop_get (payload req) "action" = JsString action
        ∧ ∃ HmacSHA256,
            CryptoJS env = Some HmacSHA256
            ∧ prop_get (headers req) "X-Signature"
              = JsString (HmacSHA256 (Api.signedMessage action (headers req))
                            (ToString (field_value (hmacSecret cfg))))))
  ∧ (∀ env cfg now rnd action body w req,
       "action" ∉ Object_keys (default [] (heap w !! body)) →
       NetworkCall req
       ∈ trace (makePostRequest_120 env cfg now rnd action body w).2 →
       NetworkCall req ∈ trace w
       ∨ (prop_get (payload req) "action" = JsString action
          ∧ ∃ HmacSHA256,
              CryptoJS env = Some HmacSHA256
              ∧ prop_get (headers req) "X-Signature"
                = JsString (HmacSHA256 (Api.signedMessage action (headers req))
                              (ToString (field_value (hmacSecret cfg)))))).
Proof.
  split.
  - intros env cfg now later rnd action p options w req Hact.
    unfold makeRequest_120, cachedOrFetch_120, checkRateLimit, handleErrorResponse.
    unfold bind, readObj, withCache, doFetch, ret, throw, log. simpl.
    destruct (RateLimiter.checkRateLimit _ _ _) as [[b|e] win]; simpl;
      [|set_unfold; naive_solver].
    destruct (useCache options); simpl;
      [destruct (Cache.getCached _ _ _) as [[hit|] c]; simpl;
         [set_unfold; naive_solver|]|];
      (match goal with
       | |- context [generateAuthHeaders env cfg now rnd action ?w1] =>
           destruct (generateAuthHeaders env cfg now rnd action w1)
             as [[hs|e] w2] eqn:Hh
       end;
       [apply generateAuthHeaders_signature in Hh
          as (Htr & Hheap & hmac & Hcrypto & Hsig)
       |apply generateAuthHeaders_throws in Hh as Htr; simpl in *;
        rewrite Htr; set_unfold; naive_solver];
       simpl in *;
       match goal with |- context [fetch env ?r] => set (req0 := r) end;
       intros Hin;
       assert (NetworkCall req ∈ trace w ∨ req = req0) as [Hold| ->];
       [destruct (fetch env req0) as [| |[|] status [data|] remaining];
          simpl in Hin; try step_over_updateServerInfo Hin;
          rewrite ?Htr in Hin; set_unfold in Hin; naive_solver
       |by left|];
       right; subst req0; simpl; split; [by apply withAction_action|eauto]).
  - intros env cfg now rnd action body w req Hact.
    unfold makePostRequest_120, checkRateLimit, handleErrorResponse, getCSRFToken.
    unfold bind at 1, bind at 1, log. simpl.
    destruct (RateLimiter.checkRateLimit _ _ _) as [[b|e] win]; simpl;
      [|set_unfold; naive_solver].
    unfold bind at 1.
    match goal with
    | |- context [generateAuthHeaders env cfg now rnd action ?w1] =>
        destruct (generateAuthHeaders env cfg now rnd action w1)
          as [[hs|e] w2] eqn:Hh
    end;
      [apply generateAuthHeaders_signature in Hh
         as (Htr & Hheap & hmac & Hcrypto & Hsig)
      |apply generateAuthHeaders_throws in Hh as Htr; simpl in *;
       rewrite Htr; set_unfold; naive_solver].
    simpl in Htr, Hheap.
    unfold bind, readObj, setProp, doFetch, ret, throw, log.
    destruct (enableCSRF cfg); simpl;
      [destruct (Csrf.getCSRFToken _ _ _ _) as [tok st]; simpl;
       rewrite ?lookup_insert_eq; simpl|];
      (match goal with |- context [fetch env ?r] => set (req0 := r) end;
       intros Hin;
       assert (NetworkCall req ∈ trace w ∨ req = req0) as [Hold| ->];
       [destruct (fetch env req0) as [| |[|] status [data|] remaining];
          simpl in Hin; try step_over_updateServerInfo Hin;
          rewrite ?Htr in Hin; set_unfold in Hin; naive_solver
       |by left|];
       right; subst req0; simpl; rewrite Hheap; split;
       [rewrite prop_get_JSON_members;
        rewrite withAction_action
          by (try apply Object_keys_prop_set; done); done
       |exists hmac; split; [done|];
        rewrite !signedMessage_prop_set by done;
        by rewrite !prop_get_set_ne by done]).
Qed.

Lemma requests_120_send_the_signed_action_witness :
  let req :=
    {| method := "GET"; url := Some "https://script.example/exec";
       headers :=
         [("X-API-Token", JsString "token"); ("X-Timestamp", JsString "1");
          ("X-Signature", JsString "hmac(secret,token:1:getData:n0)");
          ("X-Nonce", JsString "n0")];
       payload := [("action", JsString "getData"); ("sheet", JsString "Sheet2")] |} in
  let w := with_heap {[ 0%nat := [("sheet", JsString "Sheet2")] ]} Sample.world in
  ("action" ∉ Object_keys (default [] (heap w !! 0%nat)))
  ∧ NetworkCall req
    ∈ trace (makeRequest_120 Sample.env Sample.configured 1000 1200 Sample.entropy
               "getData" 0%nat Sample.options w).2
  ∧ prop_get (payload req) "action" = JsString "getData"
  ∧ Api.signedMessage "getData" (headers req) = "token:1:getData:n0".
Proof.
  intros req w.
  assert ("action" ∉ Object_keys (default [] (heap w !! 0%nat))) as Hact.
  { intros Hin. apply list_elem_of_singleton in Hin. discriminate. }
  assert (NetworkCall req
          ∈ trace (makeRequest_120 Sample.env Sample.configured 1000 1200
                     Sample.entropy "getData" 0%nat Sample.options w).2) as Hsent.
  { vm_compute. apply list_elem_of_further, list_elem_of_further, list_elem_of_here. }
  split; [exact Hact|]. split; [exact Hsent|]. split; [|reflexivity].
  destruct (proj1 requests_120_send_the_signed_action Sample.env Sample.configured
              1000 1200 Sample.entropy "getData" 0%nat Sample.options w req
              Hact Hsent) as [Hold|[Haction _]].
  - vm_compute in Hold. by apply elem_of_nil in Hold.
  - exact Haction.
Defined.

End SignedAction.

(** ** The key a response is cached under (1.0.0 and 1.3.0) *)

Section CacheKeys.

Import Orchestrator.

(** X23: clients 1.3.0 and 1.0.0 store a response under another key than
    the one they look up.  The lookup key is the JSON form of the
    parameters before they are signed; the key the response is stored
    under is their JSON form once the signature has been added.  With
    caching on and no entry under the lookup key, a [makeRequest] that
    returns a response (in 1.0.0: one whose [success] is truthy) leaves
    the cache as it was plus one entry under the signed key; so when the
    two JSON forms differ, there is still no entry under the lookup
    key. *)
Theorem makeRequest_stores_under_signed_key :
  (∀ env cfg now later p options w data,
     useCache options = true →
     let p' := default [] (heap (addAuth_130 env cfg now p w).2 !! p) in
     let key := JSON_stringify env p' in
     cache w !! key = None →
     let run := makeRequest_130 env cfg now later p options w in
     run.1 = Return data →
     ∃ signature,
       Signer.generateSignature (CryptoJS env) (default "" (hmacSecret cfg)) p'
       = Return signature
       ∧ let key' :=
           JSON_stringify env (prop_set p' "signature" (JsString signature)) in
         cache run.2 = Cache.setCached (cacheTimeout cfg) later key' data (cache w)
         ∧ (key' ≠ key → cache run.2 !! key = None))
  ∧ (∀ env cfg now later p options w data,
       useCache options = true → enableCache cfg = true →
       let o := default [] (heap w !! p) in
       let rp :=
         prop_set
           (prop_set
              (prop_set (prop_set o "token" (field_value (apiToken cfg)))
                 "timestamp" (JsString (pretty now)))
              "referrer" (JsString (location_origin env)))
           "origin" (JsString (location_origin env)) in
       let key := JSON_stringify env rp in
       cache w !! key = None →
       let run := makeRequest_100 env cfg now later (Some p) options w in
       run.1 = Return data →
       ToBoolean (prop_get data "success") = true →
       ∃ signature,
         Signer.createSignature (CryptoJS env) rp (default "" (hmacSecret cfg))
         = Return signature
         ∧ let key' :=
             JSON_stringify env (prop_set rp "signature" (JsString signature)) in
           cache run.2
           = Cache.setCached_100 true later key' data (cacheTTL options) (cache w)
           ∧ (key' ≠ key → cache run.2 !! key = None)).
Proof.
  split.
  - intros env cfg now later p options w data Huse p' key Hmiss run.
    subst run. revert Hmiss. subst key p'.
    unfold makeRequest_130, addAuth_130, signAndSend_130, checkRateLimit.
    unfold handleErrorResponse.
    unfold bind, readObj, setProp, withCache, doFetch, lift, ret, throw, log.
    simpl. rewrite Huse.
    destruct (RateLimiter.checkRateLimit _ _ _) as [[b|e] win]; simpl; [|done].
    destruct (negb (String.eqb (origin cfg) "")); simpl;
      rewrite !lookup_insert_eq; simpl;
      (match goal with
       | |- context [Signer.generateSignature _ _ ?x] => set (p' := x)
       end;
       intros Hmiss; unfold Cache.getCached; rewrite Hmiss; simpl;
       destruct (Signer.generateSignature _ _ _) as [sig|e]; simpl; [|done];
       rewrite !lookup_insert_eq; simpl;
       match goal with |- context [fetch env ?r] => set (req0 := r) end;
       destruct (fetch env req0) as [| |[|] status [d|]]; simpl; try done;
       intros [= ->]; exists sig; split; [done|]; split; [done|];
       intros Hne; unfold Cache.setCached; by rewrite lookup_insert_ne).
  - intros env cfg now later p options w data Huse Hen o rp key Hmiss run.
    subst run. revert Hmiss. subst key.
    unfold makeRequest_100.
    destruct (_ || _ || _); [done|].
    unfold tryCatch, checkRateLimit.
    unfold bind, readObj, alloc, setProp, withCache, doFetch, lift, ret, throw, log.
    simpl. rewrite Huse, Hen.
    destruct (RateLimiter.checkRateLimit _ _ _) as [[b|e] win]; simpl; [|done].
    rewrite !lookup_insert_eq. simpl. unfold spread. fold o. fold rp.
    intros Hmiss.
    destruct (negb (ToBoolean (prop_get rp "action"))); simpl;
      [unfold Cache.getCached_100; simpl; rewrite Hmiss; simpl|];
      (destruct (Signer.createSignature _ _ _) as [sig|e]; simpl; [|done];
       rewrite !lookup_insert_eq; simpl;
       match goal with |- context [fetch env ?r] => set (req0 := r) end;
       destruct (fetch env req0) as [| |[|] status [d|]]; simpl; try done;
       destruct (ToBoolean (prop_get d "success")) eqn:Hok; simpl;
       intros [= ->]; [|by rewrite Hok]; intros _;
       exists sig; split; [done|]; split; [done|];
       intros Hne; unfold Cache.setCached_100; simpl; by rewrite lookup_insert_ne).
Qed.

Lemma makeRequest_stores_under_signed_key_witness :
  let run := makeRequest_130 Sample.env Sample.configured 1000 1200 0%nat
               Sample.options Sample.world in
  run.1 = Return [("success", JsBool true)]
  ∧ cache run.2 !! "action:getData,token:token,timestamp:T1000" = None
  ∧ CacheRead "action:getData,token:token,timestamp:T1000" ∈ trace run.2.
Proof.
  intros run.
  assert (run.1 = Return [("success", JsBool true)]) as Hrun
    by (vm_compute; reflexivity).
  split; [exact Hrun|]. split.
  - destruct (proj1 makeRequest_stores_under_signed_key Sample.env
                Sample.configured 1000 1200 0%nat Sample.options Sample.world
                [("success", JsBool true)] eq_refl eq_refl Hrun)
      as (signature & Hsig & _ & Habsent).
    vm_compute in Hsig. injection Hsig as <-.
    apply Habsent. vm_compute. discriminate.
  - vm_compute. apply list_elem_of_further, list_elem_of_here.
Defined.

End CacheKeys.

(** ** Configuration of the 3.8.1 client *)

Section Configure381Facts.

Import Client381.

(** X24: [configure] of the 3.8.1 client has two tiers.  It requires the
    URL only (which must start with [https://] unless
    [options.enforceHttps] is [false]).  Once it has returned, no public
    request fails with the configuration error; and as long as the token
    or the secret is missing, every protected and every POST request
    fails with the configuration error, leaves the rate limiter's window
    as it was and sends nothing. *)
Theorem configure_381_two_tiers options cfg cfg' :
  Configure381.configure options cfg = inr cfg' →
  (∃ o url,
     options = Some o ∧ Configure381.scriptUrl o = Some url
     ∧ scriptUrl cfg' = Some url ∧ url ≠ ""
     ∧ (String.prefix "https://" url = true
        ∨ Configure381.enforceHttps o = Some false))
  ∧ (∀ env now params w,
       (makePublicRequest env cfg' now params w).1.1 ≠ inl (Js NotConfigured))
  ∧ (Orchestrator.missing (apiToken cfg') = true
     ∨ Orchestrator.missing (hmacSecret cfg') = true →
     ∀ env now params w,
       makeProtectedRequest env cfg' now params w = (inl (Js NotConfigured), w, None)
       ∧ makePostRequest env cfg' now params w = (inl (Js NotConfigured), w, None)).
Proof.
  unfold Configure381.configure. intros H.
  destruct options as [o|]; [|done].
  destruct (Orchestrator.missing (Configure381.scriptUrl o)) eqn:Hu; [done|].
  destruct (Configure381.insecure o) eqn:Hi; [done|].
  injection H as <-.
  apply missing_false in Hu as (url & Hu & Hu').
  split; [|split].
  - exists o, url. simpl. rewrite Hu. repeat split; try done.
    unfold Configure381.insecure in Hi. rewrite Hu in Hi. simpl in Hi.
    apply andb_false_iff in Hi as [Hi|Hi].
    + right. apply negb_false_iff, bool_decide_eq_true in Hi. done.
    + left. by apply negb_false_iff in Hi.
  - intros env now params w. unfold makePublicRequest. simpl. rewrite Hu. simpl.
    apply String.eqb_neq in Hu'. rewrite Hu'.
    destruct params as [p|]; [|done].
    destruct (negb (ToBoolean (prop_get p "type"))); [done|].
    destruct (RateLimiter.checkRateLimit _ _ _) as [[b|e] w1] eqn:Hrl.
    + unfold received.
      match goal with
      | |- context [fetch env ?r] => destruct (fetch env r) as [| |[|] status [d|]]
      end; simpl; try done.
      by destruct (ToBoolean (prop_get d "error")).
    + apply checkRateLimit_throws in Hrl as [t ->]. done.
  - intros Hmiss env now params w.
    unfold makeProtectedRequest, makePostRequest.
    assert (Orchestrator.missing (scriptUrl (Configure381.assign o cfg))
            || Orchestrator.missing (apiToken (Configure381.assign o cfg))
            || Orchestrator.missing (hmacSecret (Configure381.assign o cfg))
            = true) as ->; [|done].
    destruct Hmiss as [Hm|Hm]; rewrite Hm; by rewrite ?orb_true_r.
Qed.

Lemma configure_381_two_tiers_witness :
  let o := {| Configure381.scriptUrl := Some "https://script.example/exec";
              Configure381.apiToken := None; Configure381.hmacSecret := None;
              Configure381.rateLimitEnabled := None;
              Configure381.maxRequests := None;
              Configure381.checksumValidation := None;
              Configure381.enforceHttps := None; Configure381.autoOrigin := None;
              Configure381.csrfProtection := None |} in
  let cfg' := Configure381.assign o Configure381.initial in
  Configure381.configure (Some o) Configure381.initial = inr cfg'
  ∧ (makePublicRequest Sample381.env cfg' 1000 (Some [("type", JsString "health")])
       Sample381.window).1.1 = inr Sample381.response
  ∧ makeProtectedRequest Sample381.env cfg' 1000
      (Some [("action", JsString "getData")]) Sample381.window
    = (inl (Js NotConfigured), Sample381.window, None).
Proof.
  intros o cfg'. split; [reflexivity|]. split; [reflexivity|].
  destruct (configure_381_two_tiers (Some o) Configure381.initial cfg' eq_refl)
    as (_ & _ & Hprotected).
  apply Hprotected. by left.
Defined.

End Configure381Facts.

(** ** The set of used nonces as a sliding window *)

Section NonceWindow.

Import Nonce.

Local Open Scope nat_scope.

(** The last [k] elements of a list. *)
Lemma drop_window {A} (k : nat) (l l' : list A) :
  drop (length (drop (length l - k) l ++ l') - k) (drop (length l - k) l ++ l')
  = drop (length (l ++ l') - k) (l ++ l').
Proof.
  destruct (decide (length l ≤ k)) as [Hle|Hgt].
  - replace (length l - k) with 0 by lia. by rewrite drop_0.
  - rewrite !length_app, length_drop.
    replace (length l - (length l - k) + length l' - k) with (length l') by lia.
    replace (length l + length l' - k) with ((length l - k) + length l') by lia.
    rewrite <- drop_drop. f_equal. rewrite drop_app_le by lia. done.
Qed.

Lemma limitSize_window (used : list string) (nonce : string) :
  NoDup used → length used ≤ 1000 → nonce ∉ used →
  limitSize (used ++ [nonce])
  = drop (length (used ++ [nonce]) - 1000) (used ++ [nonce]).
Proof.
  intros Hnd Hlen Hfresh.
  assert (NoDup (used ++ [nonce])) as Hnd'.
  { apply NoDup_app. split; [done|]. split; [|apply NoDup_singleton].
    intros x Hx Hx'. apply list_elem_of_singleton in Hx'. by subst. }
  rewrite length_app. cbn [length].
  destruct (decide (length used = 1000)) as [Heq|Hne].
  - rewrite limitSize_evicts_oldest; [|done|rewrite length_app; simpl; lia].
    by replace (length used + 1 - 1000) with 1 by lia.
  - rewrite limitSize_small by (rewrite length_app; simpl; lia).
    replace (length used + 1 - 1000) with 0 by lia. by rewrite drop_0.
Qed.

Lemma generateAll_window (cands : list (nat → string)) :
  ∀ used0 nonces used : list string,
  NoDup used0 → length used0 ≤ 1000 →
  generateAll cands used0 = Some (nonces, used) →
  used = drop (length (used0 ++ nonces) - 1000) (used0 ++ nonces)
  ∧ NoDup used ∧ length used ≤ 1000
  ∧ ∀ j b, nonces !! j = Some b →
      b ∉ drop (length (used0 ++ take j nonces) - 1000) (used0 ++ take j nonces).
Proof.
  induction cands as [|cand cands IH]; intros used0 nonces used Hnd Hlen Hrun.
  - cbn [generateAll] in Hrun. simplify_eq. rewrite app_nil_r.
    replace (length used - 1000) with 0 by lia. rewrite drop_0.
    split; [done|]. split; [done|]. split; [done|]. intros j b Hj. done.
  - cbn [generateAll] in Hrun.
    destruct (generateNonce true cand used0) as [[[n|]|e] used1] eqn:Hcall;
      [|done..].
    apply generateNonce_success in Hcall as [Hfresh ->].
    rewrite limitSize_window in Hrun by done.
    destruct (generateAll cands _) as [[nonces' used']|] eqn:Hrest; [|done].
    simplify_eq.
    apply IH in Hrest as (-> & Hnd' & Hlen' & Hfresh').
    + rewrite drop_window in Hnd', Hlen' |- *.
      assert ((used0 ++ [n]) ++ nonces' = used0 ++ n :: nonces') as Hassoc
        by by rewrite <- (assoc_L (++)).
      rewrite Hassoc in Hnd', Hlen' |- *.
      split; [done|]. split; [done|]. split; [done|].
      intros [|j] b Hj; simpl in Hj.
      * simplify_eq. simpl. rewrite app_nil_r.
        replace (length used0 - 1000) with 0 by lia. by rewrite drop_0.
      * apply Hfresh' in Hj. rewrite drop_window in Hj.
        by rewrite <- (assoc_L (++)) in Hj.
    + eapply sublist_NoDup; [|apply sublist_drop].
      apply NoDup_app. split; [done|]. split; [|apply NoDup_singleton].
      intros x Hx Hx'. apply list_elem_of_singleton in Hx'. by subst.
    + rewrite length_drop, length_app. simpl. lia.
Qed.

(** X25: the set of used nonces is a sliding window over the nonces
    issued.  After any run of successful [generateNonce] calls starting
    from the empty set, the set holds exactly the last 1000 nonces of the
    run (all of them when the run is shorter), in the order they were
    issued and without repetition; and no nonce is issued again within
    the 1000 calls that follow it. *)
Theorem nonce_set_is_the_last_thousand (cands : list (nat → string))
    (nonces used : list string) :
  generateAll cands [] = Some (nonces, used) →
  used = drop (length nonces - 1000) nonces
  ∧ NoDup used
  ∧ ∀ i j a b, i < j → j ≤ i + 1000 →
      nonces !! i = Some a → nonces !! j = Some b → a ≠ b.
Proof.
  intros Hrun.
  apply generateAll_window in Hrun as (Hused & Hnd & _ & Hfresh);
    [|apply NoDup_nil_2|simpl; lia].
  simpl in *. split; [done|]. split; [done|].
  intros i j a b Hij Hji Ha Hb ->. apply (Hfresh j b Hb).
  apply lookup_lt_Some in Hb as Hj.
  apply (list_elem_of_lookup_2 _ (i - (length (take j nonces) - 1000))).
  rewrite lookup_drop, length_take.
  replace (j `min` length nonces - 1000 + (i - (j `min` length nonces - 1000)))
    with i by lia.
  by rewrite lookup_take_lt.
Qed.

Lemma nonce_set_is_the_last_thousand_witness :
  generateAll [λ i, "a" +:+ pretty i; λ i, "a" +:+ pretty i; λ i, "a" +:+ pretty i] []
  = Some (["a0"; "a1"; "a2"], ["a0"; "a1"; "a2"])
  ∧ "a0" ≠ "a2".
Proof.
  assert (generateAll [λ i, "a" +:+ pretty i; λ i, "a" +:+ pretty i;
                       λ i, "a" +:+ pretty i] []
          = Some (["a0"; "a1"; "a2"], ["a0"; "a1"; "a2"])) as Hrun
    by (vm_compute; reflexivity).
  split; [exact Hrun|].
  destruct (nonce_set_is_the_last_thousand _ _ _ Hrun) as (_ & _ & Hdistinct).
  apply (Hdistinct 0 2); [lia|lia|reflexivity|reflexivity].
Defined.

End NonceWindow.

(** ** How many calls the rate limiter admits *)

Section AdmissionFacts.

Import RateLimiter.

Lemma admittedCount_cons cfg now times w :
  Admission.admittedCount cfg (now :: times) w
  = (if Admission.admitted (checkRateLimit cfg now w).1 then 1 else 0)
    + Admission.admittedCount cfg times (checkRateLimit cfg now w).2.
Proof.
  unfold Admission.admittedCount. cbn [calls].
  destruct (checkRateLimit cfg now w) as [r w1]. cbn [fst snd].
  destruct (calls cfg times w1) as [rs w2]. cbn [fst snd].
  destruct (Admission.admitted r) eqn:Hr.
  - rewrite filter_cons_True by done. cbn [length]. cbv iota. lia.
  - rewrite filter_cons_False by (by rewrite Hr). cbv iota. lia.
Qed.

(** While the window stays open, no more calls are admitted than the
    quota has left. *)
Lemma admittedCount_same_window cfg (times : list Z) : ∀ w,
  rateLimitEnabled cfg = true →
  Forall (λ t, t - requestWindow w ≤ oneHour) times →
  Admission.admittedCount cfg times w
  ≤ Z.max 0 (maxRequests cfg - requestCount w).
Proof.
  induction times as [|t times IH]; intros w Hen Hall.
  - unfold Admission.admittedCount. simpl. lia.
  - apply Forall_cons in Hall as [Ht Hall]. rewrite admittedCount_cons.
    destruct (Z_lt_le_dec (requestCount w) (maxRequests cfg)) as [Hlt|Hge].
    + rewrite checkRateLimit_admits by done. cbn [fst snd Admission.admitted].
      etrans; [apply Z.add_le_mono_l, IH; done|].
      cbn [requestCount]. lia.
    + rewrite checkRateLimit_refuses by done. cbn [fst snd Admission.admitted].
      etrans; [apply Z.add_le_mono_l, IH; done|]. lia.
Qed.

(** X26: how many calls the fixed window admits.  With rate limiting
    enabled and a counter that is not negative, take any run of
    [checkRateLimit] calls whose clock readings all lie within one hour
    of each other.  If none of them is more than one hour past the window
    start, the calls admitted are at most the [remaining] that
    [getRateLimitStatus] reports before the run.  In every case the calls
    admitted are at most that [remaining] plus one further quota of
    [maxRequests], so never more than twice the quota within one hour. *)
Theorem rate_limit_admits_at_most_two_quotas cfg (times : list Z) (lo : Z) :
  rateLimitEnabled cfg = true →
  Forall (λ t, lo ≤ t ≤ lo + oneHour) times →
  ∀ w, 0 ≤ requestCount w →
  (Forall (λ t, t - requestWindow w ≤ oneHour) times →
   Admission.admittedCount cfg times w
   ≤ RateLimitStatus.remaining (RateLimitStatus.getRateLimitStatus cfg lo w))
  ∧ Admission.admittedCount cfg times w
    ≤ RateLimitStatus.remaining (RateLimitStatus.getRateLimitStatus cfg lo w)
      + Z.max 0 (maxRequests cfg).
Proof.
  intros Hen Hspan w Hcount. cbn [RateLimitStatus.getRateLimitStatus
    RateLimitStatus.remaining].
  split; [by apply admittedCount_same_window|].
  revert w Hcount. induction times as [|t times IH]; intros w Hcount.
  - unfold Admission.admittedCount. simpl. lia.
  - apply Forall_cons in Hspan as [Ht Hspan]. rewrite admittedCount_cons.
    destruct (Z_le_gt_dec (t - requestWindow w) oneHour) as [Hin|Hout].
    + destruct (Z_lt_le_dec (requestCount w) (maxRequests cfg)) as [Hlt|Hge].
      * rewrite checkRateLimit_admits by done. cbn [fst snd Admission.admitted].
        etrans; [apply Z.add_le_mono_l, IH; [done|cbn [requestCount]; lia]|].
        cbn [requestCount]. lia.
      * rewrite checkRateLimit_refuses by done. cbn [fst snd Admission.admitted].
        etrans; [apply Z.add_le_mono_l, IH; done|]. lia.
    + rewrite checkRateLimit_new_window by done.
      destruct (Z.geb_spec 0 (maxRequests cfg)) as [Hnone|Hsome];
        cbn [fst snd Admission.admitted].
      * etrans; [apply Z.add_le_mono_l, admittedCount_same_window; [done|]|].
        { cbn [requestWindow]. eapply Forall_impl; [exact Hspan|].
          intros t' Ht'. simpl in Ht'. lia. }
        cbn [requestCount]. lia.
      * etrans; [apply Z.add_le_mono_l, admittedCount_same_window; [done|]|].
        { cbn [requestWindow]. eapply Forall_impl; [exact Hspan|].
          intros t' Ht'. simpl in Ht'. lia. }
        cbn [requestCount]. lia.
Qed.

Lemma rate_limit_admits_at_most_two_quotas_witness :
  let cfg := {| rateLimitEnabled := true; maxRequests := 1 |} in
  let w := {| requestCount := 0; requestWindow := 0 |} in
  rateLimitEnabled cfg = true
  ∧ Forall (λ t, 3600000 ≤ t ≤ 3600000 + oneHour) [3600000; 3600001; 3600002]
  ∧ 0 ≤ requestCount w
  ∧ (calls cfg [3600000; 3600001; 3600002] w).1
    = [Return true; Return true; Throw (RateLimitExceeded 7200001)]
  ∧ Admission.admittedCount cfg [3600000; 3600001; 3600002] w
    ≤ RateLimitStatus.remaining (RateLimitStatus.getRateLimitStatus cfg 3600000 w)
      + Z.max 0 (maxRequests cfg).
Proof.
  cbv zeta.
  assert (Forall (λ t, 3600000 ≤ t ≤ 3600000 + oneHour)
            [3600000; 3600001; 3600002]) as Hspan
    by (repeat constructor; unfold oneHour; lia).
  split; [reflexivity|]. split; [exact Hspan|]. split; [simpl; lia|].
  split; [reflexivity|].
  apply (rate_limit_admits_at_most_two_quotas
           {| rateLimitEnabled := true; maxRequests := 1 |}
           [3600000; 3600001; 3600002] 3600000 eq_refl Hspan
           {| requestCount := 0; requestWindow := 0 |}).
  simpl. lia.
Defined.

End AdmissionFacts.
